(** * yeti: asynchronous logging -- format engine, level filter, message ids,
      environment configuration and the queue / worker protocol.

    Embedding of [src/yeti.cc] (the unnamed part), [src/logger.cc] and the
    logging macros of [macro.h]. *)

From Stdlib Require Import Ascii String.
From Stdlib Require Import List Bool Arith ZArith NArith Lia Sorted.
From Stdlib Require Import DecimalString HexadecimalString.
Import ListNotations.

(** ** std::string *)

Module Str.

(** A [std::string] is the list of its characters. *)
Definition str := list ascii.

Definition lit (s : string) : str := list_ascii_of_string s.

(** [hay.compare(0, needle.size(), needle) == 0] *)
Fixpoint prefixb (needle hay : str) : bool :=
  match needle, hay with
  | [], _ => true
  | _ :: _, [] => false
  | a :: n', b :: h' => Ascii.eqb a b && prefixb n' h'
  end.

(** [hay.find(needle)]: position of the first occurrence, [None] for
    [std::string::npos]. *)
Fixpoint find (needle hay : str) : option nat :=
  if prefixb needle hay then Some 0
  else match hay with
       | [] => None
       | _ :: h' => option_map S (find needle h')
       end.

(** [s.replace(pos, len, val)] for [pos + len <= s.size()]. *)
Definition replace (pos len : nat) (val s : str) : str :=
  firstn pos s ++ val ++ skipn (pos + len) s.

(** [needle] occurs in [hay] as a contiguous substring. *)
Definition occurs (needle hay : str) : Prop :=
  exists pre post, hay = pre ++ needle ++ post.

(** [operator<] on characters (all texts here are 7-bit). *)
Definition ascii_ltb (a b : ascii) : bool := (nat_of_ascii a <? nat_of_ascii b)%nat.

(** [std::lexicographical_compare]: the order of [std::string] and of
    [std::vector]. *)
Fixpoint lex_ltb {A} (ltb : A -> A -> bool) (x y : list A) : bool :=
  match x, y with
  | _, [] => false
  | [], _ :: _ => true
  | a :: x', b :: y' =>
      if ltb a b then true else if ltb b a then false else lex_ltb ltb x' y'
  end.

Definition str_ltb : str -> str -> bool := lex_ltb ascii_ltb.

(** A [std::map<K,V>] is its sorted sequence of entries; [m[k] = v] inserts
    at the place the order gives, or overwrites. *)
Fixpoint map_set {K V} (ltb : K -> K -> bool) (k : K) (v : V)
         (m : list (K * V)) : list (K * V) :=
  match m with
  | [] => [(k, v)]
  | (k', v') :: m' =>
      if ltb k k' then (k, v) :: (k', v') :: m'
      else if ltb k' k then (k', v') :: map_set ltb k v m'
      else (k, v) :: m'
  end.

(** [std::to_string] of a signed or unsigned integer. *)
Definition to_string (z : Z) : str := lit (DecimalString.NilZero.string_of_int (Z.to_int z)).

Definition upper_hex_digit (c : ascii) : ascii :=
  let n := nat_of_ascii c in
  if ((97 <=? n) && (n <=? 102))%nat then ascii_of_nat (n - 32) else c.

(** [oss << std::hex << std::uppercase << n] *)
Definition to_hex_upper (n : N) : str :=
  map upper_hex_digit (lit (HexadecimalString.NilZero.string_of_uint (N.to_hex_uint n))).

End Str.

Import Str.

Example find_first : find (lit "ab") (lit "xxabab") = Some 2.
Proof. reflexivity. Qed.

Example find_npos : find (lit "ab") (lit "ba") = None.
Proof. reflexivity. Qed.

Example replace_mid : replace 2 2 (lit "Q") (lit "xxabab") = lit "xxQab".
Proof. reflexivity. Qed.

Example to_string_neg : to_string (-42) = lit "-42" /\ to_string 0 = lit "0".
Proof. split; reflexivity. Qed.

Example to_hex_upper_ex : to_hex_upper 48879 = lit "BEEF" /\ to_hex_upper 0 = lit "0".
Proof. split; reflexivity. Qed.

(** ** The format engine ([_CreateLogStr]) *)

Module Format.

(** [FILE*]: the three standard streams and any other open stream. *)
Inductive FILE := stdin | stdout | stderr | file (n : nat).

(** What the C library and the platform supply. *)
Record Platform := {
  strftime_F : Z -> str;       (* strftime(buf, .., "%F", localtime(&t)) *)
  strftime_T : Z -> str;       (* strftime(buf, .., "%T", localtime(&t)) *)
  hash_fn : N -> N;            (* std::hash<std::thread::id> *)
  isatty : FILE -> bool        (* isatty(fileno(fd)) != 0 *)
}.

(** [struct LogData]; [time] is the count of nanoseconds since the epoch. *)
Record LogData := {
  log_format : str;
  level : str;
  color : str;
  filename : str;
  funcname : str;
  pid : Z;
  tid : N;
  line : Z;
  fd : FILE;
  msg_id : Z;
  msg : str;
  time : Z
}.

Section CreateLogStr.

Variable P : Platform.

Definition date_str (d : LogData) : str :=
  strftime_F P (Z.quot (time d) 1000000000).

Definition time_str (d : LogData) : str :=
  let t := Z.quot (time d) 1000000000 in
  let frac := ((Z.rem (time d) 1000000000) mod 2 ^ 64)%Z in
  strftime_T P t ++ lit "." ++ to_string frac.

Definition tid_str (d : LogData) : str := to_hex_upper (hash_fn P (tid d)).

Definition subs_t := list (str * str).

(** [if (log_format.find(key) != npos) subs[key] = val;] *)
Definition set_if_found (key val : str) (d : LogData) (subs : subs_t) : subs_t :=
  match find key (log_format d) with
  | Some _ => map_set str_ltb key val subs
  | None => subs
  end.

(** The table [subs] as it stands when the substitution loop starts. *)
Definition build_subs (d : LogData) : subs_t :=
  let subs := [] in
  let subs := map_set str_ltb (lit "%(LEVEL)") (level d) subs in
  let subs := map_set str_ltb (lit "%(FILENAME)") (filename d) subs in
  let subs := map_set str_ltb (lit "%(FUNCNAME)") (funcname d) subs in
  let subs := map_set str_ltb (lit "%(MSG)") (msg d) subs in
  let subs := set_if_found (lit "%(PID)") (to_string (pid d)) d subs in
  let subs := set_if_found (lit "%(TID)") (tid_str d) d subs in
  let subs := set_if_found (lit "%(DATE)") (date_str d) d subs in
  let subs := set_if_found (lit "%(TIME)") (time_str d) d subs in
  let subs := set_if_found (lit "%(LINE)") (to_string (line d)) d subs in
  let subs := set_if_found (lit "%(MSG_ID)") (to_string (msg_id d)) d subs in
  subs.

(** [while ((pos = result.find(key)) != npos) result.replace(pos, key.length(), val);]
    [fuel] bounds the number of iterations; [None] when it runs out. *)
Fixpoint replace_loop (fuel : nat) (key val result : str) : option str :=
  match find key result with
  | None => Some result
  | Some pos =>
      match fuel with
      | O => None
      | S fuel' => replace_loop fuel' key val (replace pos (length key) val result)
      end
  end.

(** [for (const auto& entry : subs) ...] *)
Fixpoint subst_entries (fuel : nat) (subs : subs_t) (result : str) : option str :=
  match subs with
  | [] => Some result
  | (key, val) :: rest =>
      match replace_loop fuel key val result with
      | None => None
      | Some result' => subst_entries fuel rest result'
      end
  end.

Definition _CreateLogStr (fuel : nat) (d : LogData) : option str :=
  subst_entries fuel (build_subs d) (log_format d).

End CreateLogStr.

(** The ten placeholder tokens, in the order of their texts. *)
Inductive token :=
  | DATE | FILENAME | FUNCNAME | LEVEL | LINE | MSG | MSG_ID | PID | TID | TIME.

Definition all_tokens : list token :=
  [DATE; FILENAME; FUNCNAME; LEVEL; LINE; MSG; MSG_ID; PID; TID; TIME].

Definition token_text (t : token) : str :=
  match t with
  | DATE => lit "%(DATE)"
  | FILENAME => lit "%(FILENAME)"
  | FUNCNAME => lit "%(FUNCNAME)"
  | LEVEL => lit "%(LEVEL)"
  | LINE => lit "%(LINE)"
  | MSG => lit "%(MSG)"
  | MSG_ID => lit "%(MSG_ID)"
  | PID => lit "%(PID)"
  | TID => lit "%(TID)"
  | TIME => lit "%(TIME)"
  end.

(** The text a token stands for in a record. *)
Definition token_value (P : Platform) (d : LogData) (t : token) : str :=
  match t with
  | DATE => date_str P d
  | FILENAME => filename d
  | FUNCNAME => funcname d
  | LEVEL => level d
  | LINE => to_string (line d)
  | MSG => msg d
  | MSG_ID => to_string (msg_id d)
  | PID => to_string (pid d)
  | TID => tid_str P d
  | TIME => time_str P d
  end.

(** A template cut into pieces: an ordinary character or a recognized
    token. *)
Inductive piece := Chr (c : ascii) | Tok (t : token).

Definition piece_text (p : piece) : str :=
  match p with Chr c => [c] | Tok t => token_text t end.

Definition render (ps : list piece) : str := concat (map piece_text ps).

(** One simultaneous pass: every token piece gives way to its value, and
    the values are not looked at again. *)
Definition expand_piece (P : Platform) (d : LogData) (p : piece) : str :=
  match p with Chr c => [c] | Tok t => token_value P d t end.

Definition expand (P : Platform) (d : LogData) (ps : list piece) : str :=
  concat (map (expand_piece P d) ps).

Definition percent : ascii := "%"%char.

Definition plain_piece (p : piece) : Prop :=
  match p with Chr c => c <> percent | Tok _ => True end.

(** A placeholder the engine does not know: ["%(" ++ name ++ ")"] with a
    name free of ['%'] and [')'] that is none of the ten. *)
Definition unrecognized (u : str) : Prop :=
  (exists name, u = lit "%(" ++ name ++ lit ")"
                /\ ~ In percent name /\ ~ In ")"%char name)
  /\ forall t, u <> token_text t.

(** A platform to run examples on. *)
Definition demo_platform : Platform :=
  {| strftime_F := fun _ => lit "2014-05-01";
     strftime_T := fun _ => lit "12:00:00";
     hash_fn := fun n => n;
     isatty := fun f => match f with file _ => false | _ => true end |}.

Definition demo_record (fmt m : string) : LogData :=
  {| log_format := lit fmt; level := lit "INF"; color := lit "";
     filename := lit "main.cc"; funcname := lit "main"; pid := 42; tid := 255;
     line := 7; fd := stderr; msg_id := 3; msg := lit m; time := 1500000000 |}.

(** Whether the table holds an entry for a token: four always, the other
    six when the template shows them. *)
Definition in_subs (d : LogData) (t : token) : bool :=
  match t with
  | FILENAME | FUNCNAME | LEVEL | MSG => true
  | _ => match find (token_text t) (log_format d) with Some _ => true | None => false end
  end.

Definition rparen : ascii := ")"%char.

(** The form all placeholders share: a ['%'], a body without ['%'] and
    [')'], a closing [')']. *)
Definition shaped (x : str) : Prop :=
  exists body, x = percent :: body ++ [rparen]
               /\ ~ In percent body /\ ~ In rparen body.

Definition token_eq_dec (t t' : token) : {t = t'} + {t <> t'}.
Proof. decide equality. Defined.

Definition piece_eq_dec (p q : piece) : {p = q} + {p <> q}.
Proof. decide equality; [apply ascii_dec|apply token_eq_dec]. Defined.

(** What the loop of token [t] makes of a piece, of a template, and what
    the loops of several tokens make of it one after the other. *)
Definition subst_piece (t : token) (v : str) (p : piece) : list piece :=
  match p with
  | Chr _ => [p]
  | Tok t' => if token_eq_dec t t' then map Chr v else [p]
  end.

Definition subst_tok (t : token) (v : str) (ps : list piece) : list piece :=
  flat_map (subst_piece t v) ps.

Fixpoint subst_toks (val : token -> str) (ts : list token) (ps : list piece) : list piece :=
  match ts with
  | [] => ps
  | t :: ts' => subst_toks val ts' (subst_tok t (val t) ps)
  end.

Definition count (t : token) (ps : list piece) : nat := count_occ piece_eq_dec ps (Tok t).

(** A piece after the loops of the tokens [ts]. *)
Definition expand_in (val : token -> str) (ts : list token) (p : piece) : str :=
  match p with
  | Chr c => [c]
  | Tok t => if in_dec token_eq_dec t ts then val t else token_text t
  end.

End Format.

Import Format.

Example spec_example :
  _CreateLogStr demo_platform 10 (demo_record "[%(LEVEL)] %(MSG)" "started")
  = Some (lit "[INF] started").
Proof. reflexivity. Qed.

Example default_format :
  _CreateLogStr demo_platform 10
    (demo_record "[%(LEVEL)] %(FILENAME): %(LINE): %(MSG)" "started")
  = Some (lit "[INF] main.cc: 7: started").
Proof. reflexivity. Qed.

Example all_tokens_example :
  _CreateLogStr demo_platform 10
    (demo_record "%(DATE) %(TIME) %(PID) %(TID) %(MSG_ID) %(FUNCNAME) %(MSG)%(MSG)" "a")
  = Some (lit "2014-05-01 12:00:00.500000000 42 FF 3 main aa").
Proof. reflexivity. Qed.

Example subs_order :
  map fst (build_subs demo_platform
             (demo_record "%(DATE)%(TIME)%(PID)%(TID)%(MSG_ID)%(LINE)" ""))
  = map token_text all_tokens.
Proof. reflexivity. Qed.

(** ** The print task of [_EnqueueLogTask] *)

Module Print.

Definition ESC : ascii := ascii_of_nat 27.
Definition NUL : ascii := ascii_of_nat 0.
Definition newline : str := [ascii_of_nat 10].

Definition YETI_LRED : str := ESC :: lit "[1;31m".
Definition YETI_LPURPLE : str := ESC :: lit "[1;35m".
Definition YETI_YELLOW : str := ESC :: lit "[1;33m".
Definition YETI_LGREEN : str := ESC :: lit "[1;32m".
Definition YETI_WHITE : str := ESC :: lit "[1;37m".
Definition YETI_RESET : str := ESC :: lit "[0m".

(** [s.c_str()] read as a C string: the characters before the first NUL. *)
Fixpoint c_str (s : str) : str :=
  match s with
  | [] => []
  | c :: s' => if Ascii.eqb c NUL then [] else c :: c_str s'
  end.

(** [std::fprintf(fd, fmt)] with no further argument: the characters it
    writes.  ["%%"] writes one ['%']; every other conversion reads an
    argument that was not passed, which is undefined ([None]). *)
Fixpoint fprintf (fmt : str) : option str :=
  match fmt with
  | [] => Some []
  | c :: rest =>
      if Ascii.eqb c percent then
        match rest with
        | c' :: rest' =>
            if Ascii.eqb c' percent then option_map (cons percent) (fprintf rest')
            else None
        | [] => None
        end
      else option_map (cons c) (fprintf rest)
  end.

Inductive outcome (A : Type) :=
  | Done (a : A)       (* returned *)
  | OutOfFuel          (* the substitution loop was still running *)
  | Undefined.         (* undefined behaviour in the C library call *)

Arguments Done {A} a.
Arguments OutOfFuel {A}.
Arguments Undefined {A}.

(** The line the task has built when it calls [fprintf]. *)
Definition log_str (P : Platform) (is_colored : bool) (d : LogData) (created : str) : str :=
  let s := created ++ newline in
  if Format.isatty P (fd d) && is_colored then color d ++ s ++ YETI_RESET else s.

(** [print_func]: the characters written to [log_data->fd]. *)
Definition print_func (P : Platform) (fuel : nat) (d : LogData) (is_colored : bool)
  : outcome (FILE * str) :=
  match _CreateLogStr P fuel d with
  | None => OutOfFuel
  | Some created =>
      match fprintf (c_str (log_str P is_colored d created)) with
      | None => Undefined
      | Some written => Done (fd d, written)
      end
  end.

(** A record that goes to a stream that is no terminal, under the template
    ["%(MSG)"]. *)
Definition percent_record (m : string) : LogData :=
  {| log_format := lit "%(MSG)"; level := lit "INF"; color := YETI_LGREEN;
     filename := lit "main.cc"; funcname := lit "main"; pid := 42; tid := 1;
     line := 7; fd := file 3; msg_id := 0; msg := lit m; time := 0 |}.

End Print.

Import Print.

Example print_plain :
  print_func demo_platform 10
    {| log_format := lit "[%(LEVEL)] %(MSG)"; level := lit "INF"; color := YETI_LGREEN;
       filename := []; funcname := []; pid := 1; tid := 1; line := 1; fd := file 3;
       msg_id := 0; msg := lit "started"; time := 0 |} true
  = Done (file 3, lit "[INF] started" ++ newline).
Proof. reflexivity. Qed.

Example print_colored :
  print_func demo_platform 10
    {| log_format := lit "[%(LEVEL)] %(MSG)"; level := lit "INF"; color := YETI_LGREEN;
       filename := []; funcname := []; pid := 1; tid := 1; line := 1; fd := stderr;
       msg_id := 0; msg := lit "started"; time := 0 |} true
  = Done (stderr, YETI_LGREEN ++ lit "[INF] started" ++ newline ++ YETI_RESET).
Proof. reflexivity. Qed.

(** ** The logger object and the logging macros *)

Module Logger.

(** [enum LogLevel]: the six enumerators [logger.cc] and the macros name.
    The declaration itself is in [yeti.h], which is not under src/, so the
    numbers behind the enumerators are left open (see [Macros] below). *)
Inductive LogLevel :=
  | LOG_LEVEL_CRITICAL
  | LOG_LEVEL_ERROR
  | LOG_LEVEL_WARNING
  | LOG_LEVEL_INFO
  | LOG_LEVEL_DEBUG
  | LOG_LEVEL_TRACE.

(** Severity as the specification orders the levels:
    TRACE < DEBUG < INFO < WARNING < ERROR < CRITICAL. *)
Definition severity (l : LogLevel) : nat :=
  match l with
  | LOG_LEVEL_TRACE => 0
  | LOG_LEVEL_DEBUG => 1
  | LOG_LEVEL_INFO => 2
  | LOG_LEVEL_WARNING => 3
  | LOG_LEVEL_ERROR => 4
  | LOG_LEVEL_CRITICAL => 5
  end.

(** A queued [std::function<void()>]: the print closure of
    [_EnqueueLogTask] or the close closure of [CloseFileDesc]. *)
Inductive Task :=
  | print_task (log_data : LogData) (is_colored : bool)
  | close_func (f : FILE).

(** The members of [class Logger] that the modelled code reads or writes. *)
Record Logger := {
  stop_loop_ : bool;
  is_colored_ : bool;
  level_ : LogLevel;
  msg_id_ : Z;
  format_str_ : str;
  fd_ : FILE;
  queue_ : list Task;
  exec_list_ : list Task
}.

(** Modelled from the spec: [Logger::GetLevel] of [logger.h] (not under
    src/), the read of the current minimum level. *)
Definition GetLevel (lg : Logger) : LogLevel := level_ lg.

(** Modelled from the spec: [Logger::IsColored] of [logger.h] (not under
    src/), the read of the colour flag. *)
Definition IsColored (lg : Logger) : bool := is_colored_ lg.

(** Modelled from the spec: [Logger::GetFileDesc] of [logger.h] (not under
    src/), the read of the output stream. *)
Definition GetFileDesc (lg : Logger) : FILE := fd_ lg.

(** [Logger::GetFormatStr] *)
Definition GetFormatStr (lg : Logger) : str := format_str_ lg.

(** Modelled from the spec: [Logger::GetMsgId] of [logger.h] (not under
    src/), the read of the running message-id counter. *)
Definition GetMsgId (lg : Logger) : Z := msg_id_ lg.

(** One more than the largest [std::size_t]. *)
Definition SIZE_MAX1 : Z := 2 ^ 64.

(** Modelled from the spec: [Logger::IncMsgId] of [logger.h] (not under
    src/), the increment of the counter at a single point: [++msg_id_] on
    a [std::size_t]. *)
Definition IncMsgId (lg : Logger) : Logger :=
  {| stop_loop_ := stop_loop_ lg; is_colored_ := is_colored_ lg; level_ := level_ lg;
     msg_id_ := (msg_id_ lg + 1) mod SIZE_MAX1;
     format_str_ := format_str_ lg; fd_ := fd_ lg;
     queue_ := queue_ lg; exec_list_ := exec_list_ lg |}.

(** [Logger::EnqueueTask]: [queue_.push(queue_func)]. *)
Definition EnqueueTask (queue_func : Task) (lg : Logger) : Logger :=
  {| stop_loop_ := stop_loop_ lg; is_colored_ := is_colored_ lg; level_ := level_ lg;
     msg_id_ := msg_id_ lg; format_str_ := format_str_ lg; fd_ := fd_ lg;
     queue_ := queue_ lg ++ [queue_func]; exec_list_ := exec_list_ lg |}.

(** What a macro expansion knows at its call site: [__FILE__], [__func__],
    [__LINE__], the text [printf] makes of [fmt] and its arguments, and what
    the clock, [getpid()] and [std::this_thread::get_id()] answer. *)
Record CallSite := {
  cs_file : str;
  cs_func : str;
  cs_line : Z;
  cs_text : str;
  cs_now : Z;
  cs_pid : Z;
  cs_tid : N
}.

Definition MAX_MSG_LENGTH : nat := 512.

(** [snprintf(__yeti_msg__, sizeof(__yeti_msg__), fmt, ...)] then
    [msg = __yeti_msg__]. *)
Definition yeti_msg (cs : CallSite) : str := c_str (firstn (MAX_MSG_LENGTH - 1) (cs_text cs)).

(** [_EnqueueLogTask]: stamp the record, capture the colour flag, queue the
    print closure. *)
Definition _EnqueueLogTask (cs : CallSite) (lvl col : str) (id : Z) (lg : Logger) : Logger :=
  let log_data :=
    {| log_format := GetFormatStr lg; level := lvl; color := col;
       filename := cs_file cs; funcname := cs_func cs;
       pid := cs_pid cs; tid := cs_tid cs; line := cs_line cs;
       fd := GetFileDesc lg; msg_id := id; msg := yeti_msg cs; time := cs_now cs |} in
  EnqueueTask (print_task log_data (IsColored lg)) lg.

Section Macros.

(** The numeric value of each enumerator of [LogLevel]. *)
Variable value : LogLevel -> Z.

(** [yeti::GetLogLevel()] *)
Definition GetLogLevel (lg : Logger) : Z := value (GetLevel lg).

Definition CRT (cs : CallSite) (lg : Logger) : Logger :=
  let id := GetMsgId lg in
  let lg := IncMsgId lg in
  _EnqueueLogTask cs (lit "CRT") YETI_LRED id lg.

(** The body shared by ERR, WRN, INF, DBG and TRC. *)
Definition guarded (l : LogLevel) (lvl col : str) (cs : CallSite) (lg : Logger) : Logger :=
  let __yeti_msg_id__ := GetMsgId lg in
  let lg := IncMsgId lg in
  if (GetLogLevel lg >=? value l)%Z
  then _EnqueueLogTask cs lvl col __yeti_msg_id__ lg
  else lg.

Definition ERR := guarded LOG_LEVEL_ERROR (lit "ERR") YETI_LPURPLE.
Definition WRN := guarded LOG_LEVEL_WARNING (lit "WRN") YETI_YELLOW.
Definition INF := guarded LOG_LEVEL_INFO (lit "INF") YETI_LGREEN.
Definition DBG := guarded LOG_LEVEL_DEBUG (lit "DBG") YETI_WHITE.
Definition TRC := guarded LOG_LEVEL_TRACE (lit "TRC") [].

(** The macro that logs at a given level. *)
Definition log_macro (l : LogLevel) : CallSite -> Logger -> Logger :=
  match l with
  | LOG_LEVEL_CRITICAL => CRT
  | LOG_LEVEL_ERROR => ERR
  | LOG_LEVEL_WARNING => WRN
  | LOG_LEVEL_INFO => INF
  | LOG_LEVEL_DEBUG => DBG
  | LOG_LEVEL_TRACE => TRC
  end.

End Macros.

(** The enumerators numbered in the order CRITICAL, ERROR, WARNING, INFO,
    DEBUG, TRACE. *)
Definition declared_order (value : LogLevel -> Z) : Prop :=
  (value LOG_LEVEL_CRITICAL < value LOG_LEVEL_ERROR
   /\ value LOG_LEVEL_ERROR < value LOG_LEVEL_WARNING
   /\ value LOG_LEVEL_WARNING < value LOG_LEVEL_INFO
   /\ value LOG_LEVEL_INFO < value LOG_LEVEL_DEBUG
   /\ value LOG_LEVEL_DEBUG < value LOG_LEVEL_TRACE)%Z.

Definition from_zero (l : LogLevel) : Z :=
  match l with
  | LOG_LEVEL_CRITICAL => 0
  | LOG_LEVEL_ERROR => 1
  | LOG_LEVEL_WARNING => 2
  | LOG_LEVEL_INFO => 3
  | LOG_LEVEL_DEBUG => 4
  | LOG_LEVEL_TRACE => 5
  end.

(** The logger as its constructor leaves it, at a given level. *)
Definition fresh (l : LogLevel) : Logger :=
  {| stop_loop_ := false; is_colored_ := true; level_ := l; msg_id_ := 0;
     format_str_ := lit "[%(LEVEL)] %(FILENAME): %(LINE): %(MSG)"; fd_ := stderr;
     queue_ := []; exec_list_ := [] |}.

Definition demo_site : CallSite :=
  {| cs_file := lit "main.cc"; cs_func := lit "main"; cs_line := 7;
     cs_text := lit "started"; cs_now := 0; cs_pid := 42; cs_tid := 1 |}.

(** *** [Logger::LogLevelFromEnv] *)

Definition dict_t := list (list str * LogLevel).

Definition vec_ltb : list str -> list str -> bool := lex_ltb str_ltb.

(** The initializer list of [level_dict], entry by entry. *)
Definition level_dict : dict_t :=
  let ins k l m := map_set vec_ltb (map lit k) l m in
  let m := [] in
  let m := ins ["TRACE"; "TRC"; "trace"; "trc"]%string LOG_LEVEL_TRACE m in
  let m := ins ["DEBUG"; "DBG"; "debug"; "dbg"]%string LOG_LEVEL_DEBUG m in
  let m := ins ["INF"; "inf"]%string LOG_LEVEL_INFO m in
  let m := ins ["WARN"; "WRN"; "warn"; "wrn"]%string LOG_LEVEL_WARNING m in
  let m := ins ["ERR"; "err"]%string LOG_LEVEL_ERROR m in
  let m := ins ["CRIT"; "CRT"; "crit"; "crt"]%string LOG_LEVEL_CRITICAL m in
  m.

(** [env_str.find(s) != std::string::npos] *)
Definition found (s env_str : str) : bool :=
  match find s env_str with Some _ => true | None => false end.

(** [var] is [None] for [nullptr]. *)
Definition LogLevelFromEnv (var : option str) : LogLevel :=
  match var with
  | None => LOG_LEVEL_INFO
  | Some env_str =>
      match List.find (fun p => existsb (fun s => found s env_str) (fst p)) level_dict with
      | Some p => snd p
      | None => LOG_LEVEL_INFO
      end
  end.

(** The spellings the dictionary lists for a level. *)
Definition spellings (l : LogLevel) : list str :=
  map lit (match l with
           | LOG_LEVEL_TRACE => ["TRACE"; "TRC"; "trace"; "trc"]
           | LOG_LEVEL_DEBUG => ["DEBUG"; "DBG"; "debug"; "dbg"]
           | LOG_LEVEL_INFO => ["INF"; "inf"]
           | LOG_LEVEL_WARNING => ["WARN"; "WRN"; "warn"; "wrn"]
           | LOG_LEVEL_ERROR => ["ERR"; "err"]
           | LOG_LEVEL_CRITICAL => ["CRIT"; "CRT"; "crit"; "crt"]
           end%string).

(** The order in which [std::find_if] visits the dictionary. *)
Definition visit_order : list LogLevel :=
  [LOG_LEVEL_CRITICAL; LOG_LEVEL_DEBUG; LOG_LEVEL_ERROR; LOG_LEVEL_INFO;
   LOG_LEVEL_TRACE; LOG_LEVEL_WARNING].

(** Case-insensitive matching, as the specification words it. *)
Definition to_lower (c : ascii) : ascii :=
  let n := nat_of_ascii c in
  if ((65 <=? n) && (n <=? 90))%nat then ascii_of_nat (n + 32) else c.

Definition found_nocase (s env_str : str) : bool :=
  found (map to_lower s) (map to_lower env_str).

Definition matches_nocase (env_str : str) (l : LogLevel) : bool :=
  existsb (fun s => found_nocase s env_str) (spellings l).

(** Some spelling of [l] occurs in [env_str], letter for letter. *)
Definition hit (env_str : str) (l : LogLevel) : Prop :=
  exists s, In s (spellings l) /\ occurs s env_str.

Definition hitb (env_str : str) (l : LogLevel) : bool :=
  existsb (fun s => found s env_str) (spellings l).

(** The place of a level in [visit_order]. *)
Definition visit_rank (l : LogLevel) : nat :=
  match l with
  | LOG_LEVEL_CRITICAL => 0
  | LOG_LEVEL_DEBUG => 1
  | LOG_LEVEL_ERROR => 2
  | LOG_LEVEL_INFO => 3
  | LOG_LEVEL_TRACE => 4
  | LOG_LEVEL_WARNING => 5
  end.

End Logger.

Import Logger.

Example level_dict_order : map snd level_dict = visit_order.
Proof. reflexivity. Qed.

Example env_examples :
  LogLevelFromEnv None = LOG_LEVEL_INFO
  /\ LogLevelFromEnv (Some (lit "debug")) = LOG_LEVEL_DEBUG
  /\ LogLevelFromEnv (Some (lit "my TRACE level")) = LOG_LEVEL_TRACE
  /\ LogLevelFromEnv (Some (lit "error")) = LOG_LEVEL_ERROR
  /\ LogLevelFromEnv (Some (lit "verbose")) = LOG_LEVEL_INFO
  /\ LogLevelFromEnv (Some (lit "Debug")) = LOG_LEVEL_INFO
  /\ LogLevelFromEnv (Some (lit "trace,debug")) = LOG_LEVEL_DEBUG.
Proof. repeat split; reflexivity. Qed.

Example macro_examples :
  length (queue_ (WRN from_zero demo_site (fresh LOG_LEVEL_ERROR))) = 0
  /\ msg_id_ (WRN from_zero demo_site (fresh LOG_LEVEL_ERROR)) = 1%Z
  /\ length (queue_ (ERR from_zero demo_site (fresh LOG_LEVEL_ERROR))) = 1
  /\ length (queue_ (CRT demo_site (fresh LOG_LEVEL_CRITICAL))) = 1.
Proof. repeat split; reflexivity. Qed.

(** ** Message ids under interleaving *)

Module MsgId.

(** Where a thread stands in a logging macro: outside, or between its
    [_GetMsgId()] and its [_IncMsgId()]. *)
Inductive pc := Outside | HasId.

Record state := {
  logger : Logger;
  at_ : nat -> pc;
  ids : list (nat * Z)          (* (thread, id) in the order the ids were read *)
}.

Definition move (t : nat) (p : pc) (f : nat -> pc) : nat -> pc :=
  fun u => if Nat.eqb u t then p else f u.

(** Thread [t] runs the next of its two calls: [_GetMsgId()] or
    [_IncMsgId()]. *)
Definition step (s : state) (t : nat) : state :=
  match at_ s t with
  | Outside =>
      {| logger := logger s; at_ := move t HasId (at_ s);
         ids := ids s ++ [(t, GetMsgId (logger s))] |}
  | HasId =>
      {| logger := IncMsgId (logger s); at_ := move t Outside (at_ s);
         ids := ids s |}
  end.

Definition run (schedule : list nat) (s : state) : state := fold_left step schedule s.

Definition init : state :=
  {| logger := fresh LOG_LEVEL_INFO; at_ := fun _ => Outside; ids := [] |}.

(** The ids thread [t] has read, oldest first. *)
Definition ids_of (t : nat) (s : state) : list Z :=
  map snd (filter (fun p => Nat.eqb (fst p) t) (ids s)).

Definition counter (s : state) : Z := msg_id_ (logger s).

(** How an id that thread [t] has read stands to the counter. *)
Definition bound (s : state) (t : nat) (id : Z) : Prop :=
  match at_ s t with
  | Outside => (id < counter s)%Z
  | HasId => (id <= counter s)%Z
  end.

(** What holds after [n] steps. *)
Definition good (n : Z) (s : state) : Prop :=
  (0 <= counter s <= n)%Z
  /\ forall t, Sorted.StronglySorted Z.lt (ids_of t s) /\ Forall (bound s t) (ids_of t s).

End MsgId.

(** ** Queue, worker, [Flush] and [Shutdown] *)

(** The threads of the logger as an interleaving of steps on one shared
    state.  Every access to [queue_] is made under [queue_mutex_] and
    every access to [exec_list_] under [exec_list_mutex_]; a critical
    section that no other step can observe from inside is one step.  The
    worker is the only thread that keeps a mutex from one step to the
    next, so its program counter tells which mutexes are taken.  A thread
    that waits for a mutex, sleeps in [cv_.wait], waits in [join] or is
    inside a task that does not return has no step ([None]) until it can
    go on.  Tasks leave the logger alone, and the streams they write to or
    close are open. *)

Module Pipeline.

(** The worker inside [ProcessingLoop]. *)
Inductive WorkerPc :=
  | W_wait         (* at [cv_.wait]: to take [queue_mutex_] and test the predicate *)
  | W_unready      (* the predicate was false: holds [queue_mutex_], to block *)
  | W_blocked      (* asleep inside [cv_.wait]: holds no mutex *)
  | W_locked       (* the wait returned: holds [queue_mutex_] *)
  | W_drain        (* holds both mutexes, in the first inner loop *)
  | W_exec         (* holds [exec_list_mutex_], in the second inner loop *)
  | W_test_stop    (* at [!stop_loop_] of the loop condition *)
  | W_test_queue   (* at [!IsQueueEmpty()] of the loop condition *)
  | W_exited.      (* [ProcessingLoop] has returned *)

(** The thread that calls [Flush]. *)
Inductive FlushPc :=
  | F_out | F_notify | F_test_queue | F_test_exec | F_returned.

(** The thread that calls [Shutdown], once or again and again. *)
Inductive ShutdownPc :=
  | S_out          (* [Shutdown] has not been called *)
  | S_notify       (* [stop_loop_] is set: at [cv_.notify_one()] *)
  | S_join         (* at [if (thread_.joinable()) thread_.join()] *)
  | S_returned.    (* the last call has returned *)

Record State := {
  logger : Logger;
  worker : WorkerPc;
  flusher : FlushPc;
  closer : ShutdownPc;
  joinable : bool;           (* [thread_.joinable()] *)
  enqueued : list Task;      (* every task pushed, in the order of the pushes *)
  executed : list Task;      (* every task run, in the order of the runs *)
  flush_from : nat;          (* pushes completed when Flush was last called *)
  shutdown_from : nat;       (* pushes completed when Shutdown was last called *)
  shutdown_calls : nat       (* calls of Shutdown so far *)
}.

Definition with_logger (lg : Logger) (s : State) : State :=
  {| logger := lg; worker := worker s; flusher := flusher s; closer := closer s;
     joinable := joinable s; enqueued := enqueued s; executed := executed s;
     flush_from := flush_from s; shutdown_from := shutdown_from s;
     shutdown_calls := shutdown_calls s |}.

Definition with_worker (w : WorkerPc) (s : State) : State :=
  {| logger := logger s; worker := w; flusher := flusher s; closer := closer s;
     joinable := joinable s; enqueued := enqueued s; executed := executed s;
     flush_from := flush_from s; shutdown_from := shutdown_from s;
     shutdown_calls := shutdown_calls s |}.

Definition with_flusher (f : FlushPc) (s : State) : State :=
  {| logger := logger s; worker := worker s; flusher := f; closer := closer s;
     joinable := joinable s; enqueued := enqueued s; executed := executed s;
     flush_from := flush_from s; shutdown_from := shutdown_from s;
     shutdown_calls := shutdown_calls s |}.

Definition with_closer (c : ShutdownPc) (s : State) : State :=
  {| logger := logger s; worker := worker s; flusher := flusher s; closer := c;
     joinable := joinable s; enqueued := enqueued s; executed := executed s;
     flush_from := flush_from s; shutdown_from := shutdown_from s;
     shutdown_calls := shutdown_calls s |}.

Definition set_queue (q : list Task) (lg : Logger) : Logger :=
  {| stop_loop_ := stop_loop_ lg; is_colored_ := is_colored_ lg; level_ := level_ lg;
     msg_id_ := msg_id_ lg; format_str_ := format_str_ lg; fd_ := fd_ lg;
     queue_ := q; exec_list_ := exec_list_ lg |}.

Definition set_exec_list (l : list Task) (lg : Logger) : Logger :=
  {| stop_loop_ := stop_loop_ lg; is_colored_ := is_colored_ lg; level_ := level_ lg;
     msg_id_ := msg_id_ lg; format_str_ := format_str_ lg; fd_ := fd_ lg;
     queue_ := queue_ lg; exec_list_ := l |}.

Definition set_stop_loop (lg : Logger) : Logger :=
  {| stop_loop_ := true; is_colored_ := is_colored_ lg; level_ := level_ lg;
     msg_id_ := msg_id_ lg; format_str_ := format_str_ lg; fd_ := fd_ lg;
     queue_ := queue_ lg; exec_list_ := exec_list_ lg |}.

Definition empty (l : list Task) : bool :=
  match l with [] => true | _ :: _ => false end.

(** Only the worker keeps a mutex across steps. *)
Definition queue_mutex_free (s : State) : bool :=
  match worker s with W_unready | W_locked | W_drain => false | _ => true end.

Definition exec_list_mutex_free (s : State) : bool :=
  match worker s with W_drain | W_exec => false | _ => true end.

(** [Logger::IsQueueEmpty] and [Logger::IsExecListEmpty]: [None] while the
    mutex is taken. *)
Definition IsQueueEmpty (s : State) : option bool :=
  if queue_mutex_free s then Some (empty (queue_ (logger s))) else None.

Definition IsExecListEmpty (s : State) : option bool :=
  if exec_list_mutex_free s then Some (empty (exec_list_ (logger s))) else None.

(** [cv_.notify_one()]: the worker is the only thread that waits on [cv_];
    a notification that does not find it asleep is lost. *)
Definition notify_one (s : State) : State :=
  match worker s with
  | W_blocked => with_worker W_wait s
  | _ => s
  end.

(** A producer thread runs [Logger::EnqueueTask(t)]: the push and the
    notification, both under [queue_mutex_]. *)
Definition producer_step (t : Task) (s : State) : option State :=
  if queue_mutex_free s then
    Some (notify_one
            {| logger := EnqueueTask t (logger s); worker := worker s;
               flusher := flusher s; closer := closer s; joinable := joinable s;
               enqueued := enqueued s ++ [t]; executed := executed s;
               flush_from := flush_from s; shutdown_from := shutdown_from s;
               shutdown_calls := shutdown_calls s |})
  else None.

(** The call [exec_list_.front()()] of a queued task returns: for a print
    task, the loops of [_CreateLogStr] end within [fuel] rounds.  What
    [fprintf] then writes is the matter of [print_func]; where the C
    library leaves that open the call is still taken to return. *)
Definition returns (P : Platform) (fuel : nat) (t : Task) : bool :=
  match t with
  | print_task d c =>
      match _CreateLogStr P fuel d with
      | Some _ => true
      | None => false
      end
  | close_func _ => true
  end.

(** The thread in [Logger::Flush]. *)
Definition flusher_step (s : State) : option State :=
  match flusher s with
  | F_out | F_returned =>
      (* Flush() is called *)
      Some {| logger := logger s; worker := worker s; flusher := F_notify;
              closer := closer s; joinable := joinable s;
              enqueued := enqueued s; executed := executed s;
              flush_from := length (enqueued s); shutdown_from := shutdown_from s;
              shutdown_calls := shutdown_calls s |}
  | F_notify =>
      (* cv_.notify_one() *)
      Some (with_flusher F_test_queue (notify_one s))
  | F_test_queue =>
      (* while (!IsQueueEmpty() || ...) *)
      match IsQueueEmpty s with
      | Some true => Some (with_flusher F_test_exec s)
      | Some false => Some (with_flusher F_notify s)
      | None => None
      end
  | F_test_exec =>
      (* ... || !IsExecListEmpty()) *)
      match IsExecListEmpty s with
      | Some true => Some (with_flusher F_returned s)
      | Some false => Some (with_flusher F_notify s)
      | None => None
      end
  end.

(** The thread in [Logger::Shutdown]; after a call has returned the next
    step is a further call. *)
Definition closer_step (s : State) : option State :=
  match closer s with
  | S_out | S_returned =>
      (* Shutdown() is called: stop_loop_ = true; *)
      Some {| logger := set_stop_loop (logger s); worker := worker s;
              flusher := flusher s; closer := S_notify; joinable := joinable s;
              enqueued := enqueued s; executed := executed s;
              flush_from := flush_from s; shutdown_from := length (enqueued s);
              shutdown_calls := S (shutdown_calls s) |}
  | S_notify =>
      (* cv_.notify_one(); *)
      Some (with_closer S_join (notify_one s))
  | S_join =>
      (* if (thread_.joinable()) thread_.join(); *)
      if joinable s then
        match worker s with
        | W_exited =>
            Some {| logger := logger s; worker := worker s;
                    flusher := flusher s; closer := S_returned; joinable := false;
                    enqueued := enqueued s; executed := executed s;
                    flush_from := flush_from s; shutdown_from := shutdown_from s;
                    shutdown_calls := shutdown_calls s |}
        | _ => None
        end
      else Some (with_closer S_returned s)
  end.

(** [cv_.wait] may wake without a notification. *)
Definition spurious_step (s : State) : option State :=
  match worker s with
  | W_blocked => Some (with_worker W_wait s)
  | _ => None
  end.

(** Which thread moves next; the worker's step names the rounds the
    loops of [_CreateLogStr] get when the step is the call of a task. *)
Inductive Event :=
  | Producer (t : Task)
  | Worker (fuel : nat)
  | Flusher
  | Closer
  | Spurious.

Section Threads.

Variable P : Platform.

(** The next step of [Logger::ProcessingLoop]; [None] while it is blocked,
    inside a task, or after it has returned. *)
Definition worker_step (fuel : nat) (s : State) : option State :=
  let lg := logger s in
  match worker s with
  | W_wait =>
      (* cv_.wait(queue_lock, [this] { return !queue_.empty() || stop_loop_; }) *)
      if negb (empty (queue_ lg)) || stop_loop_ lg then Some (with_worker W_locked s)
      else Some (with_worker W_unready s)
  | W_unready =>
      (* inside wait: queue_mutex_ is released and the thread sleeps *)
      Some (with_worker W_blocked s)
  | W_blocked => None
  | W_locked =>
      (* std::lock_guard<std::mutex> exec_lock(exec_list_mutex_) *)
      Some (with_worker W_drain s)
  | W_drain =>
      match queue_ lg with
      | t :: q =>
          (* exec_list_.push_back(queue_.front()); queue_.pop(); *)
          Some (with_logger (set_queue q (set_exec_list (exec_list_ lg ++ [t]) lg)) s)
      | [] =>
          (* queue_lock.unlock() *)
          Some (with_worker W_exec s)
      end
  | W_exec =>
      match exec_list_ lg with
      | t :: l =>
          (* exec_list_.front()(); exec_list_.pop_front(); *)
          if returns P fuel t then
            Some {| logger := set_exec_list l lg; worker := W_exec;
                    flusher := flusher s; closer := closer s; joinable := joinable s;
                    enqueued := enqueued s; executed := executed s ++ [t];
                    flush_from := flush_from s; shutdown_from := shutdown_from s;
                    shutdown_calls := shutdown_calls s |}
          else None
      | [] =>
          (* end of the loop body: exec_lock is released *)
          Some (with_worker W_test_stop s)
      end
  | W_test_stop =>
      (* while (!stop_loop_ || ...) *)
      if stop_loop_ lg then Some (with_worker W_test_queue s)
      else Some (with_worker W_wait s)
  | W_test_queue =>
      (* ... || !IsQueueEmpty()) *)
      match IsQueueEmpty s with
      | Some true => Some (with_worker W_exited s)
      | Some false => Some (with_worker W_wait s)
      | None => None
      end
  | W_exited => None
  end.

Definition step (e : Event) (s : State) : option State :=
  match e with
  | Producer t => producer_step t s
  | Worker fuel => worker_step fuel s
  | Flusher => flusher_step s
  | Closer => closer_step s
  | Spurious => spurious_step s
  end.

Fixpoint run (es : list Event) (s : State) : option State :=
  match es with
  | [] => Some s
  | e :: es' =>
      match step e s with
      | Some s' => run es' s'
      | None => None
      end
  end.

End Threads.

(** The logger right after its constructor: the worker has been started. *)
Definition init : State :=
  {| logger := fresh LOG_LEVEL_INFO; worker := W_wait; flusher := F_out;
     closer := S_out; joinable := true; enqueued := []; executed := [];
     flush_from := 0; shutdown_from := 0; shutdown_calls := 0 |}.

Definition reachable (P : Platform) (s : State) : Prop := exists es, run P es init = Some s.

(** Tasks that have left the queue. *)
Definition tasks_out (s : State) : nat :=
  length (executed s) + length (exec_list_ (logger s)).

(** What every reachable state satisfies. *)
Record Inv (s : State) : Prop := {
  inv_log : enqueued s = executed s ++ exec_list_ (logger s) ++ queue_ (logger s);
  inv_exec : exec_list_mutex_free s = true -> exec_list_ (logger s) = [];
  inv_flush_mark : flush_from s <= length (enqueued s);
  inv_flush_exec : flusher s = F_test_exec -> flush_from s <= tasks_out s;
  inv_flush_ret : flusher s = F_returned -> flush_from s <= length (executed s);
  inv_stop : stop_loop_ (logger s) = true -> closer s <> S_out;
  inv_called : closer s <> S_out -> 1 <= shutdown_calls s;
  inv_shut_mark : shutdown_from s <= length (enqueued s);
  inv_leaving : worker s = W_test_queue \/ worker s = W_exited ->
                stop_loop_ (logger s) = true;
  inv_exited : worker s = W_exited -> shutdown_calls s <= 1 ->
               shutdown_from s <= length (executed s);
  inv_unjoinable : joinable s = false -> worker s = W_exited;
  inv_joined : closer s = S_returned -> worker s = W_exited;
  inv_asleep : worker s = W_unready \/ worker s = W_blocked ->
               queue_ (logger s) = []
}.

(** Records to queue. *)
Definition demo_task (n : Z) : Task :=
  print_task {| log_format := lit "%(LINE): %(MSG)"; level := lit "INF";
                color := YETI_LGREEN; filename := lit "main.cc";
                funcname := lit "main"; pid := 42; tid := 1; line := n;
                fd := stderr; msg_id := n; msg := lit "step"; time := 0 |} true.

(** Two pushes, then a [Flush] that first finds the queue filled, the
    worker's round, and the two tests of [Flush]. *)
Definition flush_demo : list Event :=
  [Producer (demo_task 1); Producer (demo_task 2);
   Flusher; Flusher; Flusher;
   Worker 2; Worker 2; Worker 2; Worker 2; Worker 2; Worker 2; Worker 2; Worker 2;
   Flusher; Flusher; Flusher].

(** Two pushes, [Shutdown], the worker's last round and its exit, the
    join. *)
Definition shutdown_demo : list Event :=
  [Producer (demo_task 1); Producer (demo_task 2);
   Closer; Closer;
   Worker 2; Worker 2; Worker 2; Worker 2; Worker 2; Worker 2; Worker 2; Worker 2;
   Worker 2; Worker 2;
   Closer].

(** After that, a push and [Shutdown] once more. *)
Definition shutdown_twice : list Event :=
  shutdown_demo ++ [Producer (demo_task 3); Closer; Closer; Closer].

(** The states the runs end in. *)
Definition flush_demo_end : State :=
  {| logger := fresh LOG_LEVEL_INFO; worker := W_test_stop; flusher := F_returned;
     closer := S_out; joinable := true; enqueued := [demo_task 1; demo_task 2];
     executed := [demo_task 1; demo_task 2]; flush_from := 2; shutdown_from := 0;
     shutdown_calls := 0 |}.

Definition shutdown_demo_end : State :=
  {| logger := set_stop_loop (fresh LOG_LEVEL_INFO); worker := W_exited;
     flusher := F_out; closer := S_returned; joinable := false;
     enqueued := [demo_task 1; demo_task 2];
     executed := [demo_task 1; demo_task 2]; flush_from := 0; shutdown_from := 2;
     shutdown_calls := 1 |}.

Definition shutdown_twice_end : State :=
  {| logger := EnqueueTask (demo_task 3) (set_stop_loop (fresh LOG_LEVEL_INFO));
     worker := W_exited; flusher := F_out; closer := S_returned; joinable := false;
     enqueued := [demo_task 1; demo_task 2; demo_task 3];
     executed := [demo_task 1; demo_task 2]; flush_from := 0; shutdown_from := 3;
     shutdown_calls := 2 |}.

End Pipeline.

(** ** More of the logger: closing a stream, what a record carries *)

Module LoggerMore.

(** [Logger::CloseFileDesc]; [None] is [nullptr]. *)
Definition CloseFileDesc (fd : option FILE) (lg : Logger) : Logger :=
  let fd := match fd with None => fd_ lg | Some f => f end in
  match fd with
  | stderr | stdout | stdin => lg
  | file _ => EnqueueTask (close_func fd) lg
  end.

(** [Logger::SetFormatStr] *)
Definition SetFormatStr (format_str : str) (lg : Logger) : Logger :=
  {| stop_loop_ := stop_loop_ lg; is_colored_ := is_colored_ lg; level_ := level_ lg;
     msg_id_ := msg_id_ lg; format_str_ := format_str; fd_ := fd_ lg;
     queue_ := queue_ lg; exec_list_ := exec_list_ lg |}.

(** The level text and the colour each macro writes into its record. *)
Definition tag (l : LogLevel) : str :=
  match l with
  | LOG_LEVEL_CRITICAL => lit "CRT"
  | LOG_LEVEL_ERROR => lit "ERR"
  | LOG_LEVEL_WARNING => lit "WRN"
  | LOG_LEVEL_INFO => lit "INF"
  | LOG_LEVEL_DEBUG => lit "DBG"
  | LOG_LEVEL_TRACE => lit "TRC"
  end.

Definition colour (l : LogLevel) : str :=
  match l with
  | LOG_LEVEL_CRITICAL => YETI_LRED
  | LOG_LEVEL_ERROR => YETI_LPURPLE
  | LOG_LEVEL_WARNING => YETI_YELLOW
  | LOG_LEVEL_INFO => YETI_LGREEN
  | LOG_LEVEL_DEBUG => YETI_WHITE
  | LOG_LEVEL_TRACE => []
  end.

(** The record a call at [cs] hands to the queue of [lg]. *)
Definition stamped (l : LogLevel) (cs : CallSite) (lg : Logger) : LogData :=
  {| log_format := format_str_ lg; level := tag l; color := colour l;
     filename := cs_file cs; funcname := cs_func cs;
     pid := cs_pid cs; tid := cs_tid cs; line := cs_line cs;
     fd := fd_ lg; msg_id := msg_id_ lg; msg := yeti_msg cs; time := cs_now cs |}.

End LoggerMore.

(** ** More of the format engine: values that hold tokens *)

Module FormatMore.

(** The place of a token in the order of the texts. *)
Definition token_rank (t : token) : nat :=
  match t with
  | DATE => 0 | FILENAME => 1 | FUNCNAME => 2 | LEVEL => 3 | LINE => 4
  | MSG => 5 | MSG_ID => 6 | PID => 7 | TID => 8 | TIME => 9
  end.

(** The four tokens that get an entry whatever the template. *)
Definition always (t : token) : Prop :=
  t = FILENAME \/ t = FUNCNAME \/ t = LEVEL \/ t = MSG.

(** The keys of the table go up. *)
Definition key_lt (a b : str * str) : Prop := str_ltb (fst a) (fst b) = true.

(** What the loop of token [t] makes of a template when the value of
    [t] is itself cut into pieces [w]. *)
Definition graft_piece (t : token) (w : list piece) (p : piece) : list piece :=
  match p with
  | Chr _ => [p]
  | Tok t' => if token_eq_dec t t' then w else [p]
  end.

Definition graft (t : token) (w : list piece) (ps : list piece) : list piece :=
  flat_map (graft_piece t w) ps.

(** A piece after the loops of the tokens [ts], the values being the
    pieces [w]. *)
Definition grafted (w : token -> list piece) (ts : list token) (p : piece) : str :=
  match p with
  | Chr c => [c]
  | Tok t => if in_dec token_eq_dec t ts then render (w t) else token_text t
  end.

(** A value fit for the loop of [t] among the tokens [T] of the table:
    pieces whose every token comes before [t] or has no entry. *)
Definition fits (T : list token) (w : token -> list piece) (t : token) : Prop :=
  Forall plain_piece (w t)
  /\ forall t', In (Tok t') (w t) -> token_rank t' < token_rank t \/ ~ In t' T.

End FormatMore.

(** ** Values and template text that cannot start a token *)

Module Apart.

(** The two texts differ at a position both have: neither is a leading
    part of the other. *)
Fixpoint clash (k s : str) : bool :=
  match k, s with
  | a :: k', b :: s' => if Ascii.eqb a b then clash k' s' else true
  | _, _ => false
  end.

(** The non-empty tails of a text. *)
Fixpoint tails (v : str) : list str :=
  match v with
  | [] => []
  | _ :: v' => v :: tails v'
  end.

(** [v] neither holds [k] nor ends with a beginning of [k]: wherever in
    [v] one starts to read, one meets, inside [v], a character that is not
    that of [k]. *)
Definition apart (k v : str) : bool := forallb (clash k) (tails v).

(** The characters of a template up to its next token. *)
Fixpoint chars_run (ps : list piece) : str :=
  match ps with
  | Chr c :: r => c :: chars_run r
  | _ => []
  end.

(** The text between the tokens of a template neither holds [k] nor ends
    with a beginning of [k]. *)
Fixpoint dead (k : str) (ps : list piece) : bool :=
  match ps with
  | [] => true
  | Chr c :: r => clash k (c :: chars_run r) && dead k r
  | Tok _ :: r => dead k r
  end.

(** A template with a token whose value is to hold ['%'] and token texts,
    and with a placeholder that is none of the ten. *)
Definition mixed_template : list piece :=
  [Tok MSG; Chr " "; Chr "["; Tok LEVEL; Chr "]"; Chr " "; Chr "%"; Chr "(";
   Chr "F"; Chr "O"; Chr "O"; Chr ")"].

End Apart.

Module Percent.

(** How many ['%'] a text holds. *)
Definition percents (s : str) : nat := count_occ ascii_dec s percent.

End Percent.

(** ** More of the print task *)

Module PrintMore.

(** Free of the two characters [fprintf] and [c_str] react to. *)
Definition clean (s : str) : Prop := ~ In percent s /\ ~ In NUL s.

(** The template the constructor sets. *)
Definition constructor_format : str := lit "[%(LEVEL)] %(FILENAME): %(LINE): %(MSG)".

(** The test a macro makes before it builds its record; CRT makes none. *)
Definition passes (value : LogLevel -> Z) (l : LogLevel) (lg : Logger) : bool :=
  match l with
  | LOG_LEVEL_CRITICAL => true
  | _ => (value (level_ lg) >=? value l)%Z
  end.

(** A record under a template with a NUL in it. *)
Definition nul_record : LogData :=
  {| log_format := lit "head" ++ NUL :: lit " %(MSG)"; level := lit "INF";
     color := []; filename := []; funcname := []; pid := 1; tid := 1; line := 1;
     fd := file 3; msg_id := 0; msg := lit "tail"; time := 0 |}.

End PrintMore.

(** ** More of the message ids: calls that do not overlap *)

Module MsgIdMore.

Import MsgId.

(** A schedule in which no two macro calls overlap: each thread of [ts]
    in turn reads the id and increments at once. *)
Definition one_by_one (ts : list nat) : list nat := flat_map (fun t => [t; t]) ts.

(** The numbers [k], [k+1], ... *)
Fixpoint from (k : Z) (n : nat) : list Z :=
  match n with
  | O => []
  | S n' => k :: from (k + 1) n'
  end.

End MsgIdMore.

(** ** More of the queue and the worker *)

Module PipelineMore.

Import Pipeline.

(** Where a [Flush] that cannot return stands. *)
Definition polling (f : FlushPc) : Prop :=
  f = F_out \/ f = F_notify \/ f = F_test_queue.

(** A push after the worker has left. *)
Definition late_push : State :=
  {| logger := EnqueueTask (demo_task 3) (set_stop_loop (fresh LOG_LEVEL_INFO));
     worker := W_exited; flusher := F_out; closer := S_returned; joinable := false;
     enqueued := [demo_task 1; demo_task 2; demo_task 3];
     executed := [demo_task 1; demo_task 2]; flush_from := 0; shutdown_from := 2;
     shutdown_calls := 1 |}.

End PipelineMore.

Module Progress.

Import Pipeline.

(** The worker alone takes steps, one for each of [fuels]. *)
Definition worker_runs (P : Platform) (fuels : list nat) (s : State) : option State :=
  run P (map Worker fuels) s.

(** The call of a task returns after it has done what it is for: a print
    task has written its line, [fprintf] having been handed a format it
    can write without arguments. *)
Definition completes (P : Platform) (fuel : nat) (t : Task) : bool :=
  match t with
  | print_task d c =>
      match print_func P fuel d c with
      | Done _ => true
      | OutOfFuel | Undefined => false
      end
  | close_func _ => true
  end.

(** That holds of every task that waits in the execution list or in the
    queue. *)
Definition pending_complete (P : Platform) (s : State) : Prop :=
  forall t, In t (exec_list_ (logger s) ++ queue_ (logger s)) ->
            exists fuel, completes P fuel t = true.

(** Everything pushed has been run and nothing is pending. *)
Definition settled (s0 s : State) : Prop :=
  executed s = executed s0 ++ exec_list_ (logger s0) ++ queue_ (logger s0)
  /\ exec_list_ (logger s) = [] /\ queue_ (logger s) = []
  /\ enqueued s = enqueued s0.

(** A push, the worker's start of a round, and a push during the round. *)
Definition busy_run : list Event :=
  [Producer (demo_task 1); Worker 0; Worker 0; Worker 0; Worker 0; Producer (demo_task 2)].

Definition busy : State :=
  {| logger := EnqueueTask (demo_task 2)
                 (set_exec_list [demo_task 1] (fresh LOG_LEVEL_INFO));
     worker := W_exec; flusher := F_out; closer := S_out; joinable := true;
     enqueued := [demo_task 1; demo_task 2]; executed := [];
     flush_from := 0; shutdown_from := 0; shutdown_calls := 0 |}.

(** A record whose message is the token of the message, under the
    template that is that token: its print task does not return. *)
Definition hang_task : Task := print_task (demo_record "%(MSG)" "%(MSG)") false.

(** The worker about to call that task, a second task behind it. *)
Definition stuck : State :=
  {| logger := set_exec_list [hang_task; demo_task 2] (fresh LOG_LEVEL_INFO);
     worker := W_exec; flusher := F_out; closer := S_out; joinable := true;
     enqueued := [hang_task; demo_task 2]; executed := [];
     flush_from := 0; shutdown_from := 0; shutdown_calls := 0 |}.

Definition stuck_run : list Event :=
  [Producer hang_task; Producer (demo_task 2);
   Worker 0; Worker 0; Worker 0; Worker 0; Worker 0].

(** [Shutdown] sets the flag and notifies between the worker's test of
    the predicate and its falling asleep. *)
Definition lost_wakeup_run : list Event :=
  [Worker 0; Closer; Closer; Worker 0].

Definition lost_wakeup : State :=
  {| logger := set_stop_loop (fresh LOG_LEVEL_INFO);
     worker := W_blocked; flusher := F_out; closer := S_join; joinable := true;
     enqueued := []; executed := [];
     flush_from := 0; shutdown_from := 0; shutdown_calls := 1 |}.

End Progress.

(** ** The signal handlers: [RegSignal], [RegAllSignals] and the flag of
       [Logger::instance] *)

Module Signals.

(** A [__sighandler_t]: the null pointer or the address of a handler. *)
Definition handler := option nat.

(** The address of [SimpleSignalHandler]. *)
Definition SimpleSignalHandler_addr : nat := 0.

(** The dispositions the system keeps per signal number, the map
    [g_old_handlers] (a key never written reads as [nullptr]), and the
    flag [is_registered] of [Logger::instance]. *)
Record SigState := {
  disposition : Z -> handler;
  g_old_handlers : Z -> handler;
  is_registered : bool
}.

Definition upd (f : Z -> handler) (k : Z) (h : handler) : Z -> handler :=
  fun j => if Z.eqb j k then h else f j.

(** [RegSignal]: [signal(sig_num, SimpleSignalHandler)] installs the
    handler and returns the one it replaces. *)
Definition RegSignal (sig_num : Z) (st : SigState) : SigState :=
  let old_handler := disposition st sig_num in
  let st := {| disposition := upd (disposition st) sig_num (Some SimpleSignalHandler_addr);
               g_old_handlers := g_old_handlers st;
               is_registered := is_registered st |} in
  match old_handler with
  | Some _ =>
      {| disposition := disposition st;
         g_old_handlers := upd (g_old_handlers st) sig_num old_handler;
         is_registered := is_registered st |}
  | None => st
  end.

(** [RegAllSignals], [names] being the keys of [SIGNAME] in their
    order. *)
Definition RegAllSignals (names : list Z) (st : SigState) : SigState :=
  fold_left (fun st sig_num => RegSignal sig_num st) names st.

(** The part of [Logger::instance] that runs once:
    [if (!is_registered.exchange(true)) RegAllSignals();] *)
Definition instance (names : list Z) (st : SigState) : SigState :=
  if is_registered st then st
  else RegAllSignals names
         {| disposition := disposition st; g_old_handlers := g_old_handlers st;
            is_registered := true |}.

(** The handler [SimpleSignalHandler] calls last, if any:
    [if (g_old_handlers[sig_num]) g_old_handlers[sig_num](sig_num);] *)
Definition chained (sig_num : Z) (st : SigState) : handler := g_old_handlers st sig_num.

(** The process before the logger is first used. *)
Definition at_start (disp : Z -> handler) : SigState :=
  {| disposition := disp; g_old_handlers := fun _ => None; is_registered := false |}.

Fixpoint calls (n : nat) (names : list Z) (st : SigState) : SigState :=
  match n with
  | O => st
  | S n' => calls n' names (instance names st)
  end.

End Signals.

(** * Properties *)

(** ** [find] and [replace] *)

Module StrFacts.

Lemma prefixb_app (n post : str) : prefixb n (n ++ post) = true.
Proof.
  induction n as [|a n IH]; simpl; [reflexivity|].
  now rewrite Ascii.eqb_refl, IH.
Qed.

Lemma prefixb_true (n h : str) :
  prefixb n h = true -> exists post, h = n ++ post.
Proof.
  revert h; induction n as [|a n IH]; intros h H.
  - now exists h.
  - destruct h as [|b h]; simpl in H; [discriminate|].
    apply andb_true_iff in H as [Hab Hp].
    apply Ascii.eqb_eq in Hab; subst b.
    destruct (IH _ Hp) as [post ->].
    now exists post.
Qed.

Lemma prefixb_false (n h post : str) : prefixb n h = false -> h <> n ++ post.
Proof.
  intros H ->. now rewrite prefixb_app in H.
Qed.

(** [find] returns the start of an occurrence, and the leftmost one. *)
Lemma find_Some (n h : str) (p : nat) :
  find n h = Some p ->
  exists pre post, h = pre ++ n ++ post /\ length pre = p
    /\ forall pre' post', h = pre' ++ n ++ post' -> p <= length pre'.
Proof.
  revert p; induction h as [|c h IH]; intros p H; simpl in H.
  - destruct (prefixb n []) eqn:E; [|discriminate].
    injection H as <-.
    destruct (prefixb_true _ _ E) as [post Hp].
    exists [], post; repeat split; auto; intros; lia.
  - destruct (prefixb n (c :: h)) eqn:E.
    + injection H as <-.
      destruct (prefixb_true _ _ E) as [post Hp].
      exists [], post; repeat split; auto; intros; lia.
    + destruct (find n h) as [q|] eqn:F; [|discriminate].
      injection H as <-.
      destruct (IH q eq_refl) as (pre & post & Hh & Hl & Hmin).
      exists (c :: pre), post; repeat split.
      * now rewrite Hh.
      * simpl; now rewrite Hl.
      * intros pre' post' Hd.
        destruct pre' as [|c' pre'].
        -- exfalso. simpl in Hd. now apply prefixb_false with (post := post') in E.
        -- injection Hd as _ Hd. simpl. apply le_n_S. eapply Hmin; eauto.
Qed.

Lemma find_None (n h : str) : find n h = None -> ~ occurs n h.
Proof.
  induction h as [|c h IH]; intros H (pre & post & Hd); simpl in H.
  - destruct (prefixb n []) eqn:E; [discriminate|].
    destruct pre; [|discriminate]. now apply prefixb_false with (post := post) in E.
  - destruct (prefixb n (c :: h)) eqn:E; [discriminate|].
    destruct (find n h) eqn:F; [discriminate|].
    destruct pre as [|c' pre].
    + now apply prefixb_false with (post := post) in E.
    + injection Hd as _ Hd. apply IH; [reflexivity|]. now exists pre, post.
Qed.

Lemma find_occurs (n h : str) : occurs n h -> exists p, find n h = Some p.
Proof.
  intros H. destruct (find n h) as [p|] eqn:F; [now exists p|].
  now apply find_None in F.
Qed.

Lemma occurs_find (n h : str) (p : nat) : find n h = Some p -> occurs n h.
Proof.
  intros H. destruct (find_Some _ _ _ H) as (pre & post & Hd & _). now exists pre, post.
Qed.

Lemma replace_at (pre n post val : str) :
  replace (length pre) (length n) val (pre ++ n ++ post) = pre ++ val ++ post.
Proof.
  unfold replace.
  rewrite firstn_app, firstn_all, Nat.sub_diag, firstn_O, app_nil_r.
  rewrite skipn_app.
  rewrite (skipn_all2 pre) by lia.
  replace (length pre + length n - length pre) with (length n) by lia.
  rewrite skipn_app, skipn_all, Nat.sub_diag, skipn_O. reflexivity.
Qed.

(** A step of the substitution loop, seen on the decomposition [find]
    gives. *)
Lemma find_replace (n h val : str) (p : nat) :
  find n h = Some p ->
  exists pre post, h = pre ++ n ++ post /\ length pre = p
    /\ replace p (length n) val h = pre ++ val ++ post.
Proof.
  intros H. destruct (find_Some _ _ _ H) as (pre & post & Hd & Hl & _).
  exists pre, post; repeat split; auto.
  subst p. rewrite Hd at 1. apply replace_at.
Qed.

End StrFacts.

Import StrFacts.

(** ** Placeholders do not overlap *)

Module Shape.

Lemma token_shaped (t : token) : shaped (token_text t).
Proof.
  destruct t;
    match goal with
    | |- shaped (token_text ?t) => exists (removelast (tl (token_text t)))
    end;
    (split; [reflexivity|]; split; cbv; intuition discriminate).
Qed.

Lemma unrecognized_shaped (u : str) : unrecognized u -> shaped u.
Proof.
  intros [(name & -> & Hp & Hr) _].
  exists ("("%char :: name); repeat split.
  - intros [H|H]; [discriminate|auto].
  - intros [H|H]; [discriminate|auto].
Qed.

Lemma token_text_inj (t t' : token) : token_text t = token_text t' -> t = t'.
Proof.
  destruct t, t'; intros H; try reflexivity; cbv in H; discriminate.
Qed.

Lemma shaped_nonempty (x : str) : shaped x -> x <> [].
Proof. intros (body & -> & _). discriminate. Qed.

Lemma shaped_head (x y : str) (c : ascii) : shaped x -> x = c :: y -> c = percent.
Proof. intros (body & -> & _) H. now injection H. Qed.

(** No ['%'] past the first character. *)
Lemma shaped_inner (x l l2 : str) (c d : ascii) :
  shaped x -> x = (c :: l) ++ d :: l2 -> d <> percent.
Proof.
  intros (body & -> & Hp & _) H Hd. subst d.
  simpl in H. injection H as _ H.
  assert (Hin : In percent (body ++ [rparen])) by (rewrite H; apply in_elt).
  apply in_app_or in Hin as [Hin|[Hin|[]]]; [auto|discriminate].
Qed.

(** A placeholder is no proper prefix of another. *)
Lemma shaped_prefix (x y l : str) : shaped x -> shaped y -> y = x ++ l -> l = [].
Proof.
  intros (bx & -> & _ & _) (by_ & -> & _ & Hr) H.
  destruct l as [|c l] using rev_ind; [reflexivity|]. clear IHl. exfalso.
  simpl in H. injection H as H.
  rewrite <- app_assoc in H. simpl in H.
  change (by_ ++ [rparen] = bx ++ (rparen :: l) ++ [c]) in H.
  rewrite app_assoc in H. apply app_inj_tail in H as [H _].
  apply Hr. rewrite H. apply in_elt.
Qed.

(** Two placeholders inside one text: the same occurrence, or one wholly
    before the other. *)
Lemma shaped_apart_right (x y b l q : str) :
  shaped x -> shaped y -> x ++ b = l ++ y ++ q ->
  (l = [] /\ x = y /\ b = q) \/ (exists m, l = x ++ m /\ b = m ++ y ++ q).
Proof.
  intros Hx Hy H.
  apply app_eq_app in H as [l2 [[H1 H2]|[H1 H2]]].
  - (* x = l ++ l2 *)
    destruct l as [|c l].
    + simpl in H1. subst l2.
      apply app_eq_app in H2 as [l3 [[H3 H4]|[H3 H4]]].
      * assert (l3 = []) by (eapply shaped_prefix; [exact Hx|exact Hy|eauto]). subst l3.
        rewrite app_nil_r in H3. subst. left; auto.
      * assert (l3 = []) by (eapply shaped_prefix; [exact Hy|exact Hx|eauto]). subst l3.
        rewrite app_nil_r in H3. subst. left; auto.
    + destruct l2 as [|d l2].
      * rewrite app_nil_r in H1. subst x. simpl in H2. subst b.
        right. exists []. now rewrite app_nil_r.
      * exfalso.
        assert (d <> percent) by (eapply shaped_inner; [exact Hx|exact H1]).
        destruct Hy as (by_ & -> & _). simpl in H2. injection H2 as H2 _. auto.
  - (* l = x ++ l2 *) right. now exists l2.
Qed.

Lemma shaped_apart (x y a b p q : str) :
  shaped x -> shaped y -> a ++ x ++ b = p ++ y ++ q ->
  (a = p /\ x = y /\ b = q)
  \/ (exists m, p = a ++ x ++ m /\ b = m ++ y ++ q)
  \/ (exists m, a = p ++ y ++ m /\ q = m ++ x ++ b).
Proof.
  intros Hx Hy H.
  apply app_eq_app in H as [l [[H1 H2]|[H1 H2]]].
  - (* a = p ++ l *)
    destruct (@shaped_apart_right _ _ _ _ _ Hy Hx H2) as [(-> & -> & ->)|(m & -> & ->)].
    + left. rewrite app_nil_r in H1. auto.
    + right; right. exists m. auto.
  - (* p = a ++ l *)
    destruct (@shaped_apart_right _ _ _ _ _ Hx Hy H2) as [(-> & -> & ->)|(m & -> & ->)].
    + left. rewrite app_nil_r in H1. auto.
    + right; left. exists m. auto.
Qed.

End Shape.

Import Shape.

(** ** The substitution loop *)

Module FormatFacts.

Import FormatMore Apart.

Lemma build_subs_eq (P : Platform) (d : LogData) :
  build_subs P d
  = map (fun t => (token_text t, token_value P d t)) (filter (in_subs d) all_tokens).
Proof.
  unfold build_subs, set_if_found, all_tokens, in_subs.
  cbn [filter token_text].
  destruct (find (lit "%(PID)") (log_format d));
  destruct (find (lit "%(TID)") (log_format d));
  destruct (find (lit "%(DATE)") (log_format d));
  destruct (find (lit "%(TIME)") (log_format d));
  destruct (find (lit "%(LINE)") (log_format d));
  destruct (find (lit "%(MSG_ID)") (log_format d)); reflexivity.
Qed.

Lemma replace_loop_absent (fuel : nat) (k v s : str) :
  find k s = None -> replace_loop fuel k v s = Some s.
Proof. intros H. destruct fuel; simpl; now rewrite H. Qed.

Lemma replace_loop_det (k v : str) (f f' : nat) (s r r' : str) :
  replace_loop f k v s = Some r -> replace_loop f' k v s = Some r' -> r = r'.
Proof.
  revert f' s; induction f as [|f IH]; intros f' s H H'.
  - simpl in H. destruct (find k s) eqn:E; [discriminate|].
    rewrite (replace_loop_absent f' k v s E) in H'. congruence.
  - simpl in H. destruct (find k s) as [p|] eqn:E.
    + destruct f' as [|f']; simpl in H'; rewrite E in H'; [discriminate|].
      eapply IH; eauto.
    + rewrite (replace_loop_absent f' k v s E) in H'. congruence.
Qed.

(** When the loop of a key ends, the key is gone from the text. *)
Lemma replace_loop_clears (k v : str) (fuel : nat) (s r : str) :
  replace_loop fuel k v s = Some r -> ~ occurs k r.
Proof.
  revert s; induction fuel as [|fuel IH]; intros s H; simpl in H.
  - destruct (find k s) eqn:E; [discriminate|].
    injection H as <-. now apply find_None.
  - destruct (find k s) as [p|] eqn:E.
    + eapply IH; eauto.
    + injection H as <-. now apply find_None.
Qed.

(** More fuel does not change a result. *)
Lemma replace_loop_more_fuel (k v : str) (f f' : nat) (s r : str) :
  f <= f' -> replace_loop f k v s = Some r -> replace_loop f' k v s = Some r.
Proof.
  revert f' s; induction f as [|f IH]; intros f' s Hle H; simpl in H.
  - destruct (find k s) eqn:E; [discriminate|].
    now rewrite replace_loop_absent.
  - destruct (find k s) as [p|] eqn:E.
    + destruct f' as [|f']; [lia|]. simpl. rewrite E. apply IH; [lia|exact H].
    + now rewrite replace_loop_absent.
Qed.

Lemma subst_entries_det (subs : subs_t) (f f' : nat) (s r r' : str) :
  subst_entries f subs s = Some r -> subst_entries f' subs s = Some r' -> r = r'.
Proof.
  revert s; induction subs as [|[k v] subs IH]; intros s H H'; simpl in *.
  - congruence.
  - destruct (replace_loop f k v s) as [s1|] eqn:E; [|discriminate].
    destruct (replace_loop f' k v s) as [s2|] eqn:E'; [|discriminate].
    assert (s1 = s2) by (eapply replace_loop_det; eauto). subst s2.
    eapply IH; eauto.
Qed.

(** A value that holds its own key keeps the loop going for ever. *)
Lemma replace_loop_diverges (k v : str) :
  occurs k v -> forall fuel s, occurs k s -> replace_loop fuel k v s = None.
Proof.
  intros (a & b & Hv) fuel; induction fuel as [|fuel IH]; intros s Hs.
  - destruct (find_occurs _ _ Hs) as [p E]. simpl. now rewrite E.
  - destruct (find_occurs _ _ Hs) as [p E]. simpl. rewrite E.
    destruct (find_replace _ _ v _ E) as (pre & post & _ & _ & ->).
    apply IH. exists (pre ++ a), (b ++ post). rewrite Hv.
    now rewrite <- !app_assoc.
Qed.

(** Replacing one placeholder leaves the occurrences of another in
    place. *)
Lemma replace_keeps (u k v s : str) (p : nat) :
  shaped u -> shaped k -> u <> k -> occurs u s -> find k s = Some p ->
  occurs u (replace p (length k) v s).
Proof.
  intros Hu Hk Hne (a & b & Hs) E.
  destruct (find_replace _ _ v _ E) as (pre & post & Hd & _ & ->).
  rewrite Hs in Hd.
  destruct (shaped_apart _ _ _ _ _ _ Hu Hk Hd) as [(_ & ? & _)|[(m & -> & ->)|(m & -> & ->)]].
  - contradiction.
  - exists a, (m ++ v ++ post). now rewrite <- !app_assoc.
  - exists (pre ++ v ++ m), b. now rewrite <- !app_assoc.
Qed.

Lemma replace_loop_keeps (u k v : str) :
  shaped u -> shaped k -> u <> k ->
  forall fuel s r, occurs u s -> replace_loop fuel k v s = Some r -> occurs u r.
Proof.
  intros Hu Hk Hne fuel; induction fuel as [|fuel IH]; intros s r Hs H; simpl in H.
  - destruct (find k s); [discriminate|]. congruence.
  - destruct (find k s) as [p|] eqn:E; [|congruence].
    eapply IH; [|exact H]. eapply replace_keeps; eauto.
Qed.


Lemma build_subs_entries (P : Platform) (d : LogData) (k v : str) :
  In (k, v) (build_subs P d) ->
  exists t, k = token_text t /\ v = token_value P d t /\ in_subs d t = true.
Proof.
  rewrite build_subs_eq. intros H.
  apply in_map_iff in H as (t & Ht & Hin).
  apply filter_In in Hin as [_ Hin].
  exists t. injection Ht as <- <-. auto.
Qed.

Lemma subst_entries_absent (fuel : nat) (subs : subs_t) (s : str) :
  (forall k v, In (k, v) subs -> find k s = None) ->
  subst_entries fuel subs s = Some s.
Proof.
  induction subs as [|[k v] subs IH]; intros H; simpl; [reflexivity|].
  rewrite replace_loop_absent by (eapply H; left; reflexivity).
  apply IH. intros k' v' Hin. eapply H. right. exact Hin.
Qed.

Lemma subst_entries_keeps (u : str) (fuel : nat) (subs : subs_t) :
  shaped u ->
  (forall k v, In (k, v) subs -> shaped k /\ u <> k) ->
  forall s r, occurs u s -> subst_entries fuel subs s = Some r -> occurs u r.
Proof.
  intros Hu; induction subs as [|[k v] subs IH]; intros Hk s r Hs H; simpl in H.
  - congruence.
  - destruct (replace_loop fuel k v s) as [s1|] eqn:E; [|discriminate].
    destruct (Hk k v (or_introl eq_refl)) as [Hsk Hne].
    eapply IH; [| |exact H].
    + intros k' v' Hin. apply (Hk k' v'). now right.
    + eapply replace_loop_keeps; eauto.
Qed.

Lemma render_app (a b : list piece) : render (a ++ b) = render a ++ render b.
Proof. unfold render. now rewrite map_app, concat_app. Qed.

Lemma render_cons (p : piece) (ps : list piece) : render (p :: ps) = piece_text p ++ render ps.
Proof. reflexivity. Qed.

Lemma render_chars (v : str) : render (map Chr v) = v.
Proof. induction v as [|c v IH]; [reflexivity|]. rewrite map_cons, render_cons, IH. reflexivity. Qed.

Lemma subst_tok_app (t : token) (v : str) (a b : list piece) :
  subst_tok t v (a ++ b) = subst_tok t v a ++ subst_tok t v b.
Proof. apply flat_map_app. Qed.

Lemma subst_tok_chars (t : token) (v w : str) : subst_tok t v (map Chr w) = map Chr w.
Proof. induction w as [|c w IH]; [reflexivity|]. simpl. now rewrite IH. Qed.

Lemma subst_tok_here (t : token) (v : str) (ps : list piece) :
  subst_tok t v (Tok t :: ps) = map Chr v ++ subst_tok t v ps.
Proof.
  unfold subst_tok. simpl. destruct (token_eq_dec t t); [reflexivity|contradiction].
Qed.

Lemma subst_tok_absent (t : token) (v : str) (ps : list piece) :
  ~ In (Tok t) ps -> subst_tok t v ps = ps.
Proof.
  induction ps as [|p ps IH]; intros H; [reflexivity|].
  unfold subst_tok in *. simpl.
  rewrite IH by (intros H'; apply H; now right).
  destruct p as [c|t']; [reflexivity|]. simpl.
  destruct (token_eq_dec t t') as [->|]; [|reflexivity].
  exfalso. apply H. now left.
Qed.

Lemma subst_tok_In (t t' : token) (v : str) (ps : list piece) :
  In (Tok t') (subst_tok t v ps) -> In (Tok t') ps.
Proof.
  unfold subst_tok. rewrite in_flat_map. intros (p & Hp & Hin).
  destruct p as [c|t'']; simpl in Hin.
  - destruct Hin as [<-|[]]. exact Hp.
  - destruct (token_eq_dec t t'').
    + apply in_map_iff in Hin as (c & Hc & _). discriminate.
    + destruct Hin as [<-|[]]. exact Hp.
Qed.

Lemma count_chars (t : token) (v : str) : count t (map Chr v) = 0.
Proof.
  unfold count. induction v as [|c v IH]; [reflexivity|]. simpl.
  destruct (piece_eq_dec (Chr c) (Tok t)); [discriminate|exact IH].
Qed.

Lemma count_subst_tok (t t' : token) (v : str) (ps : list piece) :
  count t' (subst_tok t v ps) <= count t' ps.
Proof.
  induction ps as [|p ps IH]; [apply Nat.le_refl|].
  change (p :: ps) with ([p] ++ ps).
  rewrite subst_tok_app. unfold count in *. rewrite !count_occ_app.
  apply Nat.add_le_mono; [|exact IH].
  destruct p as [c|t'']; [apply Nat.le_refl|].
  unfold subst_tok. simpl. destruct (token_eq_dec t t''); [|apply Nat.le_refl].
  rewrite app_nil_r. fold (count t' (map Chr v)). rewrite count_chars. lia.
Qed.

Lemma plain_chars (v : str) : ~ In percent v -> Forall plain_piece (map Chr v).
Proof.
  intros H. apply Forall_forall. intros p Hp.
  apply in_map_iff in Hp as (c & <- & Hc). simpl. intros ->. auto.
Qed.

Lemma In_tok_occurs (t : token) (ps : list piece) :
  In (Tok t) ps -> occurs (token_text t) (render ps).
Proof.
  intros H. apply in_split in H as (a & b & ->).
  exists (render a), (render b). now rewrite render_app, render_cons.
Qed.

(** In a template of plain characters and tokens, an occurrence of a
    token's text is one of the token pieces. *)
Lemma occurrence_aligned (t : token) (ps : list piece) (a b : str) :
  Forall plain_piece ps -> render ps = a ++ token_text t ++ b ->
  exists pre post, ps = pre ++ Tok t :: post /\ a = render pre /\ b = render post.
Proof.
  revert a; induction ps as [|p ps IH]; intros a Hps H.
  - exfalso. destruct a; [|discriminate].
    destruct (token_shaped t) as (body & E & _). rewrite E in H. discriminate.
  - apply Forall_cons_iff in Hps as [Hp Hps].
    rewrite render_cons in H. destruct p as [c|t'].
    + simpl in H, Hp. destruct a as [|c' a].
      * exfalso. destruct (token_shaped t) as (body & E & _). rewrite E in H.
        simpl in H. injection H as H _. auto.
      * simpl in H. injection H as <- H.
        destruct (IH a Hps H) as (pre & post & -> & -> & ->).
        exists (Chr c :: pre), post. auto.
    + change (piece_text (Tok t')) with (token_text t') in H.
      change (token_text t' ++ render ps) with ([] ++ token_text t' ++ render ps) in H.
      destruct (shaped_apart _ _ _ _ _ _ (token_shaped t') (token_shaped t) H)
        as [(<- & E & <-)|[(m & -> & Hm)|(m & Hm & _)]].
      * apply token_text_inj in E. subst t'. exists [], ps. auto.
      * destruct (IH m Hps Hm) as (pre & post & -> & -> & ->).
        exists (Tok t' :: pre), post. auto.
      * exfalso. destruct a; [|discriminate].
        destruct (token_shaped t) as (body & E & _). rewrite E in Hm. discriminate.
Qed.

Lemma replace_loop_step (f : nat) (k v s : str) (p : nat) :
  find k s = Some p ->
  replace_loop (S f) k v s = replace_loop f k v (replace p (length k) v s).
Proof. intros H. simpl. now rewrite H. Qed.

Lemma expand_in_chars (val : token -> str) (ts : list token) (v : str) :
  concat (map (expand_in val ts) (map Chr v)) = v.
Proof. induction v as [|c v IH]; [reflexivity|]. simpl. now rewrite IH. Qed.

Lemma render_subst_toks (val : token -> str) (ts : list token) (ps : list piece) :
  render (subst_toks val ts ps) = concat (map (expand_in val ts) ps).
Proof.
  revert ps; induction ts as [|t ts IH]; intros ps.
  - reflexivity.
  - simpl. rewrite IH. clear IH.
    induction ps as [|p ps IHp]; [reflexivity|].
    change (p :: ps) with ([p] ++ ps).
    rewrite subst_tok_app, !map_app, !concat_app, IHp. f_equal.
    destruct p as [c|t']; [reflexivity|].
    unfold subst_tok. simpl. rewrite !app_nil_r.
    destruct (token_eq_dec t t') as [->|Hne].
    + rewrite expand_in_chars.
      destruct (token_eq_dec t' t'); [reflexivity|contradiction].
    + simpl. rewrite app_nil_r.
      destruct (token_eq_dec t t'); [contradiction|].
      destruct (in_dec token_eq_dec t' ts); reflexivity.
Qed.

Lemma sorted_filter {A} (R : A -> A -> Prop) (f : A -> bool) (l : list A) :
  StronglySorted R l -> StronglySorted R (filter f l).
Proof.
  induction 1 as [|a l Hs IH Ha]; simpl; [constructor|].
  destruct (f a); [|exact IH].
  constructor; [exact IH|].
  apply Forall_forall. intros x Hx. apply filter_In in Hx as [Hx _].
  eapply Forall_forall in Ha; eauto.
Qed.

Lemma all_tokens_sorted :
  StronglySorted (fun t t' => token_rank t < token_rank t') all_tokens.
Proof. unfold all_tokens. repeat constructor; simpl; lia. Qed.

Lemma clash_spec (k s : str) : clash k s = negb (prefixb k s) && negb (prefixb s k).
Proof.
  revert s; induction k as [|a k IH]; intros [|b s]; simpl; try reflexivity.
  rewrite (Ascii.eqb_sym b a). destruct (Ascii.eqb a b); simpl; [apply IH|reflexivity].
Qed.

Lemma clash_ext (k s x : str) : clash k s = true -> clash k (s ++ x) = true.
Proof.
  revert s; induction k as [|a k IH]; intros [|b s] H; simpl in *; try discriminate.
  destruct (Ascii.eqb a b); [now apply IH|reflexivity].
Qed.

Lemma clash_no_prefix (k s : str) : clash k s = true -> prefixb k s = false.
Proof.
  rewrite clash_spec. intros H. apply andb_true_iff in H as [H _].
  now apply negb_true_iff in H.
Qed.

Lemma is_suffix_tails (v b : str) : In b (tails v) <-> b <> [] /\ exists a, v = a ++ b.
Proof.
  induction v as [|c v IH]; simpl.
  - split; [intros []|]. intros [Hb [a Ha]]. symmetry in Ha.
    apply app_eq_nil in Ha as [_ Ha]. contradiction.
  - split.
    + intros [<-|H]; [split; [discriminate|now exists []]|].
      apply IH in H as [Hb [a ->]]. split; [exact Hb|]. now exists (c :: a).
    + intros [Hb [a Ha]]. destruct a as [|c' a].
      * left. exact Ha.
      * right. apply IH. split; [exact Hb|]. injection Ha as _ ->. now exists a.
Qed.

(** What [apart] says, in terms of occurrences. *)
Lemma apart_spec (k v : str) :
  k <> [] ->
  (apart k v = true <->
   ~ occurs k v
   /\ forall a b, v = a ++ b -> b <> [] -> prefixb b k = false).
Proof.
  intros Hk. unfold apart. rewrite forallb_forall. split.
  - intros H. split.
    + intros (a & b & E).
      assert (Hin : In (k ++ b) (tails v)).
      { apply is_suffix_tails. split; [destruct k; [contradiction|discriminate]|].
        now exists a. }
      apply H in Hin. apply clash_no_prefix in Hin. now rewrite prefixb_app in Hin.
    + intros a b E Hb.
      assert (Hin : In b (tails v)) by (apply is_suffix_tails; split; [exact Hb|now exists a]).
      apply H in Hin. rewrite clash_spec in Hin.
      apply andb_true_iff in Hin as [_ Hin]. now apply negb_true_iff in Hin.
  - intros [Ho Hs] b Hin. apply is_suffix_tails in Hin as [Hb [a E]].
    rewrite clash_spec. apply andb_true_iff. split; apply negb_true_iff.
    + destruct (prefixb k b) eqn:F; [|reflexivity]. exfalso. apply Ho.
      destruct (prefixb_true _ _ F) as [post ->]. now exists a, post.
    + now apply (Hs a b).
Qed.

Lemma render_run (ps : list piece) : exists rest, render ps = chars_run ps ++ rest.
Proof.
  induction ps as [|[c|t] ps [rest IH]].
  - now exists [].
  - exists rest. rewrite render_cons. simpl. now rewrite IH.
  - now exists (render (Tok t :: ps)).
Qed.

(** In a template whose text between the tokens is dead for a token, an
    occurrence of the token's text is one of the token pieces. *)
Lemma occurrence_at_token (t : token) (ps : list piece) (a b : str) :
  dead (token_text t) ps = true -> render ps = a ++ token_text t ++ b ->
  exists pre post, ps = pre ++ Tok t :: post /\ a = render pre /\ b = render post.
Proof.
  revert a; induction ps as [|p ps IH]; intros a Hps H.
  - exfalso. destruct a; [|discriminate].
    destruct (token_shaped t) as (body & E & _). rewrite E in H. discriminate.
  - rewrite render_cons in H. destruct p as [c|t'].
    + simpl in Hps. apply andb_true_iff in Hps as [Hc Hps].
      destruct a as [|c' a].
      * exfalso. destruct (render_run ps) as [rest E].
        apply (clash_ext _ _ rest) in Hc. apply clash_no_prefix in Hc.
        simpl in H. rewrite E in H.
        change (c :: chars_run ps ++ rest) with ((c :: chars_run ps) ++ rest) in H.
        rewrite H in Hc. now rewrite prefixb_app in Hc.
      * simpl in H. injection H as <- H.
        destruct (IH a Hps H) as (pre & post & -> & -> & ->).
        exists (Chr c :: pre), post. auto.
    + simpl in Hps.
      change (piece_text (Tok t')) with (token_text t') in H.
      change (token_text t' ++ render ps) with ([] ++ token_text t' ++ render ps) in H.
      destruct (shaped_apart _ _ _ _ _ _ (token_shaped t') (token_shaped t) H)
        as [(<- & E & <-)|[(m & -> & Hm)|(m & Hm & _)]].
      * apply token_text_inj in E. subst t'. exists [], ps. auto.
      * destruct (IH m Hps Hm) as (pre & post & -> & -> & ->).
        exists (Tok t' :: pre), post. auto.
      * exfalso. destruct a; [|discriminate].
        destruct (token_shaped t) as (body & E & _). rewrite E in Hm. discriminate.
Qed.

Lemma chars_run_chars (v : str) (ps : list piece) :
  chars_run (map Chr v ++ ps) = v ++ chars_run ps.
Proof. induction v as [|c v IH]; [reflexivity|]. simpl. now rewrite IH. Qed.

Lemma dead_chars (k v : str) (ps : list piece) :
  apart k v = true -> dead k ps = true -> dead k (map Chr v ++ ps) = true.
Proof.
  induction v as [|c v IH]; intros Hv Hps; [exact Hps|].
  unfold apart in Hv. simpl in Hv. apply andb_true_iff in Hv as [Hc Hv].
  simpl. apply andb_true_iff. split; [|now apply IH].
  rewrite chars_run_chars.
  change (c :: v ++ chars_run ps) with ((c :: v) ++ chars_run ps).
  now apply clash_ext.
Qed.

Lemma run_subst_tok (t : token) (v : str) (ps : list piece) :
  exists x, chars_run (subst_tok t v ps) = chars_run ps ++ x.
Proof.
  induction ps as [|[c|t'] ps [x IH]].
  - now exists [].
  - exists x. change (subst_tok t v (Chr c :: ps)) with (Chr c :: subst_tok t v ps).
    simpl. now rewrite IH.
  - now exists (chars_run (subst_tok t v (Tok t' :: ps))).
Qed.

(** Putting a value that is apart from [k] in the place of a token keeps
    the text between the tokens dead for [k]. *)
Lemma dead_subst_tok (k : str) (t : token) (v : str) (ps : list piece) :
  dead k ps = true -> (In (Tok t) ps -> apart k v = true) ->
  dead k (subst_tok t v ps) = true.
Proof.
  induction ps as [|[c|t'] ps IH]; intros Hps Hv; [reflexivity| |].
  - simpl in Hps. apply andb_true_iff in Hps as [Hc Hps].
    change (subst_tok t v (Chr c :: ps)) with (Chr c :: subst_tok t v ps).
    simpl. apply andb_true_iff. split.
    + destruct (run_subst_tok t v ps) as [x ->].
      change (c :: chars_run ps ++ x) with ((c :: chars_run ps) ++ x).
      now apply clash_ext.
    + apply IH; [exact Hps|]. intros H. apply Hv. now right.
  - simpl in Hps.
    change (Tok t' :: ps) with ([Tok t'] ++ ps). rewrite subst_tok_app.
    assert (IH' : dead k (subst_tok t v ps) = true).
    { apply IH; [exact Hps|]. intros H. apply Hv. now right. }
    unfold subst_tok at 1. simpl. rewrite app_nil_r.
    destruct (token_eq_dec t t') as [<-|Hne].
    + apply dead_chars; [|exact IH']. apply Hv. now left.
    + exact IH'.
Qed.

Lemma dead_app_tok (k : str) (pre post : list piece) (t : token) :
  dead k (pre ++ Tok t :: post) = true -> dead k post = true.
Proof.
  induction pre as [|[c|t'] pre IH]; simpl; intros H; auto.
  apply andb_true_iff in H as [_ H]. auto.
Qed.

Lemma run_past_token (pre post rest : list piece) (t : token) :
  exists x, chars_run (pre ++ rest) = chars_run (pre ++ Tok t :: post) ++ x.
Proof.
  induction pre as [|[c|t'] pre [x IH]].
  - now exists (chars_run rest).
  - exists x. simpl. now rewrite IH.
  - now exists [].
Qed.

Lemma dead_replace_one (k : str) (pre post : list piece) (t : token) (v : str) :
  dead k (pre ++ Tok t :: post) = true -> apart k v = true ->
  dead k (pre ++ map Chr v ++ post) = true.
Proof.
  intros H Hv. induction pre as [|[c|t'] pre IH]; simpl in *.
  - now apply dead_chars.
  - apply andb_true_iff in H as [Hc H]. apply andb_true_iff. split; [|now apply IH].
    destruct (run_past_token pre post (map Chr v ++ post) t) as [x ->].
    change (c :: chars_run (pre ++ Tok t :: post) ++ x)
      with ((c :: chars_run (pre ++ Tok t :: post)) ++ x).
    now apply clash_ext.
  - now apply IH.
Qed.

(** One token's loop replaces exactly the pieces of that token. *)
Lemma replace_loop_pieces (t : token) (v : str) (fuel : nat) (ps : list piece) :
  dead (token_text t) ps = true ->
  (In (Tok t) ps -> apart (token_text t) v = true) ->
  count t ps <= fuel ->
  replace_loop fuel (token_text t) v (render ps) = Some (render (subst_tok t v ps)).
Proof.
  revert ps; induction fuel as [|fuel IH]; intros ps Hps Hv Hc.
  - assert (Hno : ~ In (Tok t) ps).
    { intros H. apply (count_occ_In piece_eq_dec) in H. unfold count in Hc. lia. }
    rewrite subst_tok_absent by exact Hno.
    apply replace_loop_absent.
    destruct (find (token_text t) (render ps)) as [p|] eqn:E; [|reflexivity].
    exfalso. destruct (find_Some _ _ _ E) as (a & b & Hd & _).
    destruct (occurrence_at_token t ps a b Hps Hd) as (pre & post & -> & _).
    apply Hno. apply in_elt.
  - destruct (find (token_text t) (render ps)) as [p|] eqn:E.
    + rewrite (replace_loop_step _ _ v _ _ E).
      destruct (find_replace _ _ v _ E) as (a & b & Hd & _ & ->).
      destruct (occurrence_at_token t ps a b Hps Hd) as (pre & post & -> & -> & ->).
      assert (Hvv : apart (token_text t) v = true) by (apply Hv; apply in_elt).
      replace (render pre ++ v ++ render post)
        with (render (pre ++ map Chr v ++ post))
        by (now rewrite !render_app, render_chars).
      rewrite IH.
      * f_equal. f_equal.
        rewrite !subst_tok_app, subst_tok_chars.
        change (Tok t :: post) with ([Tok t] ++ post).
        rewrite subst_tok_app. f_equal. f_equal.
        rewrite subst_tok_here. simpl. now rewrite app_nil_r.
      * now apply dead_replace_one with (t := t).
      * intros _. exact Hvv.
      * unfold count in *. rewrite !count_occ_app in *.
        fold (count t (map Chr v)). rewrite count_chars.
        rewrite count_occ_cons_eq in Hc by reflexivity. lia.
    + rewrite replace_loop_absent by exact E.
      rewrite subst_tok_absent; [reflexivity|].
      intros H. apply In_tok_occurs in H. apply find_None in E. contradiction.
Qed.

(** The loops of the tokens [ts], one after the other. *)
Lemma subst_entries_pieces (val : token -> str) (fuel : nat) (ts : list token)
      (ps : list piece) :
  StronglySorted (fun a b => token_rank a < token_rank b) ts ->
  (forall t', In t' ts -> dead (token_text t') ps = true) ->
  (forall t t', In t ts -> In (Tok t) ps -> In t' ts -> token_rank t <= token_rank t' ->
                apart (token_text t') (val t) = true) ->
  (forall t, count t ps <= fuel) ->
  subst_entries fuel (map (fun t => (token_text t, val t)) ts) (render ps)
  = Some (render (subst_toks val ts ps)).
Proof.
  intros Hs. revert ps.
  induction Hs as [|t ts Hs IH Ht]; intros ps Hd Hv Hc; [reflexivity|].
  assert (Hlater : forall t', In t' ts -> token_rank t < token_rank t').
  { intros t' H. eapply Forall_forall in Ht; eauto. }
  simpl. rewrite replace_loop_pieces.
  - apply IH.
    + intros t' Hin. apply dead_subst_tok; [apply Hd; now right|].
      intros Htok. apply (Hv t t'); [now left|exact Htok|now right|].
      apply Nat.lt_le_incl. now apply Hlater.
    + intros t1 t' H1 Htok H' Hr.
      apply (Hv t1 t'); [now right| |now right|exact Hr].
      eapply subst_tok_In; eauto.
    + intros t'. eapply Nat.le_trans; [apply count_subst_tok|apply Hc].
  - apply Hd. now left.
  - intros Htok. apply (Hv t t); [now left|exact Htok|now left|apply Nat.le_refl].
  - apply Hc.
Qed.

(** Values without ['%'], and values made of plain characters and of the
    texts of other tokens, are apart from a token's text. *)
Lemma clash_head (k s : str) (c : ascii) :
  shaped k -> c <> percent -> clash k (c :: s) = true.
Proof.
  intros (body & -> & _) Hc. cbn [clash].
  destruct (Ascii.eqb percent c) eqn:E; [|reflexivity].
  apply Ascii.eqb_eq in E. congruence.
Qed.

Lemma no_percent_apart (k v : str) : shaped k -> ~ In percent v -> apart k v = true.
Proof.
  intros Hk. unfold apart. induction v as [|c v IH]; intros H; [reflexivity|].
  simpl tails. simpl forallb. apply andb_true_iff. split.
  - apply clash_head; [exact Hk|]. intros ->. apply H. now left.
  - apply IH. intros H'. apply H. now right.
Qed.

Lemma clash_tokens (t t' : token) (s : str) :
  t <> t' -> clash (token_text t) (token_text t' ++ s) = true.
Proof.
  intros Hne. apply clash_ext. rewrite clash_spec.
  apply andb_true_iff. split; apply negb_true_iff.
  - destruct (prefixb (token_text t) (token_text t')) eqn:E; [|reflexivity].
    exfalso. destruct (prefixb_true _ _ E) as [l Hl].
    assert (l = []) by (eapply shaped_prefix; [apply (token_shaped t)|apply (token_shaped t')|exact Hl]).
    subst l. rewrite app_nil_r in Hl. apply Hne. apply token_text_inj. congruence.
  - destruct (prefixb (token_text t') (token_text t)) eqn:E; [|reflexivity].
    exfalso. destruct (prefixb_true _ _ E) as [l Hl].
    assert (l = []) by (eapply shaped_prefix; [apply (token_shaped t')|apply (token_shaped t)|exact Hl]).
    subst l. rewrite app_nil_r in Hl. apply Hne. apply token_text_inj. congruence.
Qed.

Lemma tails_app (a b : str) : exists l, tails (a ++ b) = l ++ tails b /\ length l = length a
  /\ forall x, In x l -> exists a1 a2, a = a1 ++ a2 /\ a2 <> [] /\ x = a2 ++ b.
Proof.
  induction a as [|c a (l & E & L & H)].
  - exists []. repeat split. intros x [].
  - exists ((c :: a ++ b) :: l). simpl. rewrite E, L. repeat split.
    intros x [<-|Hx].
    + exists [], (c :: a). repeat split. discriminate.
    + destruct (H x Hx) as (a1 & a2 & -> & Ha & ->).
      exists (c :: a1), a2. auto.
Qed.

Lemma token_tail_clash (t t' : token) (x1 x2 s : str) :
  token_text t' = x1 ++ x2 -> x1 <> [] -> x2 <> [] -> clash (token_text t) (x2 ++ s) = true.
Proof.
  intros E H1 H2. destruct x2 as [|c x2]; [contradiction|].
  destruct x1 as [|c1 x1]; [contradiction|].
  simpl. apply clash_head; [apply token_shaped|].
  eapply shaped_inner; [apply (token_shaped t')|exact E].
Qed.

Lemma plain_value_apart (t : token) (w : list piece) :
  Forall plain_piece w -> ~ In (Tok t) w -> apart (token_text t) (render w) = true.
Proof.
  unfold apart. induction w as [|p w IH]; intros Hw Hno; [reflexivity|].
  apply Forall_cons_iff in Hw as [Hp Hw].
  assert (IH' : forallb (clash (token_text t)) (tails (render w)) = true).
  { apply IH; [exact Hw|]. intros H. apply Hno. now right. }
  rewrite render_cons. destruct p as [c|t'].
  - simpl. apply andb_true_iff. split; [|exact IH'].
    apply clash_head; [apply token_shaped|exact Hp].
  - change (piece_text (Tok t')) with (token_text t').
    destruct (tails_app (token_text t') (render w)) as (l & -> & _ & Hl).
    rewrite forallb_app. apply andb_true_iff. split; [|exact IH'].
    apply forallb_forall. intros x Hx.
    destruct (Hl x Hx) as (a1 & a2 & E & Ha & ->).
    destruct a1 as [|c1 a1].
    + simpl in E. subst a2. apply clash_tokens. intros ->. apply Hno. now left.
    + apply (token_tail_clash t t' (c1 :: a1) a2); [exact E|discriminate|exact Ha].
Qed.

Lemma plain_dead (k : str) (ps : list piece) :
  shaped k -> Forall plain_piece ps -> dead k ps = true.
Proof.
  intros Hk. induction 1 as [|[c|t] ps Hp Hps IH]; simpl; auto.
  apply andb_true_iff. split; [|exact IH]. now apply clash_head.
Qed.

(** What [dead] says: each stretch of characters between two tokens, or
    before the first or after the last, is apart from the text. *)
Lemma dead_stretch (k r : str) (t : token) (ps : list piece) :
  dead k (map Chr r ++ Tok t :: ps) = apart k r && dead k ps.
Proof.
  unfold apart. induction r as [|c r IH]; [reflexivity|].
  simpl. rewrite IH, chars_run_chars. simpl. rewrite app_nil_r.
  now rewrite andb_assoc.
Qed.

Lemma dead_last_stretch (k r : str) : dead k (map Chr r) = apart k r.
Proof.
  unfold apart. induction r as [|c r IH]; [reflexivity|].
  simpl. rewrite IH. f_equal. f_equal. f_equal.
  rewrite <- (app_nil_r (map Chr r)), chars_run_chars. apply app_nil_r.
Qed.

(** Text of the template that ends with a beginning of a token may be
    completed by the value that follows it. *)
Example template_text_beginning_a_token :
  _CreateLogStr demo_platform 10
    {| log_format := lit "%(MS%(LEVEL)"; level := lit "G)"; color := [];
       filename := []; funcname := []; pid := 1; tid := 1; line := 1; fd := stderr;
       msg_id := 0; msg := lit "text"; time := 0 |}
  = Some (lit "text").
Proof. reflexivity. Qed.

(** A value that ends with a ['%'] may start a token with what follows it
    in the template. *)
Example value_ending_in_percent :
  _CreateLogStr demo_platform 10 (demo_record "%(MSG)(PID) %(PID)" "100%")
  = Some (lit "10042 42").
Proof. reflexivity. Qed.

(** C8: a template that holds none of the ten recognized tokens comes
    out of the format engine as it went in, whatever the record and
    whatever the fuel; and whenever the engine returns, a placeholder it
    does not recognize still stands in the output. *)
Theorem identity_without_tokens (P : Platform) (fuel : nat) (d : LogData) :
  ((forall t, ~ occurs (token_text t) (log_format d)) ->
   _CreateLogStr P fuel d = Some (log_format d))
  /\ (forall u r, unrecognized u -> occurs u (log_format d) ->
                  _CreateLogStr P fuel d = Some r -> occurs u r).
Proof.
  split.
  - intros H. unfold _CreateLogStr. apply subst_entries_absent.
    intros k v Hin. apply build_subs_entries in Hin as (t & -> & _).
    destruct (find (token_text t) (log_format d)) as [p|] eqn:E; [|reflexivity].
    exfalso. apply (H t). eapply occurs_find; eauto.
  - intros u r Hu Hocc H. unfold _CreateLogStr in H.
    eapply subst_entries_keeps; [| |exact Hocc|exact H].
    + now apply unrecognized_shaped.
    + intros k v Hin. apply build_subs_entries in Hin as (t & -> & _).
      split; [apply token_shaped|apply Hu].
Qed.

Lemma identity_without_tokens_witness :
  _CreateLogStr demo_platform 0 (demo_record "50% done (FOO) %(FOO)" "m")
  = Some (lit "50% done (FOO) %(FOO)")
  /\ occurs (lit "%(FOO)") (lit "[INF] %(FOO)").
Proof.
  split.
  - apply (proj1 (identity_without_tokens demo_platform 0
                    (demo_record "50% done (FOO) %(FOO)" "m"))).
    intros t. apply find_None. destruct t; reflexivity.
  - apply (proj2 (identity_without_tokens demo_platform 5
                    (demo_record "[%(LEVEL)] %(FOO)" "m")) (lit "%(FOO)")).
    + split.
      * exists (lit "FOO"). split; [reflexivity|]. split; cbv; intuition discriminate.
      * intros t. destruct t; cbv; discriminate.
    + exists (lit "[%(LEVEL)] "), []. reflexivity.
    + reflexivity.
Defined.

(** A message that holds ["%(MSG)"], under a template that holds it too,
    keeps the engine from returning. *)
Lemma own_token_never_returns (P : Platform) (d : LogData) (fuel : nat) :
  occurs (token_text MSG) (log_format d) -> occurs (token_text MSG) (msg d) ->
  _CreateLogStr P fuel d = None.
Proof.
  intros Hf Hm. unfold _CreateLogStr.
  assert (Hin : In (token_text MSG, msg d) (build_subs P d)).
  { rewrite build_subs_eq. apply in_map_iff. exists MSG. split; [reflexivity|].
    apply filter_In. split; [|reflexivity]. cbv; tauto. }
  assert (Hkeys : forall k v, In (k, v) (build_subs P d) ->
                              exists t, k = token_text t /\ v = token_value P d t).
  { intros k v H. apply build_subs_entries in H as (t & ? & ? & _). eauto. }
  revert Hf Hin Hkeys. generalize (log_format d) as s. generalize (build_subs P d) as subs.
  induction subs as [|[k v] subs IH]; intros s Hs Hin Hkeys; [destruct Hin|].
  simpl.
  destruct (Hkeys k v (or_introl eq_refl)) as (t & -> & ->).
  destruct (replace_loop fuel (token_text t) (token_value P d t) s) as [s1|] eqn:E;
    [|reflexivity].
  assert (Ht : t <> MSG).
  { intros ->. cbn [token_value] in E.
    rewrite (replace_loop_diverges _ _ Hm fuel s Hs) in E. discriminate. }
  apply IH.
  - eapply replace_loop_keeps; [apply token_shaped|apply token_shaped| |exact Hs|exact E].
    intros H. apply token_text_inj in H. congruence.
  - destruct Hin as [H|H]; [|exact H].
    exfalso. apply Ht. apply token_text_inj.
    change (fst (token_text t, token_value P d t) = fst (token_text MSG, msg d)).
    now rewrite H.
  - intros k' v' H. apply Hkeys. now right.
Qed.

(** C10: the claim is that the substitution returns for every record and
    template.  For the template ["%(MSG)"] and a message that is the text
    ["%(MSG)"] the loop of [_CreateLogStr] never ends: no amount of fuel
    gives a result. *)
Theorem message_holding_its_token_hangs (fuel : nat) :
  _CreateLogStr demo_platform fuel (demo_record "%(MSG)" "%(MSG)") = None.
Proof.
  apply own_token_never_returns; exists [], []; reflexivity.
Qed.
(** C2 (amended): for a template cut into recognized tokens and other
    characters, the engine returns, with fuel for as many rounds as the
    template has pieces, the text of one simultaneous pass, each token
    replaced by its value and no value substituted again, provided that
    (1) the text between the tokens of the template neither holds, nor
    ends with a beginning of, the text of a token that has an entry in the
    table, and (2) the value of each token of the template neither holds,
    nor ends with a beginning of, the text of a token that has an entry
    and whose loop is the same or a later one.  A value may hold ['%'],
    and the text of any token handled earlier or without an entry. *)
Theorem values_are_not_substituted_again (P : Platform) (d : LogData) (ps : list piece)
        (fuel : nat) :
  log_format d = render ps ->
  (forall t', in_subs d t' = true -> dead (token_text t') ps = true) ->
  (forall t t', In (Tok t) ps -> in_subs d t' = true -> token_rank t <= token_rank t' ->
                apart (token_text t') (token_value P d t) = true) ->
  length ps <= fuel ->
  _CreateLogStr P fuel d = Some (expand P d ps).
Proof.
  intros Hf Hd Hv Hfuel. unfold _CreateLogStr.
  rewrite build_subs_eq, Hf.
  rewrite (subst_entries_pieces (token_value P d)).
  - rewrite render_subst_toks. unfold expand. f_equal. f_equal.
    apply map_ext_in. intros [c|t] Hin; [reflexivity|].
    unfold expand_in, expand_piece.
    destruct (in_dec token_eq_dec t (filter (in_subs d) all_tokens)) as [|Hno];
      [reflexivity|].
    exfalso. apply Hno. apply filter_In. split.
    + destruct t; cbv; tauto.
    + apply In_tok_occurs in Hin. rewrite <- Hf in Hin.
      destruct (find_occurs _ _ Hin) as [p E].
      unfold in_subs. rewrite E. now destruct t.
  - apply sorted_filter. apply all_tokens_sorted.
  - intros t' Hin. apply filter_In in Hin as [_ Hin]. now apply Hd.
  - intros t t' Hin Htok Hin' Hr. apply filter_In in Hin' as [_ Hin']. now apply Hv.
  - intros t. eapply Nat.le_trans; [apply count_occ_bound|exact Hfuel].
Qed.

Lemma values_are_not_substituted_again_witness :
  _CreateLogStr demo_platform 12
    (demo_record "%(MSG) [%(LEVEL)] %(FOO)" "50% done at %(LEVEL), pid %(PID)")
  = Some (lit "50% done at %(LEVEL), pid %(PID) [INF] %(FOO)").
Proof.
  apply (values_are_not_substituted_again demo_platform
           (demo_record "%(MSG) [%(LEVEL)] %(FOO)" "50% done at %(LEVEL), pid %(PID)")
           mixed_template).
  - reflexivity.
  - intros t' H. destruct t'; try discriminate H; reflexivity.
  - intros t t' Hin H Hr.
    simpl in Hin.
    repeat (destruct Hin as [Hin|Hin]; [try discriminate|]); try contradiction;
      injection Hin as <-;
      destruct t'; try discriminate H; simpl in Hr; try lia; reflexivity.
  - simpl. lia.
Defined.

(** C2 as stated fails: under the template ["%(MSG) %(PID)"] a message
    that reads ["%(PID)"] is itself replaced by the process id when the
    loop comes to the token PID: the output is ["42 42"], not
    ["%(PID) 42"]. *)
Lemma value_holding_later_token_resubstituted :
  ~ (forall (P : Platform) (d : LogData) (ps : list piece),
        log_format d = render ps -> Forall plain_piece ps ->
        exists fuel, _CreateLogStr P fuel d = Some (expand P d ps)).
Proof.
  intros H.
  destruct (H demo_platform (demo_record "%(MSG) %(PID)" "%(PID)")
              [Tok MSG; Chr " "; Tok PID]) as [fuel Hf].
  - reflexivity.
  - repeat constructor. discriminate.
  - assert (H10 : _CreateLogStr demo_platform 10 (demo_record "%(MSG) %(PID)" "%(PID)")
                  = Some (lit "42 42")) by reflexivity.
    unfold _CreateLogStr in *.
    pose proof (subst_entries_det _ _ _ _ _ _ Hf H10) as E.
    cbv in E. discriminate.
Qed.

End FormatFacts.

(** ** The level filter of the macros *)

Module LevelFacts.

Lemma compare_levels (value : LogLevel -> Z) (a b : LogLevel) :
  declared_order value ->
  (value a >=? value b)%Z = (severity a <=? severity b).
Proof.
  intros (H1 & H2 & H3 & H4 & H5).
  destruct (severity a <=? severity b) eqn:E.
  - apply Nat.leb_le in E. apply Z.geb_le.
    destruct a, b; simpl in E; try lia.
  - apply Nat.leb_gt in E.
    destruct (value a >=? value b)%Z eqn:G; [|reflexivity].
    apply Z.geb_le in G. destruct a, b; simpl in E; try lia.
Qed.

(** C4: with the enumerators of [LogLevel] numbered in the order
    CRITICAL, ERROR, WARNING, INFO, DEBUG, TRACE, a CRT call always queues
    the record of the call (its level, colour, call site, message, id and
    the logger's settings of that moment), whatever the minimum level; a
    call of any other macro queues the record of the call if the severity
    of its level is at or above the logger's current minimum, and below
    the minimum it leaves the queue as it was. *)
Theorem dispatch_iff_at_or_above (value : LogLevel -> Z) (l : LogLevel)
        (cs : CallSite) (lg : Logger) :
  declared_order value ->
  (l = LOG_LEVEL_CRITICAL ->
   queue_ (log_macro value l cs lg)
   = queue_ lg ++ [print_task (LoggerMore.stamped l cs lg) (is_colored_ lg)])
  /\ (l <> LOG_LEVEL_CRITICAL ->
      (severity (level_ lg) <= severity l ->
       queue_ (log_macro value l cs lg)
       = queue_ lg ++ [print_task (LoggerMore.stamped l cs lg) (is_colored_ lg)])
      /\ (severity l < severity (level_ lg) ->
          queue_ (log_macro value l cs lg) = queue_ lg)).
Proof.
  intros Hord. split.
  - intros ->. reflexivity.
  - intros Hl. split.
    + intros Hle.
      destruct l; try contradiction; simpl;
        unfold ERR, WRN, INF, DBG, TRC, guarded, GetLogLevel, GetLevel;
        rewrite (compare_levels value _ _ Hord); simpl level_;
        (replace (severity (level_ lg) <=? _) with true
          by (symmetry; apply Nat.leb_le; exact Hle));
        reflexivity.
    + intros Hlt.
      destruct l; try contradiction; simpl;
        unfold ERR, WRN, INF, DBG, TRC, guarded, GetLogLevel, GetLevel;
        rewrite (compare_levels value _ _ Hord); simpl level_;
        (replace (severity (level_ lg) <=? _) with false
          by (symmetry; apply Nat.leb_gt; exact Hlt));
        reflexivity.
Qed.

Lemma dispatch_iff_at_or_above_witness :
  queue_ (log_macro from_zero LOG_LEVEL_WARNING demo_site (fresh LOG_LEVEL_ERROR)) = []
  /\ queue_ (log_macro from_zero LOG_LEVEL_ERROR demo_site (fresh LOG_LEVEL_ERROR))
     = [] ++ [print_task (LoggerMore.stamped LOG_LEVEL_ERROR demo_site
                            (fresh LOG_LEVEL_ERROR)) true].
Proof.
  assert (Hord : declared_order from_zero) by (unfold declared_order; simpl; lia).
  split.
  - apply (proj2 (proj2 (dispatch_iff_at_or_above from_zero LOG_LEVEL_WARNING demo_site
                           (fresh LOG_LEVEL_ERROR) Hord) ltac:(discriminate))).
    simpl. lia.
  - apply (proj1 (proj2 (dispatch_iff_at_or_above from_zero LOG_LEVEL_ERROR demo_site
                           (fresh LOG_LEVEL_ERROR) Hord) ltac:(discriminate))).
    simpl. lia.
Defined.

(** C6: a call of a macro other than CRT whose level is below the current
    minimum adds one to the message-id counter (modulo 2^64) and leaves
    every other member of the logger, the queue among them, as it was. *)
Theorem suppressed_call_only_counts (value : LogLevel -> Z) (l : LogLevel)
        (cs : CallSite) (lg : Logger) :
  declared_order value ->
  l <> LOG_LEVEL_CRITICAL ->
  severity l < severity (level_ lg) ->
  log_macro value l cs lg
  = {| stop_loop_ := stop_loop_ lg; is_colored_ := is_colored_ lg; level_ := level_ lg;
       msg_id_ := (msg_id_ lg + 1) mod 2 ^ 64;
       format_str_ := format_str_ lg; fd_ := fd_ lg;
       queue_ := queue_ lg; exec_list_ := exec_list_ lg |}.
Proof.
  intros Hord Hl Hlt.
  destruct l; try contradiction; simpl;
    unfold ERR, WRN, INF, DBG, TRC, guarded, GetLogLevel, GetLevel;
    rewrite (compare_levels value _ _ Hord); simpl level_;
    (replace (severity (level_ lg) <=? _) with false
      by (symmetry; apply Nat.leb_gt; exact Hlt));
    reflexivity.
Qed.

Lemma suppressed_call_only_counts_witness :
  log_macro from_zero LOG_LEVEL_DEBUG demo_site (fresh LOG_LEVEL_INFO)
  = {| stop_loop_ := false; is_colored_ := true; level_ := LOG_LEVEL_INFO;
       msg_id_ := 1;
       format_str_ := lit "[%(LEVEL)] %(FILENAME): %(LINE): %(MSG)"; fd_ := stderr;
       queue_ := []; exec_list_ := [] |}.
Proof.
  apply (suppressed_call_only_counts from_zero LOG_LEVEL_DEBUG demo_site
           (fresh LOG_LEVEL_INFO)).
  - unfold declared_order; simpl; lia.
  - discriminate.
  - simpl; lia.
Defined.

End LevelFacts.

(** ** The level from the environment *)

Module EnvFacts.

Lemma found_occurs (s e : str) : found s e = true <-> occurs s e.
Proof.
  unfold found. split.
  - destruct (find s e) as [p|] eqn:E; [|discriminate].
    intros _. eapply occurs_find; eauto.
  - intros H. destruct (find_occurs _ _ H) as [p ->]. reflexivity.
Qed.

Lemma hitb_hit (e : str) (l : LogLevel) : hitb e l = true <-> hit e l.
Proof.
  unfold hitb, hit. rewrite existsb_exists.
  split; intros (s & Hs & H); exists s; (split; [exact Hs|]); now apply found_occurs.
Qed.

Lemma LogLevelFromEnv_visit (e : str) :
  LogLevelFromEnv (Some e)
  = if hitb e LOG_LEVEL_CRITICAL then LOG_LEVEL_CRITICAL
    else if hitb e LOG_LEVEL_DEBUG then LOG_LEVEL_DEBUG
    else if hitb e LOG_LEVEL_ERROR then LOG_LEVEL_ERROR
    else if hitb e LOG_LEVEL_INFO then LOG_LEVEL_INFO
    else if hitb e LOG_LEVEL_TRACE then LOG_LEVEL_TRACE
    else if hitb e LOG_LEVEL_WARNING then LOG_LEVEL_WARNING
    else LOG_LEVEL_INFO.
Proof.
  unfold LogLevelFromEnv.
  change level_dict with
    [(spellings LOG_LEVEL_CRITICAL, LOG_LEVEL_CRITICAL);
     (spellings LOG_LEVEL_DEBUG, LOG_LEVEL_DEBUG);
     (spellings LOG_LEVEL_ERROR, LOG_LEVEL_ERROR);
     (spellings LOG_LEVEL_INFO, LOG_LEVEL_INFO);
     (spellings LOG_LEVEL_TRACE, LOG_LEVEL_TRACE);
     (spellings LOG_LEVEL_WARNING, LOG_LEVEL_WARNING)].
  cbn [List.find fst snd]. fold (hitb e LOG_LEVEL_CRITICAL).
  fold (hitb e LOG_LEVEL_DEBUG). fold (hitb e LOG_LEVEL_ERROR).
  fold (hitb e LOG_LEVEL_INFO). fold (hitb e LOG_LEVEL_TRACE).
  fold (hitb e LOG_LEVEL_WARNING).
  repeat match goal with |- context [hitb e ?l] => destruct (hitb e l) end; reflexivity.
Qed.

(** C7 (amended): an unset variable gives INFO; otherwise the value is
    searched letter for letter (case-sensitively) for the spellings of the
    dictionary, each level having an all-capitals and an all-lower-case
    spelling of its names, and the first level in the order CRITICAL,
    DEBUG, ERROR, INFO, TRACE, WARNING with a spelling that occurs is the
    result; when no spelling occurs the result is INFO.  No error is ever
    raised: the function is total. *)
Theorem level_from_env_is_case_sensitive (var : option str) :
  match var with
  | None => LogLevelFromEnv var = LOG_LEVEL_INFO
  | Some env_str =>
      (forall l, hit env_str l ->
                 (forall l', visit_rank l' < visit_rank l -> ~ hit env_str l') ->
                 LogLevelFromEnv var = l)
      /\ ((forall l, ~ hit env_str l) -> LogLevelFromEnv var = LOG_LEVEL_INFO)
  end.
Proof.
  destruct var as [e|]; [|reflexivity].
  assert (Hno : forall l, ~ hit e l -> hitb e l = false).
  { intros l H. destruct (hitb e l) eqn:E; [|reflexivity].
    exfalso. apply H. now apply hitb_hit. }
  split.
  - intros l Hl Hfirst. rewrite LogLevelFromEnv_visit.
    apply hitb_hit in Hl.
    destruct l; simpl in Hfirst;
      repeat match goal with
             | |- context [hitb e ?l'] =>
                 first [ rewrite Hl
                       | rewrite (Hno l') by (apply Hfirst; simpl; lia) ]
             end; reflexivity.
  - intros H. rewrite LogLevelFromEnv_visit.
    rewrite !Hno by apply H. reflexivity.
Qed.

Lemma level_from_env_is_case_sensitive_witness :
  LogLevelFromEnv (Some (lit "trace,debug")) = LOG_LEVEL_DEBUG
  /\ LogLevelFromEnv (Some (lit "Verbose")) = LOG_LEVEL_INFO.
Proof.
  split.
  - apply (proj1 (level_from_env_is_case_sensitive (Some (lit "trace,debug")))).
    + exists (lit "debug"). split; [simpl; tauto|].
      exists (lit "trace,"), []. reflexivity.
    + intros l' Hr Hh. apply hitb_hit in Hh.
      destruct l'; simpl in Hr; try lia. discriminate Hh.
  - apply (proj2 (level_from_env_is_case_sensitive (Some (lit "Verbose")))).
    intros l Hh. apply hitb_hit in Hh. destruct l; discriminate Hh.
Defined.

(** C7 as stated fails: ["Debug"] matches, without regard to case, the
    spellings of DEBUG and of no other level, and yet the level it gives
    is INFO. *)
Lemma mixed_case_is_not_matched :
  ~ (forall env_str l,
        matches_nocase env_str l = true ->
        (forall l', l' <> l -> matches_nocase env_str l' = false) ->
        LogLevelFromEnv (Some env_str) = l).
Proof.
  intros H.
  specialize (H (lit "Debug") LOG_LEVEL_DEBUG eq_refl).
  assert (E : LogLevelFromEnv (Some (lit "Debug")) = LOG_LEVEL_INFO) by reflexivity.
  rewrite H in E; [discriminate|].
  intros l' Hl'. destruct l'; try reflexivity. contradiction.
Qed.

End EnvFacts.

(** ** The print task *)

Module PrintFacts.

Lemma fprintf_plain (s : str) : ~ In percent s -> fprintf s = Some s.
Proof.
  induction s as [|c s IH]; intros H; [reflexivity|]. simpl.
  destruct (Ascii.eqb c percent) eqn:E.
  - apply Ascii.eqb_eq in E. exfalso. apply H. now left.
  - rewrite IH by (intros H'; apply H; now right). reflexivity.
Qed.

Lemma c_str_plain (s : str) : ~ In NUL s -> c_str s = s.
Proof.
  induction s as [|c s IH]; intros H; [reflexivity|]. simpl.
  destruct (Ascii.eqb c NUL) eqn:E.
  - apply Ascii.eqb_eq in E. exfalso. apply H. now left.
  - rewrite IH by (intros H'; apply H; now right). reflexivity.
Qed.

(** A line free of ['%'] and NUL reaches the stream as it was built. *)
Lemma print_func_plain (P : Platform) (fuel : nat) (d : LogData) (c : bool) (r : str) :
  _CreateLogStr P fuel d = Some r ->
  ~ In percent (log_str P c d r) -> ~ In NUL (log_str P c d r) ->
  print_func P fuel d c = Done (fd d, log_str P c d r).
Proof.
  intros H Hp Hn. unfold print_func. rewrite H.
  rewrite c_str_plain by exact Hn. now rewrite fprintf_plain.
Qed.

(** C9: the claim is that every executed print task writes its formatted
    line, newline-terminated, to the stream.  The task hands the line to
    [fprintf] as the format: for the message ["100%%"] the line built is
    ["100%%"] and the characters written are ["100%"] and the newline; for
    the message ["50% done"] the call reads an argument that was never
    passed. *)
Theorem percent_in_line_is_read_as_format :
  _CreateLogStr demo_platform 5 (percent_record "100%%") = Some (lit "100%%")
  /\ print_func demo_platform 5 (percent_record "100%%") true
     = Done (file 3, lit "100%" ++ newline)
  /\ _CreateLogStr demo_platform 5 (percent_record "50% done") = Some (lit "50% done")
  /\ print_func demo_platform 5 (percent_record "50% done") true = Undefined.
Proof. repeat split; reflexivity. Qed.

End PrintFacts.

(** ** Message ids *)

Module MsgIdFacts.

Import MsgId.

Local Open Scope Z_scope.

Lemma sorted_snoc (l : list Z) (x : Z) :
  StronglySorted Z.lt l -> Forall (fun y => y < x) l -> StronglySorted Z.lt (l ++ [x]).
Proof.
  induction 1 as [|a l Hs IH Ha]; intros Hx; simpl.
  - constructor; constructor.
  - apply Forall_cons_iff in Hx as [Hax Hx].
    constructor; [now apply IH|].
    apply Forall_app; split; [exact Ha|]. now constructor.
Qed.

Lemma good_init : good 0 init.
Proof.
  split; [unfold counter; simpl; lia|].
  intros t. split; constructor.
Qed.

Lemma good_step (n : Z) (s : state) (u : nat) :
  n + 1 < 2 ^ 64 -> good n s -> good (n + 1) (step s u).
Proof.
  intros Hn [Hc Hs]. unfold step.
  destruct (at_ s u) eqn:A.
  - (* _GetMsgId() *)
    split; [unfold counter in *; simpl; lia|].
    intros t. destruct (Hs t) as [Hsort Hb].
    unfold ids_of, bound, counter, move in *. simpl.
    rewrite filter_app, map_app. simpl.
    destruct (Nat.eqb u t) eqn:E.
    + apply Nat.eqb_eq in E. subst t. rewrite Nat.eqb_refl. simpl.
      rewrite A in Hb. split.
      * apply sorted_snoc; [exact Hsort|]. exact Hb.
      * apply Forall_app; split.
        -- eapply Forall_impl; [|exact Hb]. simpl. intros; lia.
        -- constructor; [unfold GetMsgId; lia|constructor].
    + rewrite Nat.eqb_sym, E. simpl. rewrite !app_nil_r. auto.
  - (* _IncMsgId() *)
    assert (Hmod : (msg_id_ (logger s) + 1) mod 2 ^ 64 = msg_id_ (logger s) + 1).
    { apply Z.mod_small. unfold counter in Hc. lia. }
    split; [unfold counter in *; simpl; unfold SIZE_MAX1; rewrite Hmod; lia|].
    intros t. destruct (Hs t) as [Hsort Hb].
    unfold ids_of, bound, counter, move in *. simpl. unfold SIZE_MAX1. rewrite Hmod.
    split; [exact Hsort|].
    eapply Forall_impl; [|exact Hb]. simpl. intros id Hid.
    destruct (Nat.eqb t u) eqn:E.
    + apply Nat.eqb_eq in E. subst t. rewrite A in Hid. lia.
    + destruct (at_ s t); lia.
Qed.

Lemma good_run (schedule : list nat) (n : Z) (s : state) :
  n + Z.of_nat (length schedule) < 2 ^ 64 -> good n s ->
  good (n + Z.of_nat (length schedule)) (run schedule s).
Proof.
  revert n s; induction schedule as [|u sch IH]; intros n s Hn Hg.
  - simpl. now rewrite Z.add_0_r.
  - unfold run. simpl fold_left. fold (run sch (step s u)).
    replace (n + Z.of_nat (length (u :: sch)))
      with ((n + 1) + Z.of_nat (length sch)) in * by (simpl length; lia).
    apply IH; [exact Hn|]. apply good_step; [lia|exact Hg].
Qed.

(** Within one thread the ids go up, as long as the counter has not
    wrapped. *)
Lemma ids_increase_per_thread (schedule : list nat) (t : nat) :
  Z.of_nat (length schedule) < 2 ^ 64 ->
  StronglySorted Z.lt (ids_of t (run schedule init)).
Proof.
  intros H. apply (good_run schedule 0 init H good_init).
Qed.

(** C5: the claim is that the ids of all records are pairwise distinct.
    Two threads that each run one logging macro, the second reading the
    counter before the first has incremented it, both get the id 0, while
    the counter ends at 2. *)
Theorem two_threads_read_the_same_id :
  ids (run [0; 1; 0; 1]%nat init) = [(0%nat, 0); (1%nat, 0)]
  /\ counter (run [0; 1; 0; 1]%nat init) = 2.
Proof. split; reflexivity. Qed.

End MsgIdFacts.

(** ** The queue, the worker, [Flush] and [Shutdown] *)

Module PipelineFacts.

Import Pipeline.

Lemma Inv_init : Inv init.
Proof.
  split; simpl; auto; try discriminate; try lia; try contradiction;
    intros [H|H]; discriminate.
Qed.

Ltac open_state s :=
  let lg := fresh "lg" in
  destruct s as [lg ? ? ? ? ? ? ? ? ?]; destruct lg;
  unfold tasks_out, exec_list_mutex_free, queue_mutex_free in *; simpl in *.

Ltac crunch :=
  repeat match goal with
         | H : match ?c with _ => _ end = Some _ |- _ =>
             destruct c eqn:?; simpl in H; try discriminate H
         | H : context [empty ?q] |- _ => is_var q; destruct q; simpl in H; try discriminate H
         end;
  repeat match goal with
         | H : Some _ = Some _ |- _ => injection H as <-
         | H : None = Some _ |- _ => discriminate H
         | H : _ \/ _ |- _ => destruct H
         | H : _ /\ _ |- _ => destruct H
         end;
  unfold tasks_out in *; simpl in *;
  repeat match goal with
         | H : ?x = ?x -> _ |- _ => specialize (H eq_refl)
         end;
  subst; simpl in *;
  repeat rewrite ?length_app, <- ?app_assoc in *; simpl in *;
  try solve [ auto | discriminate | congruence | lia
            | intuition (try discriminate; try congruence; try lia) ].

(** Every case of a step function. *)
Ltac cases H :=
  repeat match type of H with
         | context [match ?x with _ => _ end] => destruct x eqn:?
         end;
  try discriminate H; injection H as <-.

Lemma producer_step_Inv (t : Task) (s s' : State) :
  Inv s -> producer_step t s = Some s' -> Inv s'.
Proof.
  intros [] H. unfold producer_step, notify_one, queue_mutex_free in H. simpl in H.
  cases H; open_state s; subst; split; simpl; crunch.
Qed.

Lemma worker_step_Inv (P : Platform) (fuel : nat) (s s' : State) :
  Inv s -> worker_step P fuel s = Some s' -> Inv s'.
Proof.
  intros [] H. unfold worker_step, IsQueueEmpty, queue_mutex_free in H.
  cases H; open_state s; subst; split; simpl; crunch.
Qed.

Lemma flusher_step_Inv (s s' : State) :
  Inv s -> flusher_step s = Some s' -> Inv s'.
Proof.
  intros [] H.
  unfold flusher_step, IsQueueEmpty, IsExecListEmpty, notify_one,
    queue_mutex_free, exec_list_mutex_free in H.
  cases H; open_state s; subst; split; simpl; crunch.
Qed.

Lemma closer_step_Inv (s s' : State) :
  Inv s -> closer_step s = Some s' -> Inv s'.
Proof.
  intros [] H. unfold closer_step, notify_one in H.
  cases H; open_state s; subst; split; simpl; crunch.
Qed.

Lemma spurious_step_Inv (s s' : State) :
  Inv s -> spurious_step s = Some s' -> Inv s'.
Proof.
  intros [] H. unfold spurious_step in H.
  cases H; open_state s; subst; split; simpl; crunch.
Qed.

Lemma step_Inv (P : Platform) (e : Event) (s s' : State) :
  Inv s -> step P e s = Some s' -> Inv s'.
Proof.
  destruct e; simpl.
  - apply producer_step_Inv.
  - apply worker_step_Inv.
  - apply flusher_step_Inv.
  - apply closer_step_Inv.
  - apply spurious_step_Inv.
Qed.

Lemma run_Inv (P : Platform) (es : list Event) (s s' : State) :
  Inv s -> run P es s = Some s' -> Inv s'.
Proof.
  revert s; induction es as [|e es IH]; intros s HI H; simpl in H.
  - now injection H as <-.
  - destruct (step P e s) as [s1|] eqn:E; [|discriminate].
    eapply IH; [|exact H]. eapply step_Inv; eauto.
Qed.

Lemma reachable_Inv (P : Platform) (s : State) : reachable P s -> Inv s.
Proof. intros [es H]. eapply run_Inv; [apply Inv_init|exact H]. Qed.

Lemma prefix_firstn (n : nat) (a b : list Task) :
  n <= length a -> firstn n a = firstn n (a ++ b).
Proof.
  intros H. rewrite firstn_app. replace (n - length a) with 0 by lia.
  now rewrite firstn_O, app_nil_r.
Qed.

Lemma Event_eq_Flusher (e : Event) : e = Flusher \/ e <> Flusher.
Proof. destruct e; (now left) || (right; discriminate). Qed.

(** Only the thread in [Flush] moves the place of that thread. *)
Lemma flusher_moves_alone (P : Platform) (e : Event) (s s' : State) :
  step P e s = Some s' -> e <> Flusher -> flusher s' = flusher s.
Proof.
  intros H He. destruct e; simpl in H; try contradiction.
  - unfold producer_step, notify_one in H. simpl in H. cases H; reflexivity.
  - unfold worker_step, IsQueueEmpty in H. cases H; reflexivity.
  - unfold closer_step, notify_one in H. cases H; reflexivity.
  - unfold spurious_step in H. cases H; reflexivity.
Qed.

(** Only the worker's own step takes it out of [ProcessingLoop]. *)
Lemma worker_leaves_alone (P : Platform) (e : Event) (s s' : State) :
  step P e s = Some s' -> worker s <> W_exited -> worker s' = W_exited ->
  exists fuel, e = Worker fuel.
Proof.
  intros H Hw Hw'. destruct e; simpl in H.
  - exfalso. unfold producer_step, notify_one in H. simpl in H.
    cases H; simpl in *; congruence.
  - now exists fuel.
  - exfalso. unfold flusher_step, IsQueueEmpty, IsExecListEmpty, notify_one in H.
    cases H; simpl in *; congruence.
  - exfalso. unfold closer_step, notify_one in H. cases H; simpl in *; congruence.
  - exfalso. unfold spurious_step in H. cases H; simpl in *; congruence.
Qed.

(** C1: in every state the system reaches, the tasks run so far are an
    initial stretch of the tasks pushed, in the order of the pushes (none
    lost, none run twice); when [Flush] has returned, that stretch covers
    at least the tasks pushed before [Flush] was called, and all tasks
    pushed if none came later.  [Flush] returns only from the test of the
    execution list, with [IsExecListEmpty()] true, and it comes to that
    test only from the test of the queue, with [IsQueueEmpty()] true. *)
Theorem flush_returns_after_all_executed (P : Platform) (es : list Event) (s : State) :
  run P es init = Some s ->
  (flusher s = F_returned ->
     (exists later, enqueued s = executed s ++ later)
     /\ flush_from s <= length (executed s)
     /\ firstn (flush_from s) (executed s) = firstn (flush_from s) (enqueued s)
     /\ (length (enqueued s) = flush_from s -> executed s = enqueued s))
  /\ (forall e s', step P e s = Some s' ->
         flusher s <> F_returned -> flusher s' = F_returned ->
         e = Flusher /\ flusher s = F_test_exec /\ IsExecListEmpty s = Some true)
  /\ (forall e s', step P e s = Some s' ->
         flusher s <> F_test_exec -> flusher s' = F_test_exec ->
         e = Flusher /\ flusher s = F_test_queue /\ IsQueueEmpty s = Some true).
Proof.
  intros Hrun.
  assert (HI : Inv s) by (apply reachable_Inv with (P := P); now exists es).
  split; [|split].
  - intros Hf. destruct HI.
    pose proof (inv_flush_ret0 Hf) as Hn.
    repeat split.
    + eexists. exact inv_log0.
    + exact Hn.
    + rewrite inv_log0. now apply prefix_firstn.
    + intros Hlen. rewrite inv_log0 in Hlen |- *. rewrite length_app in Hlen.
      destruct (exec_list_ (logger s) ++ queue_ (logger s)); [now rewrite app_nil_r|].
      simpl in Hlen. lia.
  - intros e s' Hstep Hne Hret.
    assert (He : e = Flusher).
    { destruct e; try reflexivity; exfalso; apply Hne; rewrite <- Hret; symmetry;
        eapply flusher_moves_alone; eauto; discriminate. }
    subst e. split; [reflexivity|]. simpl in Hstep. unfold flusher_step in Hstep.
    destruct (flusher s) eqn:F; try (injection Hstep as <-; discriminate).
    + destruct (IsQueueEmpty s) as [[|]|]; try discriminate;
        injection Hstep as <-; discriminate.
    + destruct (IsExecListEmpty s) as [[|]|]; try discriminate;
        injection Hstep as <-; try discriminate. auto.
  - intros e s' Hstep Hne Hret.
    assert (He : e = Flusher).
    { destruct e; try reflexivity; exfalso; apply Hne; rewrite <- Hret; symmetry;
        eapply flusher_moves_alone; eauto; discriminate. }
    subst e. split; [reflexivity|]. simpl in Hstep. unfold flusher_step in Hstep.
    destruct (flusher s) eqn:F; try (injection Hstep as <-; discriminate).
    + destruct (IsQueueEmpty s) as [[|]|]; try discriminate;
        injection Hstep as <-; try discriminate. auto.
    + destruct (IsExecListEmpty s) as [[|]|]; try discriminate;
        injection Hstep as <-; discriminate.
Qed.

(** C3 (amended): the worker leaves [ProcessingLoop] only by a step of its
    own taken with [stop_loop_] set, the queue empty and the execution
    list empty; when a call of [Shutdown] has returned, the worker has
    left and the tasks not run are those still in the queue; and when
    that call is the first, the tasks pushed before it was made have all
    been run once each, in the order of their pushes. *)
Theorem worker_exit_and_first_shutdown (P : Platform) (es : list Event) (s : State) :
  run P es init = Some s ->
  (forall e s', step P e s = Some s' ->
      worker s <> W_exited -> worker s' = W_exited ->
      (exists fuel, e = Worker fuel) /\ stop_loop_ (logger s) = true
      /\ queue_ (logger s) = [] /\ exec_list_ (logger s) = [])
  /\ (closer s = S_returned ->
      worker s = W_exited
      /\ enqueued s = executed s ++ queue_ (logger s)
      /\ (shutdown_calls s = 1 ->
          shutdown_from s <= length (executed s)
          /\ firstn (shutdown_from s) (executed s)
             = firstn (shutdown_from s) (enqueued s))).
Proof.
  intros Hrun.
  assert (HI : Inv s) by (apply reachable_Inv with (P := P); now exists es).
  split.
  - intros e s' Hstep Hne Hex.
    destruct (worker_leaves_alone P e s s' Hstep Hne Hex) as [fuel ->].
    split; [now exists fuel|]. destruct HI. simpl in Hstep.
    unfold worker_step, IsQueueEmpty, queue_mutex_free in Hstep.
    destruct (worker s) eqn:W; try discriminate;
      repeat match type of Hstep with
             | context [match ?x with _ => _ end] => destruct x eqn:?
             end; try discriminate; injection Hstep as <-;
      simpl in Hex; try congruence.
    split; [apply inv_leaving0; now left|].
    split; [now destruct (queue_ (logger s))|].
    apply inv_exec0. unfold exec_list_mutex_free. now rewrite W.
  - intros Hc. destruct HI.
    pose proof (inv_joined0 Hc) as Hw.
    assert (Hl : exec_list_ (logger s) = []).
    { apply inv_exec0. unfold exec_list_mutex_free. now rewrite Hw. }
    rewrite Hl in inv_log0. simpl in inv_log0.
    repeat split; auto.
    + apply inv_exited0; [exact Hw|lia].
    + rewrite inv_log0. apply prefix_firstn. apply inv_exited0; [exact Hw|lia].
Qed.

Lemma flush_returns_after_all_executed_witness :
  run demo_platform flush_demo init = Some flush_demo_end
  /\ executed flush_demo_end = enqueued flush_demo_end.
Proof.
  assert (H : run demo_platform flush_demo init = Some flush_demo_end)
    by (vm_compute; reflexivity).
  split; [exact H|].
  apply (proj1 (flush_returns_after_all_executed demo_platform flush_demo
                  flush_demo_end H));
    reflexivity.
Defined.

Lemma worker_exit_and_first_shutdown_witness :
  run demo_platform shutdown_demo init = Some shutdown_demo_end
  /\ shutdown_from shutdown_demo_end <= length (executed shutdown_demo_end).
Proof.
  assert (H : run demo_platform shutdown_demo init = Some shutdown_demo_end)
    by (vm_compute; reflexivity).
  split; [exact H|].
  apply (proj2 (worker_exit_and_first_shutdown demo_platform shutdown_demo
                  shutdown_demo_end H));
    reflexivity.
Defined.

(** C3 as stated fails: a task pushed after the worker has left is still
    in the queue when a further call of [Shutdown] returns; that call
    finds [thread_] not joinable and returns at once. *)
Lemma second_shutdown_leaves_a_task_queued :
  run demo_platform shutdown_twice init = Some shutdown_twice_end
  /\ closer shutdown_twice_end = S_returned
  /\ shutdown_from shutdown_twice_end = 3
  /\ executed shutdown_twice_end = [demo_task 1; demo_task 2]
  /\ queue_ (logger shutdown_twice_end) = [demo_task 3]
  /\ ~ shutdown_from shutdown_twice_end <= length (executed shutdown_twice_end).
Proof.
  split; [vm_compute; reflexivity|].
  repeat split. simpl. lia.
Qed.

End PipelineFacts.

(** * Further properties *)

(** ** The queue and the worker at all times *)

Module PipelineMoreFacts.

Import Pipeline PipelineFacts PipelineMore.

(** X1: at every moment the tasks pushed so far are, in push order, the
    tasks already run, then the execution list, then the queue: no task is
    lost, run twice or overtaken. *)
Theorem tasks_leave_in_push_order (P : Platform) (es : list Event) (s : State) :
  run P es init = Some s ->
  enqueued s = executed s ++ exec_list_ (logger s) ++ queue_ (logger s).
Proof.
  intros H. apply (inv_log s). apply reachable_Inv with (P := P). now exists es.
Qed.

Lemma tasks_leave_in_push_order_witness :
  enqueued flush_demo_end
  = executed flush_demo_end ++ exec_list_ (logger flush_demo_end)
    ++ queue_ (logger flush_demo_end).
Proof.
  apply (tasks_leave_in_push_order demo_platform flush_demo). vm_compute. reflexivity.
Defined.

(** X2: [IsExecListEmpty()] never answers false: the worker holds
    [exec_list_mutex_] from the moment it fills the execution list until
    it has emptied it. *)
Theorem exec_list_never_seen_filled (P : Platform) (es : list Event) (s : State)
        (b : bool) :
  run P es init = Some s -> IsExecListEmpty s = Some b -> b = true.
Proof.
  intros H Hb.
  assert (HI : Inv s) by (apply reachable_Inv with (P := P); now exists es).
  unfold IsExecListEmpty in Hb.
  destruct (exec_list_mutex_free s) eqn:M; [|discriminate].
  rewrite (inv_exec s HI M) in Hb. now injection Hb as <-.
Qed.

Lemma exec_list_never_seen_filled_witness :
  IsExecListEmpty flush_demo_end = Some true.
Proof.
  destruct (IsExecListEmpty flush_demo_end) as [b|] eqn:E; [|discriminate].
  f_equal.
  apply (exec_list_never_seen_filled demo_platform flush_demo flush_demo_end b);
    [|exact E].
  vm_compute. reflexivity.
Defined.

(** X3: as long as [Shutdown] has not been called, [stop_loop_] is unset and
    the worker has neither left [ProcessingLoop] nor come to the test of
    the queue that could let it leave. *)
Theorem worker_stays_until_shutdown (P : Platform) (es : list Event) (s : State) :
  run P es init = Some s -> closer s = S_out ->
  worker s <> W_exited /\ worker s <> W_test_queue
  /\ stop_loop_ (logger s) = false.
Proof.
  intros H Hc.
  assert (HI : Inv s) by (apply reachable_Inv with (P := P); now exists es).
  destruct HI.
  assert (Hs : stop_loop_ (logger s) = false).
  { destruct (stop_loop_ (logger s)) eqn:E; [|reflexivity].
    exfalso. now apply inv_stop0. }
  repeat split; auto; intros Hw.
  - rewrite inv_leaving0 in Hs by now right. discriminate.
  - rewrite inv_leaving0 in Hs by now left. discriminate.
Qed.

Lemma worker_stays_until_shutdown_witness :
  worker flush_demo_end <> W_exited /\ worker flush_demo_end <> W_test_queue
  /\ stop_loop_ (logger flush_demo_end) = false.
Proof.
  apply (worker_stays_until_shutdown demo_platform flush_demo).
  - vm_compute. reflexivity.
  - reflexivity.
Defined.

(** After the worker has left. *)
Lemma step_after_exit (P : Platform) (e : Event) (s s' : State) :
  worker s = W_exited -> step P e s = Some s' ->
  worker s' = W_exited /\ executed s' = executed s
  /\ exec_list_ (logger s') = exec_list_ (logger s)
  /\ exists more, queue_ (logger s') = queue_ (logger s) ++ more
                  /\ enqueued s' = enqueued s ++ more.
Proof.
  intros W H. destruct e; simpl in H.
  - unfold producer_step, notify_one in H. simpl in H. rewrite W in H.
    cases H. simpl. repeat split; auto. now exists [t].
  - unfold worker_step in H. rewrite W in H. discriminate.
  - unfold flusher_step, IsQueueEmpty, IsExecListEmpty, notify_one in H.
    rewrite W in H.
    cases H; simpl; (repeat split; auto; exists []; now rewrite !app_nil_r).
  - unfold closer_step, notify_one in H. rewrite W in H.
    cases H; simpl; (repeat split; auto; exists []; now rewrite !app_nil_r).
  - unfold spurious_step in H. rewrite W in H. discriminate.
Qed.

(** X4: once the worker has left [ProcessingLoop], whatever the threads do,
    no further task is run: tasks pushed from then on stay in the queue. *)
Theorem tasks_pushed_after_exit_never_run (P : Platform) (es : list Event)
        (s s' : State) :
  worker s = W_exited -> run P es s = Some s' ->
  worker s' = W_exited /\ executed s' = executed s
  /\ exists more, queue_ (logger s') = queue_ (logger s) ++ more
                  /\ enqueued s' = enqueued s ++ more.
Proof.
  revert s; induction es as [|e es IH]; intros s W H; simpl in H.
  - injection H as <-. repeat split; auto. exists []. now rewrite !app_nil_r.
  - destruct (step P e s) as [s1|] eqn:E; [|discriminate].
    destruct (step_after_exit P e s s1 W E) as (W1 & X1 & _ & m1 & Q1 & N1).
    destruct (IH s1 W1 H) as (W2 & X2 & m2 & Q2 & N2).
    repeat split; [exact W2|congruence|].
    exists (m1 ++ m2). rewrite Q2, N2, Q1, N1. now rewrite !app_assoc.
Qed.

Lemma tasks_pushed_after_exit_never_run_witness :
  exists s', run demo_platform [Producer (demo_task 3); Flusher; Flusher]
               shutdown_demo_end = Some s'
             /\ executed s' = executed shutdown_demo_end.
Proof.
  destruct (run demo_platform [Producer (demo_task 3); Flusher; Flusher] shutdown_demo_end)
    as [s'|] eqn:E; [|vm_compute in E; discriminate].
  exists s'. split; [reflexivity|].
  apply (tasks_pushed_after_exit_never_run demo_platform _ shutdown_demo_end s' eq_refl E).
Defined.

Lemma step_stuck_flush (P : Platform) (e : Event) (s s' : State) :
  worker s = W_exited -> queue_ (logger s) <> [] -> polling (flusher s) ->
  step P e s = Some s' ->
  worker s' = W_exited /\ queue_ (logger s') <> [] /\ polling (flusher s').
Proof.
  intros W Q F H.
  destruct (step_after_exit P e s s' W H) as (W' & _ & _ & more & Q' & _).
  split; [exact W'|]. split.
  - rewrite Q'. destruct (queue_ (logger s)); [contradiction|discriminate].
  - destruct (Event_eq_Flusher e) as [->|He].
    + simpl in H.
      unfold flusher_step, IsQueueEmpty, queue_mutex_free, notify_one in H.
      rewrite W in H.
      destruct F as [F|[F|F]]; rewrite F in H.
      * injection H as <-. right; left; reflexivity.
      * injection H as <-. right; right; reflexivity.
      * destruct (queue_ (logger s)); [contradiction|].
        injection H as <-. right; left; reflexivity.
    + rewrite (flusher_moves_alone P e s s' H He). exact F.
Qed.

(** X5: once the worker has left with a task still queued, a [Flush] called
    then never returns, whatever the threads do: its test of the queue
    fails every time. *)
Theorem flush_after_exit_never_returns (P : Platform) (es : list Event)
        (s s' : State) :
  worker s = W_exited -> queue_ (logger s) <> [] -> flusher s = F_out ->
  run P es s = Some s' -> flusher s' <> F_returned.
Proof.
  intros W Q F H.
  assert (G : worker s' = W_exited /\ queue_ (logger s') <> [] /\ polling (flusher s')).
  { assert (P0 : polling (flusher s)) by (left; exact F). clear F.
    revert s W Q P0 H; induction es as [|e es IH]; intros s W Q P0 H; simpl in H.
    - injection H as <-. auto.
    - destruct (step P e s) as [s1|] eqn:E; [|discriminate].
      destruct (step_stuck_flush P e s s1 W Q P0 E) as (W1 & Q1 & P1).
      now apply (IH s1). }
  destruct G as (_ & _ & [G|[G|G]]); rewrite G; discriminate.
Qed.

Example late_push_reached :
  run demo_platform (shutdown_demo ++ [Producer (demo_task 3)]) init = Some late_push.
Proof. vm_compute. reflexivity. Qed.

Example busy_reached : run demo_platform Progress.busy_run init = Some Progress.busy.
Proof. vm_compute. reflexivity. Qed.

Lemma flush_after_exit_never_returns_witness :
  exists s', run demo_platform [Flusher; Flusher; Flusher; Flusher; Flusher] late_push
             = Some s'
             /\ flusher s' <> F_returned.
Proof.
  destruct (run demo_platform [Flusher; Flusher; Flusher; Flusher; Flusher] late_push)
    as [s'|] eqn:E; [|vm_compute in E; discriminate].
  exists s'. split; [reflexivity|].
  apply (flush_after_exit_never_returns demo_platform _ late_push s' eq_refl
           ltac:(discriminate) eq_refl E).
Defined.

End PipelineMoreFacts.

Module ProgressFacts.

Import Pipeline PipelineFacts Progress.

Lemma run_app (P : Platform) (a b : list Event) (s : State) :
  run P (a ++ b) s = match run P a s with Some s' => run P b s' | None => None end.
Proof.
  revert s; induction a as [|e a IH]; intros s; [reflexivity|].
  simpl. destruct (step P e s); [apply IH|reflexivity].
Qed.

Section Alone.

Variable P : Platform.

Lemma worker_runs_add (n m : list nat) (s s1 s2 : State) :
  worker_runs P n s = Some s1 -> worker_runs P m s1 = Some s2 ->
  worker_runs P (n ++ m) s = Some s2.
Proof.
  unfold worker_runs. intros H1 H2. now rewrite map_app, run_app, H1.
Qed.

Lemma worker_runs_S (fuel : nat) (n : list nat) (s s1 s2 : State) :
  worker_step P fuel s = Some s1 -> worker_runs P n s1 = Some s2 ->
  worker_runs P (fuel :: n) s = Some s2.
Proof. unfold worker_runs. simpl. now intros ->. Qed.

Lemma completes_returns (fuel : nat) (t : Task) :
  completes P fuel t = true -> returns P fuel t = true.
Proof.
  destruct t as [d c|f]; [|reflexivity]. unfold completes, returns, print_func.
  now destruct (_CreateLogStr P fuel d).
Qed.

(** The second inner loop runs the execution list to its end, when the
    call of each of its tasks returns. *)
Lemma exec_phase (l : list Task) (s : State) :
  worker s = W_exec -> exec_list_ (logger s) = l ->
  (forall t, In t l -> exists fuel, completes P fuel t = true) ->
  exists n s', worker_runs P n s = Some s' /\ worker s' = W_test_stop
               /\ executed s' = executed s ++ l
               /\ exec_list_ (logger s') = []
               /\ queue_ (logger s') = queue_ (logger s)
               /\ enqueued s' = enqueued s
               /\ stop_loop_ (logger s') = stop_loop_ (logger s).
Proof.
  revert s; induction l as [|t l IH]; intros s W L Hr.
  - exists [0], (with_worker W_test_stop s). repeat split; simpl; auto.
    + unfold worker_runs. simpl. unfold worker_step. now rewrite W, L.
    + now rewrite app_nil_r.
  - destruct (Hr t (or_introl eq_refl)) as [fuel Hf].
    destruct (IH {| logger := set_exec_list l (logger s); worker := W_exec;
                    flusher := flusher s; closer := closer s; joinable := joinable s;
                    enqueued := enqueued s; executed := executed s ++ [t];
                    flush_from := flush_from s; shutdown_from := shutdown_from s;
                    shutdown_calls := shutdown_calls s |}
                 eq_refl eq_refl)
      as (n & s' & Hrun & Hw & He & Hl & Hq & Hn & Hs).
    { intros t' Hin. apply Hr. now right. }
    exists (fuel :: n), s'. simpl in *. repeat split; auto.
    + eapply worker_runs_S; [|exact Hrun]. unfold worker_step.
      now rewrite W, L, (completes_returns fuel t Hf).
    + rewrite He. now rewrite <- app_assoc.
Qed.

(** The first inner loop moves the whole queue to the execution list. *)
Lemma drain_phase (q : list Task) (s : State) :
  worker s = W_drain -> queue_ (logger s) = q ->
  exists n s', worker_runs P n s = Some s' /\ worker s' = W_exec
               /\ executed s' = executed s
               /\ exec_list_ (logger s') = exec_list_ (logger s) ++ q
               /\ queue_ (logger s') = []
               /\ enqueued s' = enqueued s
               /\ stop_loop_ (logger s') = stop_loop_ (logger s).
Proof.
  revert s; induction q as [|t q IH]; intros s W Q.
  - exists [0], (with_worker W_exec s). repeat split; simpl; auto.
    + unfold worker_runs. simpl. unfold worker_step. now rewrite W, Q.
    + now rewrite app_nil_r.
  - destruct (IH (with_logger
                    (set_queue q (set_exec_list (exec_list_ (logger s) ++ [t]) (logger s)))
                    s) W eq_refl)
      as (n & s' & Hr & Hw & He & Hl & Hq & Hn & Hs).
    exists (0 :: n), s'. simpl in *. repeat split; auto.
    + eapply worker_runs_S; [|exact Hr]. unfold worker_step. now rewrite W, Q.
    + rewrite Hl. now rewrite <- app_assoc.
Qed.

(** From the drain to the end of the round. *)
Lemma round_from_drain (s : State) :
  worker s = W_drain -> pending_complete P s ->
  exists n s', worker_runs P n s = Some s' /\ settled s s'.
Proof.
  intros W Hr.
  destruct (drain_phase _ s W eq_refl) as (n1 & s1 & R1 & W1 & E1 & L1 & Q1 & N1 & _).
  destruct (exec_phase _ s1 W1 eq_refl) as (n2 & s2 & R2 & W2 & E2 & L2 & Q2 & N2 & _).
  { rewrite L1. exact Hr. }
  exists (n1 ++ n2), s2. split; [eapply worker_runs_add; eauto|].
  unfold settled. rewrite E2, E1, L1, L2, Q2, Q1, N2, N1. auto.
Qed.

Lemma settled_step (s s1 s2 : State) :
  executed s1 = executed s -> exec_list_ (logger s1) = exec_list_ (logger s) ->
  queue_ (logger s1) = queue_ (logger s) -> enqueued s1 = enqueued s ->
  settled s1 s2 -> settled s s2.
Proof. unfold settled. intros -> -> -> ->. auto. Qed.

Lemma round_from_locked (s : State) :
  worker s = W_locked -> pending_complete P s ->
  exists n s', worker_runs P n s = Some s' /\ settled s s'.
Proof.
  intros W Hr.
  destruct (round_from_drain (with_worker W_drain s) eq_refl Hr) as (n & s' & R & H).
  exists (0 :: n), s'. split.
  - eapply worker_runs_S; [|exact R]. unfold worker_step. now rewrite W.
  - eapply settled_step; [| | | |exact H]; reflexivity.
Qed.

Lemma round_from_wait (s : State) :
  worker s = W_wait -> queue_ (logger s) <> [] -> pending_complete P s ->
  exists n s', worker_runs P n s = Some s' /\ settled s s'.
Proof.
  intros W Q Hr.
  destruct (round_from_locked (with_worker W_locked s) eq_refl Hr) as (n & s' & R & H).
  exists (0 :: n), s'. split.
  - eapply worker_runs_S; [|exact R]. unfold worker_step. rewrite W.
    destruct (queue_ (logger s)); [contradiction|reflexivity].
  - eapply settled_step; [| | | |exact H]; reflexivity.
Qed.

Lemma round_from_test_queue (s : State) :
  worker s = W_test_queue -> queue_ (logger s) <> [] -> pending_complete P s ->
  exists n s', worker_runs P n s = Some s' /\ settled s s'.
Proof.
  intros W Q Hr.
  destruct (round_from_wait (with_worker W_wait s) eq_refl Q Hr) as (n & s' & R & H).
  exists (0 :: n), s'. split.
  - eapply worker_runs_S; [|exact R].
    unfold worker_step, IsQueueEmpty, queue_mutex_free. rewrite W.
    destruct (queue_ (logger s)); [contradiction|reflexivity].
  - eapply settled_step; [| | | |exact H]; reflexivity.
Qed.

Lemma round_from_test_stop (s : State) :
  worker s = W_test_stop -> queue_ (logger s) <> [] -> pending_complete P s ->
  exists n s', worker_runs P n s = Some s' /\ settled s s'.
Proof.
  intros W Q Hr. destruct (stop_loop_ (logger s)) eqn:St.
  - destruct (round_from_test_queue (with_worker W_test_queue s) eq_refl Q Hr)
      as (n & s' & R & H).
    exists (0 :: n), s'. split.
    + eapply worker_runs_S; [|exact R]. unfold worker_step. now rewrite W, St.
    + eapply settled_step; [| | | |exact H]; reflexivity.
  - destruct (round_from_wait (with_worker W_wait s) eq_refl Q Hr) as (n & s' & R & H).
    exists (0 :: n), s'. split.
    + eapply worker_runs_S; [|exact R]. unfold worker_step. now rewrite W, St.
    + eapply settled_step; [| | | |exact H]; reflexivity.
Qed.

Lemma settled_at_rest (s : State) :
  Inv s -> exec_list_mutex_free s = true -> queue_ (logger s) = [] ->
  exists n s', worker_runs P n s = Some s' /\ settled s s'.
Proof.
  intros HI M Q. exists [], s. split; [reflexivity|]. unfold settled.
  rewrite (inv_exec s HI M), Q, !app_nil_r. auto.
Qed.

End Alone.

(** X6: from every state the system reaches in which the worker has not
    left, and in which every task that waits in the execution list or in
    the queue is one whose call returns with its line written, the
    worker's own steps lead to a state in which every task pushed so far
    has been run and both the queue and the execution list are empty. *)
Theorem worker_left_alone_runs_all_tasks (P : Platform) (es : list Event) (s : State) :
  run P es init = Some s -> worker s <> W_exited -> pending_complete P s ->
  exists fuels s', worker_runs P fuels s = Some s'
                   /\ executed s' = enqueued s /\ enqueued s' = enqueued s
                   /\ exec_list_ (logger s') = [] /\ queue_ (logger s') = [].
Proof.
  intros Hrun Hw Hr.
  assert (HI : Inv s) by (apply reachable_Inv with (P := P); now exists es).
  assert (G : exists n s', worker_runs P n s = Some s' /\ settled s s').
  { destruct (queue_ (logger s)) as [|t q] eqn:Q.
    - destruct (worker s) eqn:W; try contradiction;
        try (apply settled_at_rest; auto; unfold exec_list_mutex_free; now rewrite W).
      + now apply round_from_drain.
      + destruct (exec_phase P _ s W eq_refl) as (n & s' & R & _ & E & L & Q' & N & _).
        { intros t Hin. apply Hr. apply in_or_app. now left. }
        exists n, s'. split; [exact R|]. unfold settled.
        rewrite E, L, Q', N, Q, app_nil_r. auto.
    - assert (Q' : queue_ (logger s) <> []) by (rewrite Q; discriminate).
      destruct (worker s) eqn:W; try contradiction.
      + now apply round_from_wait.
      + exfalso. apply Q'. apply (inv_asleep s HI). now left.
      + exfalso. apply Q'. apply (inv_asleep s HI). now right.
      + now apply round_from_locked.
      + now apply round_from_drain.
      + (* in the second loop with a filled queue: finish, then one more round *)
        destruct (exec_phase P _ s W eq_refl) as (n1 & s1 & R1 & W1 & E1 & L1 & Q1 & N1 & _).
        { intros t' Hin. apply Hr. apply in_or_app. now left. }
        destruct (round_from_test_stop P s1 W1) as (n2 & s2 & R2 & H2).
        { now rewrite Q1. }
        { intros t' Hin. rewrite L1, Q1 in Hin. apply Hr. apply in_or_app. now right. }
        exists (n1 ++ n2), s2. split; [eapply worker_runs_add; eauto|].
        unfold settled in *. rewrite E1, L1, Q1, N1 in H2.
        destruct H2 as (X & Y & Z & V). rewrite X, app_nil_l, <- app_assoc. auto.
      + now apply round_from_test_stop.
      + now apply round_from_test_queue. }
  destruct G as (n & s' & R & X & Y & Z & V).
  exists n, s'. rewrite V, (inv_log s HI). repeat split; auto.
Qed.

Lemma worker_left_alone_runs_all_tasks_witness :
  exists fuels s', worker_runs demo_platform fuels busy = Some s'
                   /\ executed s' = enqueued busy
                   /\ enqueued s' = enqueued busy
                   /\ exec_list_ (logger s') = [] /\ queue_ (logger s') = [].
Proof.
  apply (worker_left_alone_runs_all_tasks demo_platform busy_run busy).
  - vm_compute. reflexivity.
  - discriminate.
  - intros t Hin. exists 2. simpl in Hin.
    destruct Hin as [<-|[<-|[]]]; vm_compute; reflexivity.
Defined.

(** While the worker is inside a task that does not return. *)
Lemma step_inside_task (P : Platform) (e : Event) (s s' : State) (t : Task)
      (l : list Task) :
  worker s = W_exec -> exec_list_ (logger s) = t :: l ->
  (forall fuel, returns P fuel t = false) ->
  flusher s <> F_returned -> closer s <> S_returned -> joinable s = true ->
  step P e s = Some s' ->
  (worker s' = W_exec /\ exec_list_ (logger s') = t :: l)
  /\ executed s' = executed s
  /\ flusher s' <> F_returned /\ closer s' <> S_returned /\ joinable s' = true.
Proof.
  intros W L Hr F C J H. destruct e; simpl in H.
  - unfold producer_step, notify_one, queue_mutex_free in H. simpl in H. rewrite W in H.
    injection H as <-. simpl. auto.
  - unfold worker_step in H. rewrite W, L, Hr in H. discriminate.
  - unfold flusher_step, IsQueueEmpty, IsExecListEmpty, notify_one,
      queue_mutex_free, exec_list_mutex_free in H.
    rewrite W in H. cases H; simpl; repeat split; auto; discriminate.
  - unfold closer_step, notify_one in H. rewrite W, J in H.
    cases H; simpl; repeat split; auto; try discriminate; contradiction.
  - unfold spurious_step in H. rewrite W in H. discriminate.
Qed.

(** X22: when the worker calls a task that does not return (a print task
    whose substitution loop does not end is one), the logger stays as it
    is for good, whatever the other threads do: no task is run any more,
    the tasks behind stay in the execution list and in the queue, a
    [Flush] does not return and a [Shutdown] does not return. *)
Theorem task_that_hangs_stops_the_logger (P : Platform) (es : list Event)
        (s s' : State) (t : Task) (l : list Task) :
  worker s = W_exec -> exec_list_ (logger s) = t :: l ->
  (forall fuel, returns P fuel t = false) ->
  flusher s <> F_returned -> closer s <> S_returned -> joinable s = true ->
  run P es s = Some s' ->
  (worker s' = W_exec /\ exec_list_ (logger s') = t :: l)
  /\ executed s' = executed s
  /\ flusher s' <> F_returned /\ closer s' <> S_returned.
Proof.
  revert s; induction es as [|e es IH]; intros s W L Hr F C J H; simpl in H.
  - injection H as <-. auto.
  - destruct (step P e s) as [s1|] eqn:E; [|discriminate].
    destruct (step_inside_task P e s s1 t l W L Hr F C J E)
      as ((W1 & L1) & X1 & F1 & C1 & J1).
    destruct (IH s1 W1 L1 Hr F1 C1 J1 H) as (WL & X2 & F2 & C2).
    repeat split; try tauto. congruence.
Qed.

Lemma hang_task_never_returns (fuel : nat) : returns demo_platform fuel hang_task = false.
Proof.
  unfold returns, hang_task.
  rewrite FormatFacts.own_token_never_returns; [reflexivity| |]; exists [], []; reflexivity.
Qed.

Example stuck_reached : run demo_platform stuck_run init = Some stuck.
Proof. vm_compute. reflexivity. Qed.

Lemma task_that_hangs_stops_the_logger_witness :
  exists s', run demo_platform
               [Producer (demo_task 3); Flusher; Flusher; Closer; Closer; Flusher] stuck
             = Some s'
             /\ executed s' = [] /\ flusher s' <> F_returned /\ closer s' <> S_returned.
Proof.
  destruct (run demo_platform
              [Producer (demo_task 3); Flusher; Flusher; Closer; Closer; Flusher] stuck)
    as [s'|] eqn:E; [|vm_compute in E; discriminate].
  exists s'. split; [reflexivity|].
  apply (task_that_hangs_stops_the_logger demo_platform _ stuck s' hang_task
           [demo_task 2] eq_refl eq_refl hang_task_never_returns
           ltac:(discriminate) ltac:(discriminate) eq_refl E).
Defined.

(** The wake-up [Shutdown] sends can be lost: the worker sleeps with
    [stop_loop_] set, and neither it nor the thread in [join] has a
    step. *)
Example lost_wakeup_reached :
  run demo_platform lost_wakeup_run init = Some lost_wakeup.
Proof. vm_compute. reflexivity. Qed.

Example lost_wakeup_stuck (fuel : nat) :
  step demo_platform (Worker fuel) lost_wakeup = None
  /\ step demo_platform Closer lost_wakeup = None.
Proof. split; reflexivity. Qed.

End ProgressFacts.

(** ** Closing a stream, and what every call does *)

Module LoggerMoreFacts.

Import LoggerMore.

(** X7: [CloseFileDesc] adds at most one task, at the tail of the queue. It
    never queues the closing of [stdin], [stdout] or [stderr]; for any
    other stream, given or (with [nullptr]) the logger's own, it queues
    its closing; and it leaves [fd_] as it was. *)
Theorem standard_streams_are_never_closed (fd : option FILE) (lg : Logger) :
  (exists more, queue_ (CloseFileDesc fd lg) = queue_ lg ++ more /\ length more <= 1)
  /\ (forall f, In (close_func f) (queue_ (CloseFileDesc fd lg)) ->
                In (close_func f) (queue_ lg) \/ exists n, f = file n)
  /\ (forall n, fd = Some (file n) \/ (fd = None /\ fd_ lg = file n) ->
                queue_ (CloseFileDesc fd lg) = queue_ lg ++ [close_func (file n)])
  /\ fd_ (CloseFileDesc fd lg) = fd_ lg.
Proof.
  unfold CloseFileDesc.
  destruct fd as [[| | |n]|]; [| | | |destruct (fd_ lg) as [| | |n] eqn:E]; simpl;
    repeat split;
    try (exists []; rewrite app_nil_r; split; [reflexivity|simpl; lia]);
    try (eexists [_]; split; [reflexivity|simpl; lia]);
    try (intros f Hf; auto;
         apply in_app_or in Hf as [Hf|[Hf|[]]]; [now left|];
         injection Hf as <-; right; eauto);
    try (intros m [H|[H H']]; try discriminate; try congruence;
         injection H as <-; reflexivity);
    auto.
Qed.

(** Every macro, written out. *)
Lemma log_macro_eq (value : LogLevel -> Z) (l : LogLevel) (cs : CallSite) (lg : Logger) :
  log_macro value l cs lg
  = if match l with LOG_LEVEL_CRITICAL => true | _ => (value (level_ lg) >=? value l)%Z end
    then EnqueueTask (print_task (stamped l cs lg) (is_colored_ lg)) (IncMsgId lg)
    else IncMsgId lg.
Proof. destruct l; reflexivity. Qed.

(** X9: every logging macro, whether it queues its record or not, adds one
    to the message-id counter (modulo 2^64) and changes no setting; the
    record it queues, if any, carries the counter as it was before the
    call and the template, stream and colour flag of that moment. *)
Theorem every_call_counts_once (value : LogLevel -> Z) (l : LogLevel)
        (cs : CallSite) (lg : Logger) :
  let lg' := log_macro value l cs lg in
  msg_id_ lg' = ((msg_id_ lg + 1) mod 2 ^ 64)%Z
  /\ level_ lg' = level_ lg /\ is_colored_ lg' = is_colored_ lg
  /\ format_str_ lg' = format_str_ lg /\ fd_ lg' = fd_ lg
  /\ stop_loop_ lg' = stop_loop_ lg /\ exec_list_ lg' = exec_list_ lg
  /\ (queue_ lg' = queue_ lg
      \/ queue_ lg' = queue_ lg ++ [print_task (stamped l cs lg) (is_colored_ lg)]).
Proof.
  intros lg'. subst lg'. rewrite log_macro_eq.
  destruct (match l with LOG_LEVEL_CRITICAL => true | _ => _ end); simpl;
    repeat split; auto.
Qed.

Lemma c_str_prefix (s : str) : exists rest, s = c_str s ++ rest.
Proof.
  induction s as [|c s [rest IH]]; [now exists []|]. simpl.
  destruct (Ascii.eqb c NUL).
  - now exists (c :: s).
  - exists rest. simpl. now rewrite <- IH.
Qed.

Lemma c_str_no_NUL (s : str) : ~ In NUL (c_str s).
Proof.
  induction s as [|c s IH]; [intros []|]. simpl.
  destruct (Ascii.eqb c NUL) eqn:E; [intros []|].
  intros [H|H]; [|auto]. subst c. now rewrite Ascii.eqb_refl in E.
Qed.

Lemma c_str_length (s : str) : length (c_str s) <= length s.
Proof.
  induction s as [|c s IH]; [apply Nat.le_refl|]. simpl.
  destruct (Ascii.eqb c NUL); simpl; lia.
Qed.

(** X10: the message of a record is the text [printf] made, cut to 511
    characters (and at a NUL): never longer, always a leading part of the
    text, and the text itself when that has at most 511 characters. *)
Theorem message_is_cut_at_511 (cs : CallSite) :
  length (yeti_msg cs) <= 511
  /\ ~ In NUL (yeti_msg cs)
  /\ (exists rest, cs_text cs = yeti_msg cs ++ rest)
  /\ (length (cs_text cs) <= 511 -> ~ In NUL (cs_text cs) -> yeti_msg cs = cs_text cs).
Proof.
  unfold yeti_msg, MAX_MSG_LENGTH. simpl Nat.sub.
  repeat split.
  - eapply Nat.le_trans; [apply c_str_length|]. apply firstn_le_length.
  - apply c_str_no_NUL.
  - destruct (c_str_prefix (firstn 511 (cs_text cs))) as [rest E].
    exists (rest ++ skipn 511 (cs_text cs)).
    rewrite app_assoc, <- E. symmetry. apply firstn_skipn.
  - intros Hl Hn. rewrite firstn_all2 by exact Hl. now apply PrintFacts.c_str_plain.
Qed.

Lemma message_is_cut_at_511_witness :
  yeti_msg demo_site = lit "started".
Proof.
  apply (proj2 (proj2 (proj2 (message_is_cut_at_511 demo_site)))).
  - simpl. lia.
  - cbv. intuition discriminate.
Defined.

(** X8: after [CloseFileDesc(nullptr)] on a logger that writes to a stream
    of its own, a logging call that passes the level test queues, behind
    the closing of that stream, a record that is still to be written to
    it. *)
Theorem log_after_close_goes_to_closed_stream (value : LogLevel -> Z) (l : LogLevel)
        (cs : CallSite) (lg : Logger) (n : nat) :
  fd_ lg = file n ->
  match l with LOG_LEVEL_CRITICAL => true | _ => (value (level_ lg) >=? value l)%Z end = true ->
  exists d, queue_ (log_macro value l cs (CloseFileDesc None lg))
            = queue_ lg ++ [close_func (file n); print_task d (is_colored_ lg)]
            /\ fd d = file n.
Proof.
  intros Hfd Hpass. rewrite log_macro_eq.
  unfold CloseFileDesc. rewrite Hfd. simpl level_. rewrite Hpass. simpl.
  eexists. rewrite <- app_assoc. simpl. split; [reflexivity|]. simpl. exact Hfd.
Qed.

Lemma log_after_close_goes_to_closed_stream_witness :
  exists d, queue_ (log_macro from_zero LOG_LEVEL_INFO demo_site
                      (CloseFileDesc None (SetFormatStr (lit "%(MSG)")
                         {| stop_loop_ := false; is_colored_ := true;
                            level_ := LOG_LEVEL_INFO; msg_id_ := 0;
                            format_str_ := []; fd_ := file 3;
                            queue_ := []; exec_list_ := [] |})))
            = [] ++ [close_func (file 3); print_task d true]
            /\ fd d = file 3.
Proof.
  apply (log_after_close_goes_to_closed_stream from_zero LOG_LEVEL_INFO demo_site
           (SetFormatStr (lit "%(MSG)")
              {| stop_loop_ := false; is_colored_ := true;
                 level_ := LOG_LEVEL_INFO; msg_id_ := 0;
                 format_str_ := []; fd_ := file 3;
                 queue_ := []; exec_list_ := [] |}) 3); reflexivity.
Defined.

End LoggerMoreFacts.

(** ** The table of the format engine and values that hold tokens *)

Module FormatMoreFacts.

Import FormatFacts FormatMore.

Lemma in_subs_spec (d : LogData) (t : token) :
  in_subs d t = true <-> always t \/ occurs (token_text t) (log_format d).
Proof.
  unfold in_subs, always. split.
  - destruct t; intros H; try (left; tauto);
      right; (destruct (find _ (log_format d)) as [p|] eqn:E; [|discriminate]);
      eapply occurs_find; exact E.
  - intros [H|H].
    + destruct H as [-> | [-> | [-> | ->]]]; reflexivity.
    + destruct (find_occurs _ _ H) as [p E]. rewrite E. now destruct t.
Qed.

Lemma rank_text (t t' : token) :
  token_rank t < token_rank t' -> str_ltb (token_text t) (token_text t') = true.
Proof. destruct t, t'; simpl; intros H; try lia; reflexivity. Qed.

Lemma sorted_map {A B} (R : A -> A -> Prop) (S : B -> B -> Prop) (f : A -> B)
      (l : list A) :
  (forall a b, R a b -> S (f a) (f b)) ->
  StronglySorted R l -> StronglySorted S (map f l).
Proof.
  intros HRS. induction 1 as [|a l Hs IH Ha]; simpl; constructor; [exact IH|].
  apply Forall_forall. intros y Hy. apply in_map_iff in Hy as (x & <- & Hx).
  apply HRS. eapply Forall_forall in Ha; eauto.
Qed.

(** X11: the table [subs] holds an entry for a token, with the token's
    value, exactly when the token is LEVEL, FILENAME, FUNCNAME or MSG or
    occurs in the template; its keys, which give the order of the loops,
    go up strictly. *)
Theorem table_holds_what_the_template_shows (P : Platform) (d : LogData) :
  (forall k v, In (k, v) (build_subs P d) <->
               exists t, k = token_text t /\ v = token_value P d t
                         /\ (always t \/ occurs (token_text t) (log_format d)))
  /\ StronglySorted key_lt (build_subs P d).
Proof.
  split.
  - intros k v. split.
    + intros H. apply build_subs_entries in H as (t & -> & -> & H).
      exists t. repeat split. now apply in_subs_spec.
    + intros (t & -> & -> & H). rewrite build_subs_eq.
      apply in_map_iff. exists t. split; [reflexivity|].
      apply filter_In. split; [destruct t; cbv; tauto|now apply in_subs_spec].
  - rewrite build_subs_eq.
    apply sorted_map with (R := fun t t' => token_rank t < token_rank t').
    + intros a b H. unfold key_lt. simpl. now apply rank_text.
    + apply sorted_filter. apply all_tokens_sorted.
Qed.

(** X12: for any of the ten tokens, when the template holds the token and
    the token's value holds the token's text, [_CreateLogStr] does not
    return, whatever the fuel. *)
Theorem value_holding_its_own_token_hangs (P : Platform) (d : LogData) (t : token)
        (fuel : nat) :
  occurs (token_text t) (log_format d) ->
  occurs (token_text t) (token_value P d t) ->
  _CreateLogStr P fuel d = None.
Proof.
  intros Hf Hm. unfold _CreateLogStr.
  assert (Hin : In (token_text t, token_value P d t) (build_subs P d)).
  { rewrite build_subs_eq. apply in_map_iff. exists t. split; [reflexivity|].
    apply filter_In. split; [destruct t; cbv; tauto|].
    apply in_subs_spec. now right. }
  assert (Hkeys : forall k v, In (k, v) (build_subs P d) ->
                              exists t, k = token_text t /\ v = token_value P d t).
  { intros k v H. apply build_subs_entries in H as (t0 & ? & ? & _). eauto. }
  revert Hf Hin Hkeys. generalize (log_format d) as s. generalize (build_subs P d) as subs.
  induction subs as [|[k v] subs IH]; intros s Hs Hin Hkeys; [destruct Hin|].
  simpl.
  destruct (Hkeys k v (or_introl eq_refl)) as (t0 & -> & ->).
  destruct (replace_loop fuel (token_text t0) (token_value P d t0) s) as [s1|] eqn:E;
    [|reflexivity].
  assert (Ht : t0 <> t).
  { intros ->.
    rewrite (replace_loop_diverges _ _ Hm fuel s Hs) in E. discriminate. }
  apply IH.
  - eapply replace_loop_keeps; [apply token_shaped|apply token_shaped| |exact Hs|exact E].
    intros H. apply token_text_inj in H. congruence.
  - destruct Hin as [H|H]; [|exact H].
    exfalso. apply Ht. apply token_text_inj.
    change (fst (token_text t0, token_value P d t0)
            = fst (token_text t, token_value P d t)).
    now rewrite H.
  - intros k' v' H. apply Hkeys. now right.
Qed.

Lemma value_holding_its_own_token_hangs_witness :
  _CreateLogStr demo_platform 1000
    {| log_format := lit "%(FILENAME): %(MSG)"; level := lit "INF"; color := [];
       filename := lit "a%(FILENAME)b.cc"; funcname := lit "main"; pid := 1; tid := 1;
       line := 1; fd := stderr; msg_id := 0; msg := lit "m"; time := 0 |} = None.
Proof.
  apply (value_holding_its_own_token_hangs demo_platform _ FILENAME).
  - exists [], (lit ": %(MSG)"). reflexivity.
  - exists (lit "a"), (lit "b.cc"). reflexivity.
Defined.

(** *** Values that are themselves made of pieces *)

Lemma graft_app (t : token) (w a b : list piece) :
  graft t w (a ++ b) = graft t w a ++ graft t w b.
Proof. apply flat_map_app. Qed.

Lemma graft_here (t : token) (w ps : list piece) :
  graft t w (Tok t :: ps) = w ++ graft t w ps.
Proof.
  unfold graft. simpl. destruct (token_eq_dec t t); [reflexivity|contradiction].
Qed.

Lemma graft_absent (t : token) (w ps : list piece) :
  ~ In (Tok t) ps -> graft t w ps = ps.
Proof.
  induction ps as [|p ps IH]; intros H; [reflexivity|].
  unfold graft in *. simpl.
  rewrite IH by (intros H'; apply H; now right).
  destruct p as [c|t']; [reflexivity|]. simpl.
  destruct (token_eq_dec t t') as [->|]; [|reflexivity].
  exfalso. apply H. now left.
Qed.

Lemma graft_In (t : token) (w ps : list piece) (p : piece) :
  In p (graft t w ps) -> In p ps \/ (In (Tok t) ps /\ In p w).
Proof.
  unfold graft. rewrite in_flat_map. intros (q & Hq & Hin).
  destruct q as [c|t']; simpl in Hin.
  - destruct Hin as [<-|[]]. now left.
  - destruct (token_eq_dec t t') as [->|].
    + right. auto.
    + destruct Hin as [<-|[]]. now left.
Qed.

Lemma count_absent (t : token) (ps : list piece) : ~ In (Tok t) ps -> count t ps = 0.
Proof. intros H. unfold count. now apply count_occ_not_In. Qed.

(** One token's loop, the value being pieces that do not hold the token
    itself. *)
Lemma replace_loop_graft (t : token) (v : str) (w : list piece) (fuel : nat)
      (ps : list piece) :
  Forall plain_piece ps ->
  (In (Tok t) ps -> v = render w /\ Forall plain_piece w /\ ~ In (Tok t) w) ->
  count t ps <= fuel ->
  replace_loop fuel (token_text t) v (render ps) = Some (render (graft t w ps)).
Proof.
  revert ps; induction fuel as [|fuel IH]; intros ps Hps Hv Hc.
  - assert (Hno : ~ In (Tok t) ps).
    { intros H. apply (count_occ_In piece_eq_dec) in H. unfold count in Hc. lia. }
    rewrite graft_absent by exact Hno.
    apply replace_loop_absent.
    destruct (find (token_text t) (render ps)) as [p|] eqn:E; [|reflexivity].
    exfalso. destruct (find_Some _ _ _ E) as (a & b & Hd & _).
    destruct (occurrence_aligned t ps a b Hps Hd) as (pre & post & -> & _).
    apply Hno. apply in_elt.
  - destruct (find (token_text t) (render ps)) as [p|] eqn:E.
    + rewrite (replace_loop_step _ _ v _ _ E).
      destruct (find_replace _ _ v _ E) as (a & b & Hd & _ & ->).
      destruct (occurrence_aligned t ps a b Hps Hd) as (pre & post & -> & -> & ->).
      apply Forall_app in Hps as [Hpre Hpost].
      apply Forall_cons_iff in Hpost as [_ Hpost].
      destruct (Hv (in_elt _ _ _)) as (-> & Hw & Hnw).
      replace (render pre ++ render w ++ render post)
        with (render (pre ++ w ++ post)) by (now rewrite !render_app).
      rewrite IH.
      * f_equal. f_equal.
        rewrite !graft_app. rewrite (graft_absent t w w Hnw).
        change (Tok t :: post) with ([Tok t] ++ post).
        rewrite graft_app. f_equal. f_equal.
        rewrite graft_here. simpl. now rewrite app_nil_r.
      * apply Forall_app; split; [exact Hpre|].
        apply Forall_app; split; [exact Hw|exact Hpost].
      * intros _. auto.
      * unfold count in *. rewrite !count_occ_app in *.
        fold (count t w). rewrite (count_absent t w Hnw).
        rewrite count_occ_cons_eq in Hc by reflexivity. lia.
    + rewrite replace_loop_absent by exact E.
      rewrite graft_absent; [reflexivity|].
      intros H. apply In_tok_occurs in H. apply find_None in E. contradiction.
Qed.

Lemma grafted_outside (w : token -> list piece) (ts : list token) (ps : list piece) :
  (forall t, In (Tok t) ps -> ~ In t ts) ->
  concat (map (grafted w ts) ps) = render ps.
Proof.
  intros H. unfold render. f_equal. apply map_ext_in. intros [c|t] Hin; [reflexivity|].
  simpl. destruct (in_dec token_eq_dec t ts) as [Hi|]; [|reflexivity].
  exfalso. eapply H; eauto.
Qed.

Lemma count_graft (t t' : token) (w ps : list piece) :
  ~ In (Tok t') w -> count t' (graft t w ps) <= count t' ps.
Proof.
  intros Hw. induction ps as [|p ps IH]; [apply Nat.le_refl|].
  change (p :: ps) with ([p] ++ ps).
  rewrite graft_app. unfold count in *. rewrite !count_occ_app.
  apply Nat.add_le_mono; [|exact IH].
  destruct p as [c|t'']; [apply Nat.le_refl|].
  unfold graft. simpl. destruct (token_eq_dec t t''); [|apply Nat.le_refl].
  rewrite app_nil_r. fold (count t' w). rewrite (count_absent t' w Hw). lia.
Qed.

Lemma subst_entries_graft (T : list token) (val : token -> str)
      (w : token -> list piece) (fuel : nat) (ts : list token) (ps : list piece) :
  StronglySorted (fun a b => token_rank a < token_rank b) ts ->
  (forall t, In t ts -> In t T) ->
  Forall plain_piece ps ->
  (forall t, In t ts -> In (Tok t) ps -> val t = render (w t) /\ fits T w t) ->
  (forall t, In t ts -> count t ps <= fuel) ->
  subst_entries fuel (map (fun t => (token_text t, val t)) ts) (render ps)
  = Some (concat (map (grafted w ts) ps)).
Proof.
  intros Hsort. revert ps.
  induction Hsort as [|t ts Hs IH Ht]; intros ps HT Hps Hfit Hc; [reflexivity|].
  assert (Hlater : forall t', In t' ts -> token_rank t < token_rank t').
  { intros t' H. eapply Forall_forall in Ht; eauto. }
  assert (Hw : In (Tok t) ps ->
               forall t', In (Tok t') (w t) -> ~ In t' (t :: ts)).
  { intros Hin t' Hin' [<-|H].
    - destruct (Hfit t (or_introl eq_refl) Hin) as (_ & _ & Hf).
      destruct (Hf t Hin') as [H|H]; [lia|]. apply H. apply HT. now left.
    - destruct (Hfit t (or_introl eq_refl) Hin) as (_ & _ & Hf).
      destruct (Hf t' Hin') as [H'|H'].
      + apply Hlater in H. lia.
      + apply H'. apply HT. now right. }
  simpl.
  rewrite (replace_loop_graft t (val t) (w t)).
  - rewrite IH.
    + f_equal. clear IH Hc.
      induction ps as [|p ps IHp]; [reflexivity|].
      change (p :: ps) with ([p] ++ ps).
      rewrite graft_app, !map_app, !concat_app.
      apply Forall_cons_iff in Hps as [_ Hps].
      rewrite IHp; [|exact Hps| |].
      * f_equal. destruct p as [c|t']; [reflexivity|].
        unfold graft. simpl. rewrite !app_nil_r.
        destruct (token_eq_dec t t') as [<-|Hne].
        -- rewrite grafted_outside; [reflexivity|].
           intros t' Hin Hts. apply (Hw (or_introl eq_refl) t' Hin). now right.
        -- simpl. rewrite app_nil_r.
           destruct (in_dec token_eq_dec t' ts); reflexivity.
      * intros t0 H0 Hin. apply Hfit; [exact H0|now right].
      * intros Hin. apply Hw. now right.
    + intros t' H. apply HT. now right.
    + apply Forall_forall. intros p Hp.
      apply graft_In in Hp as [Hp|[Hin Hp]].
      * eapply Forall_forall in Hps; eauto.
      * destruct (Hfit t (or_introl eq_refl) Hin) as (_ & Hpl & _).
        eapply Forall_forall in Hpl; eauto.
    + intros t' Hts Hin.
      apply graft_In in Hin as [Hin|[Hin Hin']].
      * apply Hfit; [now right|exact Hin].
      * exfalso. apply (Hw Hin t' Hin'). now right.
    + intros t' Hts.
      destruct (in_dec piece_eq_dec (Tok t) ps) as [Hin|Hno].
      * eapply Nat.le_trans; [apply count_graft|apply Hc; now right].
        intros Hin'. apply (Hw Hin t' Hin'). now right.
      * rewrite graft_absent by exact Hno. apply Hc. now right.
  - exact Hps.
  - intros Hin. destruct (Hfit t (or_introl eq_refl) Hin) as (Hv & Hpl & _).
    repeat split; auto. intros Hin'. apply (Hw Hin t Hin'). now left.
  - apply Hc. now left.
Qed.

(** The engine on a template of pieces, the values of its tokens being
    pieces that fit. *)
Lemma create_on_pieces (P : Platform) (d : LogData) (ps : list piece)
      (w : token -> list piece) (fuel : nat) :
  log_format d = render ps ->
  Forall plain_piece ps ->
  (forall t, In (Tok t) ps ->
             token_value P d t = render (w t)
             /\ Forall plain_piece (w t)
             /\ forall t', In (Tok t') (w t) ->
                           token_rank t' < token_rank t \/ in_subs d t' = false) ->
  length ps <= fuel ->
  _CreateLogStr P fuel d = Some (expand P d ps).
Proof.
  intros Hf Hps Hv Hfuel. unfold _CreateLogStr.
  rewrite build_subs_eq, Hf.
  rewrite (subst_entries_graft (filter (in_subs d) all_tokens) (token_value P d) w).
  - f_equal. unfold expand. f_equal.
    apply map_ext_in. intros [c|t] Hin; [reflexivity|].
    unfold grafted, expand_piece.
    destruct (in_dec token_eq_dec t (filter (in_subs d) all_tokens)) as [|Hno].
    + symmetry. apply Hv. exact Hin.
    + exfalso. apply Hno. apply filter_In. split; [destruct t; cbv; tauto|].
      apply in_subs_spec. right. rewrite Hf. now apply In_tok_occurs.
  - apply sorted_filter. apply all_tokens_sorted.
  - auto.
  - exact Hps.
  - intros t _ Hin. destruct (Hv t Hin) as (E & Hpl & Hr).
    split; [exact E|]. split; [exact Hpl|].
    intros t' Hin'. destruct (Hr t' Hin') as [H|H]; [now left|right].
    intros H'. apply filter_In in H' as [_ H']. congruence.
  - intros t _. eapply Nat.le_trans; [apply count_occ_bound|exact Hfuel].
Qed.

(** X13: a value may hold tokens that come earlier in the order of the
    loops, or tokens that have no entry in the table: for a template of
    plain characters and tokens whose values are made of plain
    characters and such tokens, the engine returns the template with each
    token replaced by its value, the values left as they are. *)
Theorem earlier_tokens_in_values_are_left (P : Platform) (d : LogData)
        (ps : list piece) (w : token -> list piece) (fuel : nat) :
  log_format d = render ps ->
  Forall plain_piece ps ->
  (forall t, In (Tok t) ps ->
             token_value P d t = render (w t)
             /\ Forall plain_piece (w t)
             /\ forall t', In (Tok t') (w t) ->
                           token_rank t' < token_rank t
                           \/ (~ always t' /\ ~ occurs (token_text t') (log_format d))) ->
  length ps <= fuel ->
  _CreateLogStr P fuel d = Some (expand P d ps).
Proof.
  intros Hf Hps Hv Hfuel.
  apply (create_on_pieces P d ps w fuel Hf Hps); [|exact Hfuel].
  intros t Hin. destruct (Hv t Hin) as (E & Hpl & Hr).
  split; [exact E|]. split; [exact Hpl|].
  intros t' Hin'. destruct (Hr t' Hin') as [H|[Ha Ho]]; [now left|right].
  destruct (in_subs d t') eqn:I; [|reflexivity].
  apply in_subs_spec in I. tauto.
Qed.

Lemma earlier_tokens_in_values_are_left_witness :
  _CreateLogStr demo_platform 8
    (demo_record "%(MSG) [%(LEVEL)]" "at %(LEVEL), pid %(PID)")
  = Some (lit "at %(LEVEL), pid %(PID) [INF]").
Proof.
  apply (earlier_tokens_in_values_are_left demo_platform
           (demo_record "%(MSG) [%(LEVEL)]" "at %(LEVEL), pid %(PID)")
           [Tok MSG; Chr " "; Chr "["; Tok LEVEL; Chr "]"]
           (fun t => match t with
                     | MSG => map Chr (lit "at ") ++ [Tok LEVEL]
                              ++ map Chr (lit ", pid ") ++ [Tok PID]
                     | LEVEL => map Chr (lit "INF")
                     | _ => []
                     end)).
  - reflexivity.
  - repeat constructor; discriminate.
  - intros t [H|[H|[H|[H|[H|[]]]]]]; try discriminate; injection H as <-.
    + split; [reflexivity|]. split; [repeat constructor; discriminate|].
      intros t' Hin. simpl in Hin.
      repeat (destruct Hin as [Hin|Hin]; [try discriminate|]); try contradiction.
      * injection Hin as <-. left. simpl. lia.
      * injection Hin as <-. right. split.
        -- unfold always. intuition discriminate.
        -- apply find_None. reflexivity.
    + split; [reflexivity|]. split; [repeat constructor; discriminate|].
      intros t' Hin. simpl in Hin.
      repeat (destruct Hin as [Hin|Hin]; [try discriminate|]); contradiction.
  - simpl. lia.
Defined.

End FormatMoreFacts.

Module PercentFacts.

Import FormatFacts FormatMore FormatMoreFacts Percent.

Lemma percents_app (a b : str) : percents (a ++ b) = percents a + percents b.
Proof. apply count_occ_app. Qed.

Lemma percents_none (v : str) : ~ In percent v -> percents v = 0.
Proof. intros H. now apply count_occ_not_In. Qed.

Lemma percents_shaped (k : str) : shaped k -> percents k = 1.
Proof.
  intros (body & -> & Hp & _). unfold percents.
  rewrite count_occ_cons_eq by reflexivity.
  fold (percents (body ++ [rparen])). rewrite percents_app, (percents_none body Hp).
  reflexivity.
Qed.

(** Each round of the loop takes one ['%'] out of the text. *)
Lemma replace_loop_returns (k v : str) (fuel : nat) (s : str) :
  shaped k -> ~ In percent v -> percents s <= fuel ->
  exists r, replace_loop fuel k v s = Some r /\ percents r <= percents s.
Proof.
  intros Hk Hv. revert s; induction fuel as [|fuel IH]; intros s Hs.
  - destruct (find k s) as [p|] eqn:E.
    + exfalso. destruct (find_Some _ _ _ E) as (a & b & -> & _).
      rewrite !percents_app, (percents_shaped k Hk) in Hs. lia.
    + exists s. split; [now apply replace_loop_absent|lia].
  - destruct (find k s) as [p|] eqn:E.
    + rewrite (replace_loop_step _ _ v _ _ E).
      destruct (find_replace _ _ v _ E) as (a & b & -> & _ & ->).
      rewrite !percents_app, (percents_shaped k Hk) in Hs.
      destruct (IH (a ++ v ++ b)) as (r & Hr & Hle).
      * rewrite !percents_app, (percents_none v Hv). lia.
      * exists r. split; [exact Hr|].
        rewrite !percents_app, (percents_none v Hv) in Hle.
        rewrite !percents_app, (percents_shaped k Hk). lia.
    + exists s. split; [now apply replace_loop_absent|lia].
Qed.

Lemma subst_entries_returns (fuel : nat) (subs : subs_t) (s : str) :
  (forall k v, In (k, v) subs -> shaped k /\ ~ In percent v) ->
  percents s <= fuel ->
  exists r, subst_entries fuel subs s = Some r /\ percents r <= percents s.
Proof.
  revert s; induction subs as [|[k v] subs IH]; intros s H Hs.
  - exists s. split; [reflexivity|lia].
  - destruct (H k v (or_introl eq_refl)) as [Hk Hv].
    destruct (replace_loop_returns k v fuel s Hk Hv Hs) as (r1 & E1 & L1).
    destruct (IH r1) as (r & E & L).
    + intros k' v' Hin. apply H. now right.
    + lia.
    + exists r. simpl. rewrite E1. split; [exact E|lia].
Qed.

(** X14: for every template, when no value of the table holds a ['%'], the
    engine returns, with fuel for as many rounds as the template has
    ['%'], and its output has no more ['%'] than the template. *)
Theorem returns_when_values_have_no_percent (P : Platform) (d : LogData) (fuel : nat) :
  (forall t, always t \/ occurs (token_text t) (log_format d) ->
             ~ In percent (token_value P d t)) ->
  percents (log_format d) <= fuel ->
  exists r, _CreateLogStr P fuel d = Some r /\ percents r <= percents (log_format d).
Proof.
  intros Hv Hfuel. unfold _CreateLogStr.
  apply subst_entries_returns; [|exact Hfuel].
  intros k v Hin. apply build_subs_entries in Hin as (t & -> & -> & Ht).
  split; [apply token_shaped|]. apply Hv. now apply in_subs_spec.
Qed.

Lemma returns_when_values_have_no_percent_witness :
  exists r, _CreateLogStr demo_platform 3 (demo_record "%(M%(LEVEL)G) 100%" "S") = Some r
            /\ percents r <= percents (lit "%(M%(LEVEL)G) 100%").
Proof.
  apply (returns_when_values_have_no_percent demo_platform
           (demo_record "%(M%(LEVEL)G) 100%" "S") 3).
  - intros t [H|H].
    + destruct H as [-> | [-> | [-> | ->]]]; cbv; intuition discriminate.
    + apply find_occurs in H as [p H].
      destruct t; try discriminate H; cbv; intuition discriminate.
  - apply Nat.leb_le. reflexivity.
Defined.

End PercentFacts.

(** ** What the print task writes *)

Module PrintMoreFacts.

Import FormatFacts PrintFacts LoggerMore LoggerMoreFacts FormatMore FormatMoreFacts PrintMore.

Lemma clean_app (a b : str) : clean a -> clean b -> clean (a ++ b).
Proof.
  intros [Ha Ha'] [Hb Hb']. split; intros H; apply in_app_or in H; tauto.
Qed.

Lemma clean_newline : clean newline.
Proof. split; cbv; intuition discriminate. Qed.

Lemma clean_reset : clean YETI_RESET.
Proof. split; cbv; intuition discriminate. Qed.

(** A line free of ['%'] and NUL, through the print task. *)
Lemma clean_line_helper (P : Platform) (fuel : nat) (d : LogData)
        (c : bool) (r : str) :
  _CreateLogStr P fuel d = Some r ->
  clean r ->
  (Format.isatty P (fd d) && c = true -> clean (color d)) ->
  print_func P fuel d c
  = Done (fd d, if Format.isatty P (fd d) && c
                then color d ++ r ++ newline ++ YETI_RESET
                else r ++ newline).
Proof.
  intros H Hr Hc. unfold print_func. rewrite H.
  assert (Hl : clean (log_str P c d r)).
  { unfold log_str. destruct (Format.isatty P (fd d) && c).
    - apply clean_app; [now apply Hc|].
      apply clean_app; [|apply clean_reset].
      apply clean_app; [exact Hr|apply clean_newline].
    - apply clean_app; [exact Hr|apply clean_newline]. }
  destruct Hl as [Hp Hn].
  rewrite c_str_plain by exact Hn. rewrite fprintf_plain by exact Hp.
  unfold log_str. destruct (Format.isatty P (fd d) && c); [|reflexivity].
  now rewrite <- app_assoc.
Qed.

(** X15: when the line [_CreateLogStr] returns holds neither ['%'] nor NUL,
    the print task writes to the record's stream that line and a newline,
    between the record's colour and the reset sequence when the stream is
    a terminal and the colour flag was set, and bare otherwise. *)
Theorem clean_line_is_written_as_built (P : Platform) (fuel : nat) (d : LogData)
        (c : bool) (r : str) :
  _CreateLogStr P fuel d = Some r ->
  clean r ->
  (Format.isatty P (fd d) && c = true -> clean (color d)) ->
  print_func P fuel d c
  = Done (fd d, if Format.isatty P (fd d) && c
                then color d ++ r ++ newline ++ YETI_RESET
                else r ++ newline).
Proof. apply clean_line_helper. Qed.

Lemma clean_line_is_written_as_built_witness :
  print_func demo_platform 5 (demo_record "[%(LEVEL)] %(MSG)" "started") false
  = Done (stderr, lit "[INF] started" ++ newline).
Proof.
  apply (clean_line_is_written_as_built demo_platform 5
           (demo_record "[%(LEVEL)] %(MSG)" "started") false (lit "[INF] started")).
  - reflexivity.
  - split; cbv; intuition discriminate.
  - intros H. discriminate H.
Defined.

Lemma c_str_stops (a b : str) : c_str (a ++ NUL :: b) = c_str a.
Proof.
  induction a as [|c a IH]; simpl.
  - reflexivity.
  - destruct (Ascii.eqb c NUL); [reflexivity|now rewrite IH].
Qed.

(** X16: when the line holds a NUL, [fprintf] is handed only what stands
    before it: whatever follows the NUL, the newline and the reset
    sequence have no part in the outcome, which is that of [fprintf] on
    the text before the NUL (behind the colour on a coloured terminal);
    when that text holds no ['%'] and no NUL it is written as it is, with no
    newline. *)
Theorem nul_cuts_the_line (P : Platform) (fuel : nat) (d : LogData) (c : bool)
        (a b : str) :
  _CreateLogStr P fuel d = Some (a ++ NUL :: b) ->
  let head := if Format.isatty P (fd d) && c then color d ++ a else a in
  print_func P fuel d c
  = match fprintf (c_str head) with
    | Some written => Done (fd d, written)
    | None => Undefined
    end
  /\ (clean head -> print_func P fuel d c = Done (fd d, head)).
Proof.
  intros H head.
  assert (E : c_str (log_str P c d (a ++ NUL :: b)) = c_str head).
  { unfold log_str, head. destruct (Format.isatty P (fd d) && c).
    - rewrite <- !app_assoc. simpl. rewrite app_assoc. apply c_str_stops.
    - rewrite <- app_assoc. simpl. apply c_str_stops. }
  assert (G : print_func P fuel d c
              = match fprintf (c_str head) with
                | Some written => Done (fd d, written)
                | None => Undefined
                end).
  { unfold print_func. now rewrite H, E. }
  split; [exact G|].
  intros [Hp Hn]. rewrite G, c_str_plain by exact Hn. now rewrite fprintf_plain.
Qed.

Lemma nul_cuts_the_line_witness :
  print_func demo_platform 5 nul_record true = Done (file 3, lit "head").
Proof.
  apply (proj2 (nul_cuts_the_line demo_platform 5 nul_record true (lit "head") (lit " tail")
                  eq_refl)).
  split; cbv; intuition discriminate.
Defined.

Example nul_after_percent :
  print_func demo_platform 5
    {| log_format := lit "100%%" ++ NUL :: lit " %(MSG)"; level := lit "INF";
       color := []; filename := []; funcname := []; pid := 1; tid := 1; line := 1;
       fd := file 3; msg_id := 0; msg := lit "tail"; time := 0 |} false
  = Done (file 3, lit "100%").
Proof. reflexivity. Qed.

(** [std::to_string] writes a sign and digits only. *)
Lemma uint_chars (u : Decimal.uint) (c : ascii) :
  In c (list_ascii_of_string (DecimalString.NilEmpty.string_of_uint u)) ->
  (48 <= nat_of_ascii c <= 57)%nat.
Proof.
  induction u; simpl; intros H; try contradiction;
    (destruct H as [<-|H]; [split; apply Nat.leb_le; reflexivity|auto]).
Qed.

Lemma to_string_chars (z : Z) (c : ascii) :
  In c (to_string z) -> c = "-"%char \/ (48 <= nat_of_ascii c <= 57)%nat.
Proof.
  unfold to_string, lit.
  assert (U : forall u, In c (list_ascii_of_string (DecimalString.NilZero.string_of_uint u)) ->
                        (48 <= nat_of_ascii c <= 57)%nat).
  { intros u H. destruct u; try exact (uint_chars _ c H).
    simpl in H. destruct H as [<-|[]]. split; apply Nat.leb_le; reflexivity. }
  destruct (Z.to_int z) as [u|u]; intros H.
  - right. exact (U u H).
  - change (In c ("-"%char :: list_ascii_of_string (DecimalString.NilZero.string_of_uint u))) in H.
    destruct H as [<-|H]; [now left|]. right. exact (U u H).
Qed.

Lemma clean_to_string (z : Z) : clean (to_string z).
Proof.
  split; intros H; apply to_string_chars in H as [H|H]; try discriminate H.
  - change (nat_of_ascii percent) with 37 in H. lia.
  - change (nat_of_ascii NUL) with 0 in H. lia.
Qed.

Lemma clean_tag (l : LogLevel) : clean (tag l).
Proof. destruct l; split; cbv; intuition discriminate. Qed.

Lemma clean_colour (l : LogLevel) : clean (colour l).
Proof. destruct l; split; cbv; intuition discriminate. Qed.

Lemma clean_lit_parts :
  clean (lit "[") /\ clean (lit "] ") /\ clean (lit ": ").
Proof. repeat split; cbv; intuition discriminate. Qed.

(** X17: under the template the constructor sets, a call that passes the
    level test, with a file name free of ['%'] and NUL and a message free
    of ['%'], queues a record whose print task writes
    [[TAG] file: line: message] and a newline, in the colour of the level
    on a terminal with colours on. *)
Theorem default_line (P : Platform) (value : LogLevel -> Z) (l : LogLevel)
        (cs : CallSite) (lg : Logger) (fuel : nat) :
  format_str_ lg = constructor_format ->
  passes value l lg = true ->
  clean (cs_file cs) ->
  ~ In percent (yeti_msg cs) ->
  11 <= fuel ->
  let text := lit "[" ++ tag l ++ lit "] " ++ cs_file cs ++ lit ": "
              ++ to_string (cs_line cs) ++ lit ": " ++ yeti_msg cs in
  exists d,
    queue_ (log_macro value l cs lg) = queue_ lg ++ [print_task d (is_colored_ lg)]
    /\ print_func P fuel d (is_colored_ lg)
       = Done (fd_ lg, if Format.isatty P (fd_ lg) && is_colored_ lg
                       then colour l ++ text ++ newline ++ YETI_RESET
                       else text ++ newline).
Proof.
  intros Hfmt Hpass Hfile Hmsg Hfuel text.
  exists (stamped l cs lg). split.
  - rewrite log_macro_eq. fold (passes value l lg). rewrite Hpass. reflexivity.
  - assert (Hmsg' : clean (yeti_msg cs)) by (split; [exact Hmsg|apply c_str_no_NUL]).
    assert (Hcreate : _CreateLogStr P fuel (stamped l cs lg) = Some text).
    { rewrite (create_on_pieces P (stamped l cs lg)
                 [Chr "["; Tok LEVEL; Chr "]"; Chr " "; Tok FILENAME; Chr ":"; Chr " ";
                  Tok LINE; Chr ":"; Chr " "; Tok MSG]
                 (fun t => map Chr (token_value P (stamped l cs lg) t)) fuel).
      - unfold expand, text. simpl. now rewrite app_nil_r.
      - exact Hfmt.
      - repeat constructor; discriminate.
      - intros t Hin. split; [symmetry; apply render_chars|].
        assert (Hv : ~ In percent (token_value P (stamped l cs lg) t)).
        { simpl in Hin.
          repeat (destruct Hin as [Hin|Hin]; [try discriminate|]); try contradiction;
            injection Hin as <-; simpl.
          - apply clean_tag.
          - apply Hfile.
          - apply clean_to_string.
          - exact Hmsg. }
        split; [now apply plain_chars|].
        intros t' Hin'. apply in_map_iff in Hin' as (x & Hx & _). discriminate.
      - simpl. exact Hfuel. }
    assert (Hclean : clean text).
    { destruct clean_lit_parts as (H1 & H2 & H3). unfold text.
      repeat apply clean_app; auto using clean_tag, clean_to_string. }
    rewrite (clean_line_helper P fuel (stamped l cs lg) (is_colored_ lg) text Hcreate Hclean).
    + reflexivity.
    + intros _. apply clean_colour.
Qed.

Lemma default_line_witness :
  exists d,
    queue_ (log_macro from_zero LOG_LEVEL_INFO demo_site (fresh LOG_LEVEL_INFO))
    = [] ++ [print_task d true]
    /\ print_func demo_platform 11 d true
       = Done (stderr, YETI_LGREEN ++ lit "[INF] main.cc: 7: started"
                       ++ newline ++ YETI_RESET).
Proof.
  apply (default_line demo_platform from_zero LOG_LEVEL_INFO demo_site
           (fresh LOG_LEVEL_INFO) 11).
  - reflexivity.
  - reflexivity.
  - split; cbv; intuition discriminate.
  - cbv; intuition discriminate.
  - lia.
Defined.

End PrintMoreFacts.

(** ** Ids of one thread, ids of calls that do not overlap *)

Module MsgIdMoreFacts.

Import MsgId MsgIdFacts MsgIdMore.

Local Open Scope Z_scope.

(** X18: however the calls of the threads interleave, the ids one thread
    reads go up strictly, as long as fewer than 2^64 steps were taken. *)
Theorem a_thread_sees_growing_ids (schedule : list nat) (t : nat) :
  Z.of_nat (length schedule) < 2 ^ 64 ->
  StronglySorted Z.lt (ids_of t (run schedule init)).
Proof.
  intros H. apply (good_run schedule 0 init H good_init).
Qed.

Lemma a_thread_sees_growing_ids_witness :
  StronglySorted Z.lt (ids_of 0%nat (run [0; 1; 0; 1; 0; 1; 1; 0]%nat init)).
Proof.
  apply (a_thread_sees_growing_ids [0; 1; 0; 1; 0; 1; 1; 0]%nat 0%nat).
  simpl. lia.
Defined.

Lemma call_alone (s : state) (t : nat) :
  (forall u, at_ s u = Outside) ->
  counter s + 1 < 2 ^ 64 -> 0 <= counter s ->
  ids (step (step s t) t) = ids s ++ [(t, counter s)]
  /\ counter (step (step s t) t) = counter s + 1
  /\ (forall u, at_ (step (step s t) t) u = Outside).
Proof.
  intros Hout Hlt Hge.
  assert (E1 : step s t = {| logger := logger s; at_ := move t HasId (at_ s);
                             ids := ids s ++ [(t, GetMsgId (logger s))] |}).
  { unfold step. now rewrite (Hout t). }
  rewrite E1. clear E1.
  assert (E2 : forall lg f i,
             step {| logger := lg; at_ := move t HasId f; ids := i |} t
             = {| logger := IncMsgId lg; at_ := move t Outside (move t HasId f);
                  ids := i |}).
  { intros lg f i. unfold step. simpl. unfold move at 1. now rewrite Nat.eqb_refl. }
  rewrite E2. clear E2. simpl.
  repeat split.
  - unfold counter. simpl. unfold SIZE_MAX1. apply Z.mod_small.
    unfold counter in *. lia.
  - intros u. unfold move. destruct (Nat.eqb u t); [reflexivity|apply Hout].
Qed.

Lemma one_by_one_from (ts : list nat) (s : state) :
  (forall u, at_ s u = Outside) ->
  0 <= counter s -> counter s + Z.of_nat (length ts) < 2 ^ 64 ->
  ids (run (one_by_one ts) s) = ids s ++ combine ts (from (counter s) (length ts))
  /\ counter (run (one_by_one ts) s) = counter s + Z.of_nat (length ts).
Proof.
  revert s; induction ts as [|t ts IH]; intros s Hout Hge Hlt.
  - simpl. rewrite app_nil_r. split; [reflexivity|lia].
  - change (run (one_by_one (t :: ts)) s)
      with (run (one_by_one ts) (step (step s t) t)).
    simpl length in *. rewrite Nat2Z.inj_succ in Hlt.
    destruct (call_alone s t Hout ltac:(lia) Hge) as (Hi & Hc & Ho).
    destruct (IH _ Ho ltac:(lia) ltac:(lia)) as [Hi' Hc'].
    rewrite Hi', Hc', Hi, Hc. simpl. rewrite <- app_assoc. split; [reflexivity|lia].
Qed.

Lemma from_lower (k : Z) (n : nat) (x : Z) : In x (from k n) -> k <= x.
Proof.
  revert k; induction n as [|n IH]; intros k H; [destruct H|].
  destruct H as [<-|H]; [lia|]. apply IH in H. lia.
Qed.

Lemma from_NoDup (k : Z) (n : nat) : NoDup (from k n).
Proof.
  revert k; induction n as [|n IH]; intros k; simpl; constructor; [|apply IH].
  intros H. apply from_lower in H. lia.
Qed.

Lemma from_length (k : Z) (n : nat) : length (from k n) = n.
Proof. revert k; induction n as [|n IH]; intros k; simpl; [reflexivity|now rewrite IH]. Qed.

Lemma snd_combine {A B} (a : list A) (b : list B) :
  length a = length b -> map snd (combine a b) = b.
Proof.
  revert b; induction a as [|x a IH]; intros [|y b] H; try discriminate; [reflexivity|].
  simpl. f_equal. apply IH. now injection H.
Qed.

(** X19: when no two logging calls overlap (each thread increments right
    after it has read), the ids are 0, 1, 2, ... in the order of the
    calls, hence pairwise distinct. *)
Theorem calls_that_do_not_overlap_get_distinct_ids (ts : list nat) :
  Z.of_nat (length ts) < 2 ^ 64 ->
  ids (run (one_by_one ts) init) = combine ts (from 0 (length ts))
  /\ NoDup (map snd (ids (run (one_by_one ts) init))).
Proof.
  intros H.
  destruct (one_by_one_from ts init) as [Hi _]; [reflexivity|reflexivity|exact H|].
  simpl in Hi. split; [exact Hi|].
  rewrite Hi, snd_combine by (now rewrite from_length). apply from_NoDup.
Qed.

Lemma calls_that_do_not_overlap_get_distinct_ids_witness :
  ids (run (one_by_one [0; 1; 0]%nat) init) = [(0%nat, 0); (1%nat, 1); (0%nat, 2)].
Proof.
  apply (proj1 (calls_that_do_not_overlap_get_distinct_ids [0; 1; 0]%nat
                  ltac:(simpl; lia))).
Defined.

End MsgIdMoreFacts.

(** ** Registration of the signal handlers *)

Module SignalsFacts.

Import Signals.

Local Open Scope Z_scope.

Lemma RegSignal_other (k j : Z) (st : SigState) :
  j <> k ->
  disposition (RegSignal k st) j = disposition st j
  /\ g_old_handlers (RegSignal k st) j = g_old_handlers st j.
Proof.
  intros H. apply Z.eqb_neq in H. unfold RegSignal.
  destruct (disposition st k); simpl; unfold upd; rewrite H; auto.
Qed.

Lemma RegSignal_here (k : Z) (st : SigState) :
  disposition (RegSignal k st) k = Some SimpleSignalHandler_addr
  /\ g_old_handlers (RegSignal k st) k
     = match disposition st k with Some h => Some h | None => g_old_handlers st k end.
Proof.
  unfold RegSignal.
  destruct (disposition st k); simpl; unfold upd; rewrite Z.eqb_refl; auto.
Qed.

Lemma RegSignal_flag (k : Z) (st : SigState) :
  is_registered (RegSignal k st) = is_registered st.
Proof. unfold RegSignal. now destruct (disposition st k). Qed.

Lemma RegAllSignals_outside (names : list Z) (st : SigState) (j : Z) :
  ~ In j names ->
  disposition (RegAllSignals names st) j = disposition st j
  /\ g_old_handlers (RegAllSignals names st) j = g_old_handlers st j.
Proof.
  revert st; induction names as [|k names IH]; intros st H; [auto|].
  simpl. destruct (IH (RegSignal k st)) as [H1 H2]; [intros H'; apply H; now right|].
  destruct (RegSignal_other k j st) as [H3 H4]; [intros ->; apply H; now left|].
  rewrite H1, H2. auto.
Qed.

Lemma RegAllSignals_flag (names : list Z) (st : SigState) :
  is_registered (RegAllSignals names st) = is_registered st.
Proof.
  revert st; induction names as [|k names IH]; intros st; [reflexivity|].
  simpl. now rewrite IH, RegSignal_flag.
Qed.

Lemma RegAllSignals_inside (names : list Z) (st : SigState) (k : Z) :
  NoDup names -> In k names ->
  disposition (RegAllSignals names st) k = Some SimpleSignalHandler_addr
  /\ g_old_handlers (RegAllSignals names st) k
     = match disposition st k with Some h => Some h | None => g_old_handlers st k end.
Proof.
  revert st; induction names as [|j names IH]; intros st Hnd Hin; [destruct Hin|].
  apply NoDup_cons_iff in Hnd as [Hj Hnd]. simpl.
  destruct Hin as [->|Hin].
  - destruct (RegAllSignals_outside names (RegSignal k st) k Hj) as [H1 H2].
    destruct (RegSignal_here k st) as [H3 H4].
    rewrite H1, H2. auto.
  - destruct (IH (RegSignal j st) Hnd Hin) as [H1 H2].
    assert (Hne : k <> j) by (intros ->; contradiction).
    destruct (RegSignal_other j k st Hne) as [H3 H4].
    rewrite H1, H2, H3, H4. auto.
Qed.

(** X20: [RegAllSignals] installs [SimpleSignalHandler] for each signal of
    [SIGNAME] and records, as the handler to chain to, the handler it
    replaces when that is not null; every other signal keeps its handler. *)
Theorem registration_keeps_previous_handlers (names : list Z) (st : SigState) (k : Z) :
  NoDup names ->
  (In k names ->
   disposition (RegAllSignals names st) k = Some SimpleSignalHandler_addr
   /\ chained k (RegAllSignals names st)
      = match disposition st k with Some h => Some h | None => g_old_handlers st k end)
  /\ (~ In k names ->
      disposition (RegAllSignals names st) k = disposition st k
      /\ chained k (RegAllSignals names st) = chained k st).
Proof.
  intros Hnd. split; intros H.
  - now apply RegAllSignals_inside.
  - now apply RegAllSignals_outside.
Qed.

Lemma registration_keeps_previous_handlers_witness :
  chained 2 (RegAllSignals [2; 4; 6; 8; 11; 15]
               (at_start (fun j => if Z.eqb j 2 then Some 7%nat else None)))
  = Some 7%nat.
Proof.
  apply (proj1 (registration_keeps_previous_handlers [2; 4; 6; 8; 11; 15]
                  (at_start (fun j => if Z.eqb j 2 then Some 7%nat else None)) 2
                  ltac:(repeat constructor; simpl; intuition lia))).
  simpl. tauto.
Defined.

Lemma instance_again (names : list Z) (st : SigState) :
  instance names (instance names st) = instance names st.
Proof.
  unfold instance. destruct (is_registered st) eqn:E.
  - now rewrite E.
  - now rewrite RegAllSignals_flag.
Qed.

Lemma calls_once (n : nat) (names : list Z) (st : SigState) :
  calls (S n) names st = instance names st.
Proof.
  revert st; induction n as [|n IH]; intros st; [reflexivity|].
  change (calls (S (S n)) names st) with (calls (S n) names (instance names st)).
  rewrite IH. apply instance_again.
Qed.

(** X21: however often [Logger::instance] is called, the handlers are
    registered once: [SimpleSignalHandler] never chains to itself, and
    for each signal of [SIGNAME] it chains to the handler the process had
    before the logger was first used. *)
Theorem handler_is_never_its_own_predecessor (n : nat) (names : list Z)
        (disp : Z -> handler) (k : Z) :
  NoDup names ->
  (forall j, disp j <> Some SimpleSignalHandler_addr) ->
  chained k (calls n names (at_start disp)) <> Some SimpleSignalHandler_addr
  /\ (In k names -> chained k (calls (S n) names (at_start disp)) = disp k).
Proof.
  intros Hnd Hd.
  assert (H1 : chained k (instance names (at_start disp)) <> Some SimpleSignalHandler_addr
               /\ (In k names -> chained k (instance names (at_start disp)) = disp k)).
  { unfold instance. simpl.
    set (st := {| disposition := disp; g_old_handlers := fun _ => None;
                  is_registered := true |}).
    destruct (in_dec Z.eq_dec k names) as [Hin|Hout].
    - destruct (RegAllSignals_inside names st k Hnd Hin) as [_ H].
      unfold chained. rewrite H. simpl.
      split; [|intros _]; destruct (disp k) eqn:E; try discriminate; auto.
      rewrite <- E. apply Hd.
    - destruct (RegAllSignals_outside names st k Hout) as [_ H].
      unfold chained. rewrite H. simpl. split; [discriminate|contradiction]. }
  split.
  - destruct n as [|n]; [simpl; discriminate|].
    rewrite calls_once. apply H1.
  - rewrite calls_once. apply H1.
Qed.

Lemma handler_is_never_its_own_predecessor_witness :
  chained 2 (calls 3%nat [2; 4; 6; 8; 11; 15] (at_start (fun _ => None)))
  <> Some SimpleSignalHandler_addr.
Proof.
  apply (proj1 (handler_is_never_its_own_predecessor 3%nat [2; 4; 6; 8; 11; 15]
                  (fun _ => None) 2
                  ltac:(repeat constructor; simpl; intuition lia)
                  ltac:(discriminate))).
Defined.

(** Without the flag a second registration would make the handler chain
    to itself. *)
Lemma second_registration_chains_to_itself (names : list Z) (st : SigState) (k : Z) :
  NoDup names -> In k names ->
  chained k (RegAllSignals names (RegAllSignals names st))
  = Some SimpleSignalHandler_addr.
Proof.
  intros Hnd Hin.
  destruct (RegAllSignals_inside names (RegAllSignals names st) k Hnd Hin) as [_ H].
  destruct (RegAllSignals_inside names st k Hnd Hin) as [H' _].
  unfold chained. rewrite H, H'. reflexivity.
Qed.

End SignalsFacts.

